(** * Radicle VS Code extension: node connection and patch store

    A shallow embedding of the patch-synchronisation core of the extension
    ([src/stores/patchStore.ts], [src/utils/nodeConnection.ts], the two
    adapters, [src/helpers/config.ts] and the edge-revision and file-change
    code of [src/ux/patches.ts]) together with the properties the
    specification states about it.

    Conventions.
    - A JavaScript object that observers can hold on to lives in an object
      store ([heap]); a reference to it is an index into that store, so
      "the same object" is "the same index".
    - An [async] function is cut at its [await]s.  What the function does
      between two awaits is one atomic step of the single-threaded event
      loop; the values the awaits deliver are inputs of the model.
    - A promise that rejects and a synchronous [throw] inside an [async]
      function are both the [Throw] case of [Outcome].
    - Calls into the presentation layer (the re-rendering effects of the
      store, the tree items) change nothing the properties speak of and
      are left out. *)

From Stdlib Require Import ZArith QArith_base String Ascii Bool Lia.
From Stdlib Require Import Permutation Sorted OrderedTypeEx.
From stdpp Require Import base list option strings.

Local Open Scope string_scope.
Local Open Scope list_scope.

(** ** Host-language primitives *)

Module Js.

(** [Boolean(s)] for a value of type [string | undefined]: [undefined]
    and the empty string are falsy. *)
Definition truthy (s : option string) : bool :=
  match s with
  | Some s => negb (String.eqb s "")
  | None => false
  end.

(** [s.startsWith(p)], returning what follows the prefix. *)
Fixpoint dropPrefix (p s : string) : option string :=
  match p, s with
  | EmptyString, _ => Some s
  | String a p', String b s' => if Ascii.eqb a b then dropPrefix p' s' else None
  | String _ _, EmptyString => None
  end.

(** [s.includes(sub)]: [sub] occurs in [s] as a contiguous substring. *)
Fixpoint includes (s sub : string) : bool :=
  String.prefix sub s ||
  match s with
  | EmptyString => false
  | String _ s' => includes s' sub
  end.

(** [xs.find(f)]: the first element satisfying [f], if any. *)
Fixpoint find {A : Type} (f : A -> bool) (xs : list A) : option A :=
  match xs with
  | [] => None
  | x :: xs' => if f x then Some x else find f xs'
  end.

(** [xs.filter(Boolean)] on an array whose elements are objects or
    [undefined]. *)
Fixpoint filterBoolean {A : Type} (xs : list (option A)) : list A :=
  match xs with
  | [] => []
  | Some x :: xs' => x :: filterBoolean xs'
  | None :: xs' => filterBoolean xs'
  end.

(** [xs.flatMap(f)] where [f] answers an array or [undefined]; an
    [undefined] answer is kept as one element. *)
Fixpoint flatMap {A B : Type} (f : A -> option (list B)) (xs : list A) : list (option B) :=
  match xs with
  | [] => []
  | x :: xs' =>
      match f x with
      | Some ys => map Some ys
      | None => [None]
      end ++ flatMap f xs'
  end.

(** [Array.prototype.sort] is stable and, for a consistent comparator,
    yields the unique stably sorted arrangement.  [insert_by] puts [x]
    in front of the first element it does not compare greater than, so
    folding it from the right keeps equal elements in storage order. *)
Fixpoint insert_by {A : Type} (cmp : A -> A -> Z) (x : A) (xs : list A) : list A :=
  match xs with
  | [] => [x]
  | y :: ys => if (cmp x y <=? 0)%Z then x :: y :: ys else y :: insert_by cmp x ys
  end.

Fixpoint sort {A : Type} (cmp : A -> A -> Z) (xs : list A) : list A :=
  match xs with
  | [] => []
  | x :: xs' => insert_by cmp x (sort cmp xs')
  end.

(** The order a comparator stands for: [a] may come before [b]. *)
Definition before {A : Type} (cmp : A -> A -> Z) (a b : A) : Prop := (cmp a b <= 0)%Z.

(** [xs[0]]. *)
Definition at_first {A : Type} (xs : list A) : option A :=
  match xs with
  | [] => None
  | x :: _ => Some x
  end.

(** [xs.at(-1)]: the last element, [undefined] on the empty array. *)
Fixpoint at_last {A : Type} (xs : list A) : option A :=
  match xs with
  | [] => None
  | [x] => Some x
  | _ :: xs' => at_last xs'
  end.

End Js.

(** [node:path], POSIX flavour, on the characters of a path. *)
Module Path.

Definition isSep (c : ascii) : bool := Ascii.eqb c "/".

Definition chars (s : string) : list ascii := list_ascii_of_string s.

Definition text (cs : list ascii) : string := string_of_list_ascii cs.

Fixpoint skipWhile (f : ascii -> bool) (cs : list ascii) : list ascii :=
  match cs with
  | [] => []
  | c :: cs' => if f c then skipWhile f cs' else cs
  end.

Fixpoint readWhile (f : ascii -> bool) (cs : list ascii) : list ascii :=
  match cs with
  | [] => []
  | c :: cs' => if f c then c :: readWhile f cs' else []
  end.

(** Trailing separators are skipped, then the last component is read
    back to the separator in front of it. *)
Definition basename (path : string) : string :=
  let r := skipWhile isSep (rev (chars path)) in
  text (rev (readWhile (fun c => negb (isSep c)) r)).

(** The scan runs from the end down to index 1: it skips trailing
    separators and the last component, and stops at the separator in
    front of it, which is where the result ends. *)
Definition dirname (path : string) : string :=
  match chars path with
  | [] => "."
  | c0 :: rest =>
      let hasRoot := isSep c0 in
      let r := skipWhile (fun c => negb (isSep c)) (skipWhile isSep (rev rest)) in
      match r with
      | [] => if hasRoot then "/" else "."
      | _ :: before =>
          if hasRoot && (length before =? 0)%nat then "//"
          else text (c0 :: rev before)
      end
  end.

End Path.

(** The promise of an [async] function settles with a returned value or
    with a thrown error. *)
Definition Error := string.

Inductive Outcome (A : Type) : Type :=
| Return (a : A)
| Throw (e : Error).
Arguments Return {A} a.
Arguments Throw {A} e.

(** ** Data model *)

(** [src/types/node.ts]: an object carrying an optional [data] and an
    optional [error] property.  The declared type
    [Result<Data> = XOR<{ data: Data }, { error: Error }>] is the subset
    [xor_Result]; the code also builds objects outside of it. *)
Record Result (D : Type) : Type := mkResult {
  data : option D;
  error : option Error
}.
Arguments mkResult {D} data error.
Arguments data {D} r.
Arguments error {D} r.

Definition xor_Result {D : Type} (r : Result D) : bool :=
  xorb (bool_decide (is_Some (data r))) (bool_decide (is_Some (error r))).

Definition RID := string.

Record ValidationOptions : Type := mkValidationOptions {
  minimizeUserNotifications : bool
}.

(** Modelled from the spec: the declarations of [Project], [Patch] and
    [Revision] live in [src/types/httpd.ts], which is not part of the
    sources at hand; the fields are those of section 3 of the
    specification. *)
Inductive PatchStatus : Type := draft | open | archived | merged.

Record Project : Type := mkProject {
  project_id : RID
}.

Record Author : Type := mkAuthor {
  author_alias : string;
  author_id : string
}.

Record Revision : Type := mkRevision {
  rev_id : string;
  rev_author : Author;
  rev_description : string;
  rev_base : string;
  rev_oid : string;
  rev_timestamp : Z
}.

Record Patch : Type := mkPatch {
  patch_id : string;
  patch_title : string;
  patch_author : Author;
  patch_labels : list string;
  patch_status : PatchStatus;
  patch_revisions : list Revision
}.

(** [AugmentedPatch = Patch & { lastFetchedTs: number }]. *)
Record AugmentedPatch : Type := mkAugmentedPatch {
  aug_patch : Patch;
  aug_lastFetchedTs : Q
}.

(** [Date.now() / 1000] for the clock reading [now_ms]. *)
Definition seconds (now_ms : Z) : Q := Qmake now_ms 1000.

(** [{ ...fetchedPatch, ...{ lastFetchedTs: nowTs } }]. *)
Definition augment (nowTs : Q) (fetchedPatch : Patch) : AugmentedPatch :=
  mkAugmentedPatch fetchedPatch nowTs.


(** ** The connection interface and its two adapters *)

(** [src/types/node.ts], [RadicleNodeConnection].  Every operation is an
    [async] method: its model is what awaiting the call delivers. *)
Class RadicleNodeConnection (N : Type) : Type := {
  validate : N -> ValidationOptions -> Outcome bool;
  getAllProjects : N -> Outcome (Result (list Project));
  getProject : N -> string -> Outcome (Result Project);
  getCurrentProjectId : N -> Outcome (Result RID);
  fetchAllPatches : N -> RID -> Outcome (list (Result (list Patch)));
  fetchPatch : N -> RID -> string -> Outcome (Result Patch)
}.

Definition Query := list (string * string).

(** [fetchFromHttpd] is declared in [src/helpers], which is not part of
    the sources at hand.  Its result type follows the route, so it is
    taken as one function per response type, each from the request path
    and query to what awaiting the call delivers. *)
Record Httpd : Type := mkHttpd {
  fetchProject : string -> Query -> Outcome (Result Project);
  fetchProjects : string -> Query -> Outcome (Result (list Project));
  fetchOnePatch : string -> Query -> Outcome (Result Patch);
  fetchPatches : string -> Query -> Outcome (Result (list Patch))
}.

(** What a [ClassicNode] talks to: the HTTP daemon and the two helpers
    it imports ([validateHttpdConnection], [memoizedGetCurrentProjectId]). *)
Record ClassicNode : Type := mkClassicNode {
  httpd : Httpd;
  validateHttpdConnection : ValidationOptions -> Outcome bool;
  memoizedGetCurrentProjectId : option RID
}.

(** [await Promise.all(ps)]: all values, or a rejection.  When several
    of the promises reject, the host rejects with the rejection that
    comes first in time; here it is the first in the order of the
    array, and no property below depends on which one it is. *)
Fixpoint awaitAll {A : Type} (ps : list (Outcome A)) : Outcome (list A) :=
  match ps with
  | [] => Return []
  | Throw e :: _ => Throw e
  | Return a :: ps' =>
      match awaitAll ps' with
      | Return xs => Return (a :: xs)
      | Throw e => Throw e
      end
  end.

Definition patchesPath (rid : RID) : string := "/projects/" ++ rid ++ "/patches".

Definition stateQuery (state : string) : Query := [("state", state); ("perPage", "500")].

(** The class [ClassicNode], imported by the selector from
    [./classicNodeConnection]; in the sources at hand it is the second
    part of [src/types/node.ts]. *)
Definition ClassicNode_fetchAllPatches (n : ClassicNode) (rid : RID)
  : Outcome (list (Result (list Patch))) :=
  awaitAll
    [ fetchPatches (httpd n) (patchesPath rid) (stateQuery "draft");
      fetchPatches (httpd n) (patchesPath rid) (stateQuery "open");
      fetchPatches (httpd n) (patchesPath rid) (stateQuery "archived");
      fetchPatches (httpd n) (patchesPath rid) (stateQuery "merged") ].

Definition ClassicNode_getCurrentProjectId (n : ClassicNode) : Outcome (Result RID) :=
  let memo := memoizedGetCurrentProjectId n in
  if negb (Js.truthy memo)
  then Return (mkResult None (Some "failed to get current project id"))
  else Return (mkResult memo None).

#[export] Instance ClassicNode_connection : RadicleNodeConnection ClassicNode := {
  validate n options := validateHttpdConnection n options;
  getProject n rid := fetchProject (httpd n) ("/projects/" ++ rid) [];
  fetchPatch n rid patchId :=
    fetchOnePatch (httpd n) ("/projects/" ++ rid ++ "/patches/" ++ patchId) [];
  fetchAllPatches := ClassicNode_fetchAllPatches;
  getCurrentProjectId := ClassicNode_getCurrentProjectId;
  getAllProjects n := fetchProjects (httpd n) "/projects" [("show", "all")]
}.

(** What an [NAPINode] talks to: the functions of the native binding
    ([project], [patch], [patches], [projects], [ridAt]), each of which
    answers or throws, and the paths of the workspace folders
    ([vscode.workspace.workspaceFolders], possibly [undefined]). *)
Record NAPINode : Type := mkNAPINode {
  napi_project : string -> Outcome Project;
  napi_patch : RID -> string -> Outcome Patch;
  napi_patches : RID -> Outcome (list Patch);
  napi_projects : Outcome (list Project);
  napi_ridAt : string -> Outcome RID;
  workspaceFolders : option (list string)
}.

(** [{ data: v }] around a call of the binding. *)
Definition dataOf {A : Type} (v : Outcome A) : Outcome (Result A) :=
  match v with
  | Return a => Return (mkResult (Some a) None)
  | Throw e => Throw e
  end.

(** [workspaceFolders![0]!.uri.fsPath]: reading through [undefined]
    throws a [TypeError]. *)
Definition NAPINode_getCurrentProjectId (n : NAPINode) : Outcome (Result RID) :=
  match workspaceFolders n with
  | Some (fsPath :: _) => dataOf (napi_ridAt n fsPath)
  | _ => Throw "TypeError"
  end.

Definition NAPINode_fetchAllPatches (n : NAPINode) (rid : RID)
  : Outcome (list (Result (list Patch))) :=
  match dataOf (napi_patches n rid) with
  | Return r => Return [r]
  | Throw e => Throw e
  end.

(** [src/utils/napiNodeConnection.ts]. *)
#[export] Instance NAPINode_connection : RadicleNodeConnection NAPINode := {
  validate _ _ := Return true;
  getProject n rid := dataOf (napi_project n rid);
  fetchPatch n rid patchId := dataOf (napi_patch n rid patchId);
  fetchAllPatches := NAPINode_fetchAllPatches;
  getCurrentProjectId := NAPINode_getCurrentProjectId;
  getAllProjects n := dataOf (napi_projects n)
}.

(** ** The connection selector ([src/utils/nodeConnection.ts]) *)

Module NodeConnection.

(** [workspace.getConfiguration().get(key)]. *)
Definition Configuration := string -> option string.

Inductive AdapterKind : Type := NAPINodeConnection | ClassicNodeConnection.

(** An adapter object: which class it was constructed from, and the
    how-manieth construction of the process it was. *)
Record Adapter : Type := mkAdapter {
  kind : AdapterKind;
  serial : nat
}.

(** The module-level variable [nodeConnection], and the number of
    adapter objects constructed so far. *)
Record State : Type := mkState {
  nodeConnection : option Adapter;
  constructed : nat
}.

Definition fresh : State := mkState None 0.

Section Helpers.

(** [String.prototype.trim]. *)
Variable trim : string -> string.

(** [assertUnreachable] is declared in [src/utils], which is not part
    of the sources at hand; what a call of it does is a parameter. *)
Variable assertUnreachable : string -> Outcome (option string).

(** [src/helpers/config.ts], lines 22-34. *)
Definition getConfig (config : Configuration) (configKey : string) : Outcome (option string) :=
  if String.eqb configKey "radicle.advanced.pathToRadBinary"
     || String.eqb configKey "radicle.advanced.pathToNodeHome"
  then Return (option_map trim (config configKey))
  else assertUnreachable configKey.

(** Lines 8-18. *)
Definition getNodeConnection (config : Configuration) (m : State)
  : Outcome Adapter * State :=
  match nodeConnection m with
  | Some c => (Return c, m)
  | None =>
      match getConfig config "radicle.advanced.useNodeApi" with
      | Throw e => (Throw e, m)
      | Return flag =>
          let c := mkAdapter
                     (if Js.truthy flag then NAPINodeConnection else ClassicNodeConnection)
                     (constructed m) in
          (Return c, mkState (Some c) (S (constructed m)))
      end
  end.

End Helpers.

(** Every use of [assertUnreachable] in the sources stands where a value
    of another type is due ([string | undefined], [Thenable<void>],
    [ThemeIcon]), so its result type is [never]: a call throws. *)
Definition assertUnreachable_never (configKey : string) : Outcome (option string) :=
  Throw "Unreachable".

End NodeConnection.

(** ** The patch store ([src/stores/patchStore.ts]) *)

Module PatchStore.

(** References to patch objects. *)
Abbreviation loc := nat.

(** The closure state of [usePatchStore]: the object store, the refs
    [patches], [prevCheckedOutPatch] and [lastFetchedTs], and the
    variable [inProgressRequest], which holds a promise, named by its
    position in the log of batch requests. *)
Record Store : Type := mkStore {
  heap : list AugmentedPatch;
  patches : option (list loc);
  prevCheckedOutPatch : option loc;
  lastFetchedTs : option Q;
  inProgressRequest : option nat
}.

(** Before the first use: nothing allocated, every ref [undefined]. *)
Definition empty : Store := mkStore [] None None None None.

Definition patch_at (s : Store) (l : loc) : option AugmentedPatch := heap s !! l.

(** The cache as its observers read it: the patches in order. *)
Definition contents (s : Store) : option (list AugmentedPatch) :=
  match patches s with
  | None => None
  | Some ps => Some (omap (patch_at s) ps)
  end.

(** [patch.id.includes(partialOrWholeId)] at a reference. *)
Definition id_includes (h : list AugmentedPatch) (partialOrWholeId : string) (l : loc) : bool :=
  match h !! l with
  | Some p => Js.includes (patch_id (aug_patch p)) partialOrWholeId
  | None => false
  end.

(** Lines 72-76. *)
Definition findPatchById (s : Store) (partialOrWholeId : string) : option loc :=
  match patches s with
  | None => None
  | Some ps => Js.find (id_includes (heap s) partialOrWholeId) ps
  end.

(** Lines 41-43. *)
Definition resetAllPatches (s : Store) : Store :=
  mkStore (heap s) None (prevCheckedOutPatch s) (lastFetchedTs s) (inProgressRequest s).

(** *** [checkedOutPatch], lines 21-34 *)

Definition isHex (c : ascii) : bool :=
  let n := nat_of_ascii c in
  (Nat.leb 48 n && Nat.leb n 57) || (Nat.leb 65 n && Nat.leb n 70)
  || (Nat.leb 97 n && Nat.leb n 102).

(** The capture group of the pattern, any number of [0-9A-Fa-f]: the
    longest run of hexadecimal digits at the start. *)
Fixpoint hexRun (s : string) : string :=
  match s with
  | EmptyString => EmptyString
  | String c s' => if isHex c then String c (hexRun s') else EmptyString
  end.

(** [branch.match(matchHexCharsAfterPatchRegex)?.[1]]: the pattern is
    [patch/] followed by the capture group, which may be empty, so the
    leftmost occurrence of [patch/] is the match. *)
Fixpoint matchHexCharsAfterPatch (branch : string) : option string :=
  match Js.dropPrefix "patch/" branch with
  | Some rest => Some (hexRun rest)
  | None =>
      match branch with
      | EmptyString => None
      | String _ branch' => matchHexCharsAfterPatch branch'
      end
  end.

(** The getter of the computed ref; [_prevCheckedOutPatch] is the value
    it computed last, [currentBranch] what [useGitStore()] reports. *)
Definition checkedOutPatch (_prevCheckedOutPatch : option loc) (currentBranch : option string)
    (s : Store) : option loc * Store :=
  let s' := mkStore (heap s) (patches s) _prevCheckedOutPatch (lastFetchedTs s)
                    (inProgressRequest s) in
  let checkedOutPatchPartialId :=
    match currentBranch with
    | Some branch => matchHexCharsAfterPatch branch
    | None => None
    end in
  let newCheckedOutPatch :=
    match checkedOutPatchPartialId with
    | Some partialId =>
        if Js.truthy checkedOutPatchPartialId then findPatchById s' partialId else None
    | None => None
    end in
  (newCheckedOutPatch, s').

(** *** [refetchPatch], lines 45-70 *)

(** Lines 57-67: [Object.assign] writes the fetched patch into the
    object found, so whoever holds that object sees the new fields; with
    no object found a new one is pushed. *)
Definition merge (nowTs : Q) (fetchedPatch : Patch) (s : Store) : Store :=
  let outdatedPatch := findPatchById s (patch_id fetchedPatch) in
  let augmentedFetchedPatch := augment nowTs fetchedPatch in
  match outdatedPatch with
  | Some l =>
      mkStore (<[l := augmentedFetchedPatch]> (heap s)) (patches s)
              (prevCheckedOutPatch s) (lastFetchedTs s) (inProgressRequest s)
  | None =>
      mkStore (heap s ++ [augmentedFetchedPatch])
              (Some (default [] (patches s) ++ [length (heap s)]))
              (prevCheckedOutPatch s) (lastFetchedTs s) (inProgressRequest s)
  end.

(** The store is read and written only after the second [await], so the
    call is one step on the store as it is when [fetchPatch] answers.
    Reading [fetchedPatch.id] of an answer without [data] throws. *)
Definition refetchPatch {N : Type} `{RadicleNodeConnection N} (conn : N)
    (now_ms : Z) (patchId : string) (s : Store) : Outcome (Result unit) * Store :=
  match getCurrentProjectId conn with
  | Throw e => (Throw e, s)
  | Return ridResult =>
      match data ridResult with
      | Some rid =>
          if negb (Js.truthy (Some rid))
          then (Return (mkResult None (Some "Failed resolving RID")), s)
          else
            let nowTs := seconds now_ms in
            match fetchPatch conn rid patchId with
            | Throw e => (Throw e, s)
            | Return patchResult =>
                match error patchResult with
                | Some e => (Return (mkResult None (Some e)), s)
                | None =>
                    match data patchResult with
                    | None => (Throw "TypeError", s)
                    | Some fetchedPatch =>
                        (Return (mkResult None None), merge nowTs fetchedPatch s)
                    end
                end
            end
      | None => (Return (mkResult None (Some "Failed resolving RID")), s)
      end
  end.

(** *** [fetchAllPatches], lines 78-112 *)

Definition Responses := list (Result (list Patch)).

(** Lines 99-111, run when [await promisedResponses] delivers. *)
Definition receive (nowTs : Q) (responses : Responses) (s : Store) : bool * Store :=
  let errors := Js.filterBoolean (map error responses) in
  if negb (length errors =? 0)%nat then (false, s)
  else
    let fetchedPatches :=
      map (augment nowTs) (Js.filterBoolean (Js.flatMap data responses)) in
    (true,
     mkStore (heap s ++ fetchedPatches)
             (Some (seq (length (heap s)) (length fetchedPatches)))
             (prevCheckedOutPatch s) (lastFetchedTs s) (inProgressRequest s)).

(** One call of [fetchAllPatches]: suspended at line 82, suspended at
    line 98 (it remembers its [nowTs]), or finished. *)
Inductive Call : Type :=
| AwaitInProgress (p : nat)
| AwaitResponses (p : nat) (nowTs : Q)
| Finished (o : Outcome bool).

(** A batch request the backend adapter received, and how its promise
    settled, if it has. *)
Record Request : Type := mkRequest {
  req_rid : RID;
  req_settled : option (Outcome Responses)
}.

(** The store, the batch requests received by the adapter in order, and
    the calls of [fetchAllPatches] in order of invocation. *)
Record World : Type := mkWorld {
  store : Store;
  requests : list Request;
  calls : list Call
}.

Definition start (s : Store) : World := mkWorld s [] [].

(** What [await p] delivers once [p] has settled with [r], for a call
    suspended on [p]. *)
Definition resume (p : nat) (r : Outcome Responses) (c : Call) (s : Store) : Call * Store :=
  match c with
  | AwaitInProgress q =>
      if (q =? p)%nat
      then (Finished match r with Return _ => Return true | Throw e => Throw e end, s)
      else (c, s)
  | AwaitResponses q nowTs =>
      if (q =? p)%nat
      then match r with
           | Return responses =>
               let '(ok, s') := receive nowTs responses s in (Finished (Return ok), s')
           | Throw e => (Finished (Throw e), s)
           end
      else (c, s)
  | Finished _ => (c, s)
  end.

(** The suspended calls resume in the order in which they awaited. *)
Fixpoint resumeAll (p : nat) (r : Outcome Responses) (cs : list Call) (s : Store)
  : list Call * Store :=
  match cs with
  | [] => ([], s)
  | c :: cs' =>
      let '(c', s') := resume p r c s in
      let '(cs'', s'') := resumeAll p r cs' s' in
      (c' :: cs'', s'')
  end.

(** A call of [fetchAllPatches()] up to its first [await] or [return].
    [now_ms] is the clock, [memo] what [memoizedGetCurrentProjectId()]
    answers and [conn] what [getNodeConnection()] does. *)
Definition invoke (now_ms : Z) (memo : option RID) (conn : Outcome NodeConnection.Adapter)
    (w : World) : World :=
  let s := store w in
  match inProgressRequest s with
  | Some p =>
      match requests w !! p with
      | Some (mkRequest _ (Some r)) =>
          mkWorld s (requests w) (calls w ++ [fst (resume p r (AwaitInProgress p) s)])
      | _ => mkWorld s (requests w) (calls w ++ [AwaitInProgress p])
      end
  | None =>
      match memo with
      | Some rid =>
          if negb (Js.truthy memo)
          then mkWorld s (requests w) (calls w ++ [Finished (Return false)])
          else
            let nowTs := seconds now_ms in
            let s1 := mkStore (heap s) (patches s) (prevCheckedOutPatch s) (Some nowTs)
                              (inProgressRequest s) in
            match conn with
            | Throw e => mkWorld s1 (requests w) (calls w ++ [Finished (Throw e)])
            | Return _ =>
                let p := length (requests w) in
                mkWorld (mkStore (heap s) (patches s) (prevCheckedOutPatch s) (Some nowTs)
                                 (Some p))
                        (requests w ++ [mkRequest rid None])
                        (calls w ++ [AwaitResponses p nowTs])
            end
      | None => mkWorld s (requests w) (calls w ++ [Finished (Return false)])
      end
  end.

(** The promise of batch request [p] settles with [r]: the [finally]
    callback clears [inProgressRequest], then the awaiting calls resume.
    A promise settles once; other settlements are no events. *)
Definition settle (p : nat) (r : Outcome Responses) (w : World) : World :=
  match requests w !! p with
  | Some (mkRequest rid None) =>
      let s := store w in
      let s0 := mkStore (heap s) (patches s) (prevCheckedOutPatch s) (lastFetchedTs s) None in
      let '(cs, s1) := resumeAll p r (calls w) s0 in
      mkWorld s1 (<[p := mkRequest rid (Some r)]> (requests w)) cs
  | _ => w
  end.

Inductive Event : Type :=
| Invoke (now_ms : Z) (memo : option RID) (conn : Outcome NodeConnection.Adapter)
| Settle (p : nat) (r : Outcome Responses).

Definition step (w : World) (e : Event) : World :=
  match e with
  | Invoke now_ms memo conn => invoke now_ms memo conn w
  | Settle p r => settle p r w
  end.

Definition run (w : World) (es : list Event) : World := fold_left step es w.

End PatchStore.

(** ** Edge revisions and changed files ([src/ux/patches.ts]) *)

Module Patches.

(** Lines 439-453.  The two results are [undefined] exactly when the
    patch has no revision. *)
Definition getFirstAndLatestRevisions (patch : Patch) : option Revision * option Revision :=
  let revisionsSortedOldestFirst :=
    Js.sort (fun p1 p2 => (rev_timestamp p1 - rev_timestamp p2)%Z) (patch_revisions patch) in
  (Js.at_first revisionsSortedOldestFirst, Js.at_last revisionsSortedOldestFirst).

(** Modelled from the spec: the type of the diff response is declared in
    [src/types/httpd.ts], which is not part of the sources at hand.  Of a
    change the list below uses its path only: [path] for the kinds with
    a source file, [newPath] for [copied] and [moved]. *)
Record Filechange : Type := mkFilechange {
  path : string
}.

Record Pathchange : Type := mkPathchange {
  oldPath : string;
  newPath : string
}.

Record Diff : Type := mkDiff {
  added : list Filechange;
  deleted : list Filechange;
  modified : list Filechange;
  copied : list Pathchange;
  moved : list Pathchange
}.

(** A node of the list of changed files, with the closure variable
    [shouldShowPathInDescription] its two functions share. *)
Record FilechangeNode : Type := mkFilechangeNode {
  resolvedPath : string;
  filename : string;
  shouldShowPathInDescription : bool
}.

Definition newNode (resolvedPath : string) : FilechangeNode :=
  mkFilechangeNode resolvedPath (Path.basename resolvedPath) false.

Definition enableShowingPathInDescription (n : FilechangeNode) : FilechangeNode :=
  mkFilechangeNode (resolvedPath n) (filename n) true.

(** The [description] of the tree item [getTreeItem] builds:
    [shouldShowPathInDescription ? Path.dirname(path) : undefined]. *)
Definition description (n : FilechangeNode) : option string :=
  if shouldShowPathInDescription n then Some (Path.dirname (resolvedPath n)) else None.

(** Lines 181-334: a node per change, kind by kind. *)
Definition changeNodes (diff : Diff) : list FilechangeNode :=
  flat_map (fun filechangeKind => map (fun filechange => newNode (path filechange))
                                      (filechangeKind diff))
           [added; deleted; modified]
  ++ flat_map (fun filechangeKind => map (fun filechange => newNode (newPath filechange))
                                         (filechangeKind diff))
              [copied; moved].

(** Lines 335-346.  The nodes are distinct objects, so
    [nodes.filter((node) => node !== filechangeNode)] drops exactly the
    position of [filechangeNode]. *)
Definition markSameFilename (nodes : list FilechangeNode) : list FilechangeNode :=
  imap (fun i filechangeNode =>
          let nodesExcludingFileChangeNode := delete i nodes in
          let hasSameFilenameWithAnotherFile :=
            bool_decide (is_Some (Js.find
              (fun node => String.eqb (filename node) (filename filechangeNode))
              nodesExcludingFileChangeNode)) in
          if hasSameFilenameWithAnotherFile
          then enableShowingPathInDescription filechangeNode
          else filechangeNode)
       nodes.

(** The paths the changes of a diff resolve to, kind by kind. *)
Definition paths (diff : Diff) : list string :=
  map path (added diff) ++ map path (deleted diff) ++ map path (modified diff)
  ++ map newPath (copied diff) ++ map newPath (moved diff).

(** Another node than the one at position [i] has the file name [name]. *)
Definition sharedFilename (nodes : list FilechangeNode) (i : nat) (name : string) : Prop :=
  exists j m, j <> i /\ nodes !! j = Some m /\ filename m = name.

Section Collation.

(** [String.prototype.localeCompare], which depends on the locale of the
    host. *)
Variable localeCompare : string -> string -> Z.

(** Lines 181-349: what [getChildren] answers for a patch whose diff
    was fetched. *)
Definition filechangeNodes (diff : Diff) : list FilechangeNode :=
  Js.sort (fun n1 n2 => localeCompare (resolvedPath n1) (resolvedPath n2))
          (markSameFilename (changeNodes diff)).

End Collation.

(** Comparison by character codes, one possible collation. *)
Definition compareCodes (a b : string) : Z :=
  match String.compare a b with
  | Lt => (-1)%Z
  | Eq => 0%Z
  | Gt => 1%Z
  end.

End Patches.

(** ** A collation of the host *)

Module Collation.

(** A letter of ASCII in lower case, any other character as it is. *)
Definition lower (c : ascii) : ascii :=
  let code := nat_of_ascii c in
  if Nat.leb 65 code && Nat.leb code 90 then ascii_of_nat (code + 32) else c.

Fixpoint fold (s : string) : string :=
  match s with
  | EmptyString => EmptyString
  | String c s' => String (lower c) (fold s')
  end.

(** [String.prototype.localeCompare] belongs to the host and follows
    its locale data, which is why [filechangeNodes] takes it as a
    parameter.  With the ICU data that node and VS Code come with,
    letters are compared alphabetically whatever their case, and case
    is looked at only between strings that are otherwise the same,
    lower case first.  The definition says this of the letters of
    ASCII and leaves the other characters in the order of their codes;
    it stands for the host where two names differ in a letter. *)
Definition localeCompare (a b : string) : Z :=
  let byLetters := Patches.compareCodes (fold a) (fold b) in
  if (byLetters =? 0)%Z then Patches.compareCodes b a else byLetters.

End Collation.

(** ** Statements about the event loop of the store *)

Module Loop.

Import PatchStore.

Definition finished (c : Call) : Prop :=
  match c with
  | Finished _ => True
  | _ => False
  end.

(** A call that is suspended is suspended on promise [p]. *)
Definition awaiting (p : nat) (c : Call) : Prop :=
  match c with
  | Finished _ => True
  | AwaitInProgress q | AwaitResponses q _ => q = p
  end.

Definition settled (r : Request) : Prop := req_settled r <> None.

(** What holds of the store between any two events: with no request in
    flight nothing is pending and nobody waits; with one in flight it is
    the last request received, the only pending one, and the one every
    suspended call awaits. *)
Definition consistent (w : World) : Prop :=
  match inProgressRequest (store w) with
  | None => Forall finished (calls w) /\ Forall settled (requests w)
  | Some p =>
      S p = length (requests w) /\
      (exists rid, requests w !! p = Some (mkRequest rid None)) /\
      Forall settled (take p (requests w)) /\
      Forall (awaiting p) (calls w)
  end.

(** The batch requests whose promise has not settled. *)
Definition inFlight (w : World) : list Request :=
  filter (fun r => req_settled r = None) (requests w).

(** Every per-status result of a batch succeeded. *)
Definition allSucceeded (responses : Responses) : bool :=
  forallb (fun r => negb (bool_decide (is_Some (error r)))) responses.

(** The patches of a batch, status by status. *)
Definition fetched (responses : Responses) : list Patch :=
  concat (map (fun r => default [] (data r)) responses).

(** What the call that issued the batch resolves to, and what a call
    coalesced onto it resolves to, when the batch settles with [r]. *)
Definition issuerOutcome (r : Outcome Responses) : Outcome bool :=
  match r with
  | Return responses => Return (allSucceeded responses)
  | Throw e => Throw e
  end.

Definition coalescedOutcome (r : Outcome Responses) : Outcome bool :=
  match r with
  | Return _ => Return true
  | Throw e => Throw e
  end.

(** The store once the batch issued at [now_ms] has settled with [r]. *)
Definition afterRound (now_ms : Z) (r : Outcome Responses) (s : Store) : Store :=
  let s0 := mkStore (heap s) (patches s) (prevCheckedOutPatch s) (Some (seconds now_ms)) None in
  match r with
  | Return responses => snd (receive (seconds now_ms) responses s0)
  | Throw _ => s0
  end.

(** A later call of [fetchAllPatches], with its readings of the clock,
    of the project id and of the selector. *)
Definition invocation (c : Z * option RID * Outcome NodeConnection.Adapter) : Event :=
  let '(now_ms, memo, conn) := c in Invoke now_ms memo conn.

End Loop.

(** ** Statements about the cache *)

Module Cache.

Import PatchStore.

(** The ids of the cached patches, in order. *)
Definition ids (s : Store) : list string :=
  map (fun p => patch_id (aug_patch p)) (default [] (contents s)).

(** Every reference of the collection names an object. *)
Definition allocated (s : Store) : Prop :=
  Forall (fun l => l < length (heap s))%nat (default [] (patches s)).

(** No cached id contains [id] without being [id], as is the case when
    all ids have one length. *)
Definition matchedExactly (id : string) (s : Store) : Prop :=
  Forall (fun cached => Js.includes cached id = true -> cached = id) (ids s).

(** The adapter answers the two requests of [refetchPatch] with a
    project id and with the patch [fetchedPatch]. *)
Definition delivers {N : Type} `{RadicleNodeConnection N} (conn : N) (patchId : string)
    (fetchedPatch : Patch) : Prop :=
  exists ridResult rid patchResult,
    getCurrentProjectId conn = Return ridResult /\ data ridResult = Some rid /\
    rid <> "" /\ fetchPatch conn rid patchId = Return patchResult /\
    error patchResult = None /\ data patchResult = Some fetchedPatch.

End Cache.

(** ** Statements about results *)

(** What an operation delivers, when it delivers a [Result], has
    exactly one of [data] and [error]. *)
Definition returns_xor {D : Type} (o : Outcome (Result D)) : Prop :=
  forall r, o = Return r -> xor_Result r = true.

Definition connection_xor {N : Type} `{RadicleNodeConnection N} (n : N) : Prop :=
  returns_xor (getAllProjects n) /\
  (forall id, returns_xor (getProject n id)) /\
  returns_xor (getCurrentProjectId n) /\
  (forall rid rs, fetchAllPatches n rid = Return rs ->
                  Forall (fun r => xor_Result r = true) rs) /\
  (forall rid patchId, returns_xor (fetchPatch n rid patchId)).

Definition httpd_xor (h : Httpd) : Prop :=
  (forall p q, returns_xor (fetchProject h p q)) /\
  (forall p q, returns_xor (fetchProjects h p q)) /\
  (forall p q, returns_xor (fetchOnePatch h p q)) /\
  (forall p q, returns_xor (fetchPatches h p q)).

(** ** Sample data *)

Module Sample.

Definition alice : Author := mkAuthor "alice" "did:key:z6MkAlice".

Definition revision (timestamp : Z) : Revision :=
  mkRevision "rev" alice "" "b0b0b0b0" "c1c1c1c1" timestamp.

Definition patch (id : string) : Patch :=
  mkPatch id "Fix typo" alice [] open [revision 100].

(** A patch whose revisions carry the given timestamps, in storage order. *)
Definition revised (timestamps : list Z) : Patch :=
  mkPatch "ab12cd34ff" "Fix typo" alice [] open (map revision timestamps).

Definition rid : RID := "rad:z3gqcJUoA1n9HaHKufZs5FCSGazv5".

(** A store caching the patches with the given ids, fetched at time 0. *)
Definition cache (ids : list string) : PatchStore.Store :=
  PatchStore.mkStore (map (fun id => augment (seconds 0) (patch id)) ids)
                     (Some (seq 0 (length ids))) None None None.

(** A native binding that knows one patch, whatever the id asked for. *)
Definition napi (p : Patch) : NAPINode :=
  mkNAPINode (fun rid => Return (mkProject rid))
             (fun _ _ => Return p)
             (fun _ => Return [p])
             (Return [mkProject rid])
             (fun _ => Return rid)
             (Some ["/home/alice/project"]).

(** An HTTP daemon that answers every request with an error. *)
Definition httpdDown : Httpd :=
  mkHttpd (fun _ _ => Return (mkResult None (Some "ECONNREFUSED")))
          (fun _ _ => Return (mkResult None (Some "ECONNREFUSED")))
          (fun _ _ => Return (mkResult None (Some "ECONNREFUSED")))
          (fun _ _ => Return (mkResult None (Some "ECONNREFUSED"))).

(** An HTTP daemon that knows one open patch. *)
Definition httpdWith (p : Patch) : Httpd :=
  mkHttpd (fun _ _ => Return (mkResult (Some (mkProject rid)) None))
          (fun _ _ => Return (mkResult (Some [mkProject rid]) None))
          (fun _ _ => Return (mkResult (Some p) None))
          (fun _ q => Return (mkResult
                                (Some (if bool_decide (q = stateQuery "open") then [p] else []))
                                None)).

Definition classic (h : Httpd) : ClassicNode :=
  mkClassicNode h (fun _ => Return true) (Some rid).

(** A diff that modified the files at the given paths. *)
Definition modifying (paths : list string) : Patches.Diff :=
  Patches.mkDiff [] [] (map Patches.mkFilechange paths) [] [].

Definition adapter : NodeConnection.Adapter :=
  NodeConnection.mkAdapter NodeConnection.ClassicNodeConnection 0.

(** Per-status results: one that carries patches, one that failed. *)
Definition succeeded (ps : list Patch) : Result (list Patch) := mkResult (Some ps) None.

Definition failed : Result (list Patch) := mkResult None (Some "Internal Server Error").

End Sample.

(** ** The other operations of the store, interleaved *)

Module StoreOps.

Import PatchStore.

(** What [initStoreIfNeeded] resolves to: [false] of its own, or
    whatever the call of [fetchAllPatches] it made resolves to, the call
    being named by its position among the calls. *)
Inductive InitResult : Type :=
| NotNeeded
| Fetching (call : nat).

(** Lines 114-116: [!patches.value && (await fetchAllPatches())].  An
    array, empty or not, is truthy, so [fetchAllPatches] is called only
    while the collection is [undefined]. *)
Definition initStoreIfNeeded (now_ms : Z) (memo : option RID)
    (conn : Outcome NodeConnection.Adapter) (w : World) : InitResult * World :=
  match patches (store w) with
  | Some _ => (NotNeeded, w)
  | None => (Fetching (length (calls w)), invoke now_ms memo conn w)
  end.

(** The steps of the event loop that touch the store: the two of
    [fetchAllPatches], and [initStoreIfNeeded], [refetchPatch] (one step,
    taken when [fetchPatch] answers) and [resetAllPatches]. *)
Inductive Op : Type :=
| OpInvoke (now_ms : Z) (memo : option RID) (conn : Outcome NodeConnection.Adapter)
| OpSettle (p : nat) (r : Outcome Responses)
| OpInit (now_ms : Z) (memo : option RID) (conn : Outcome NodeConnection.Adapter)
| OpRefetch (N : Type) (C : RadicleNodeConnection N) (conn : N) (now_ms : Z) (patchId : string)
| OpReset.

Definition withStore (s : Store) (w : World) : World := mkWorld s (requests w) (calls w).

Definition applyOp (w : World) (op : Op) : World :=
  match op with
  | OpInvoke now_ms memo conn => invoke now_ms memo conn w
  | OpSettle p r => settle p r w
  | OpInit now_ms memo conn => snd (initStoreIfNeeded now_ms memo conn w)
  | OpRefetch N C conn now_ms patchId =>
      withStore (snd (refetchPatch conn now_ms patchId (store w))) w
  | OpReset => withStore (resetAllPatches (store w)) w
  end.

Definition runOps (w : World) (ops : list Op) : World := fold_left applyOp ops w.

Definition isSettle (op : Op) : Prop :=
  match op with
  | OpSettle _ _ => True
  | _ => False
  end.


End StoreOps.

(** ** The selector, call after call *)

Module Selector.

Import NodeConnection.

(** Calls of [getNodeConnection()] one after the other, each under the
    configuration of its moment: what each call did, and the state of
    the module in the end. *)
Fixpoint getNodeConnections (trim : string -> string)
    (assertUnreachable : string -> Outcome (option string))
    (configs : list Configuration) (m : State) : list (Outcome Adapter) * State :=
  match configs with
  | [] => ([], m)
  | config :: configs' =>
      let '(o, m1) := getNodeConnection trim assertUnreachable config m in
      let '(os, m2) := getNodeConnections trim assertUnreachable configs' m1 in
      (o :: os, m2)
  end.

End Selector.

(** ** The root of the patches view ([src/ux/patches.ts]) *)

Module PatchList.

Import Patches.

(** What [getChildren] answers with: lines of text and patches. *)
Inductive Elem : Type :=
| Text (description : string)
| Item (patch : Patch).

(** [xs.sort(cmp)] for a comparator that may throw: the first throw
    ends the sort.  As in [Js.sort], an array of fewer than two elements
    is sorted without a call of the comparator.  Which pairs are
    compared is the choice of the engine; in an array of two or more
    every element takes part in a comparison, so for a comparator that
    throws on a pair exactly when one of the two is at fault, whether
    the sort throws does not depend on that choice. *)
Fixpoint insert_by {A : Type} (cmp : A -> A -> Outcome Z) (x : A) (xs : list A)
  : Outcome (list A) :=
  match xs with
  | [] => Return [x]
  | y :: ys =>
      match cmp x y with
      | Throw e => Throw e
      | Return c =>
          if (c <=? 0)%Z then Return (x :: y :: ys)
          else match insert_by cmp x ys with
               | Return zs => Return (y :: zs)
               | Throw e => Throw e
               end
      end
  end.

Fixpoint sort {A : Type} (cmp : A -> A -> Outcome Z) (xs : list A) : Outcome (list A) :=
  match xs with
  | [] => Return []
  | x :: xs' =>
      match sort cmp xs' with
      | Return sorted => insert_by cmp x sorted
      | Throw e => Throw e
      end
  end.

#[export] Instance PatchStatus_eq_dec : EqDecision PatchStatus.
Proof. solve_decision. Defined.

(** Lines 429-434, the comparator: reading [timestamp] off an
    [undefined] latest revision throws a [TypeError]. *)
Definition byLatestRevisionFirst (p1 p2 : Patch) : Outcome Z :=
  let latestP1Revision := snd (getFirstAndLatestRevisions p1) in
  let latestP2Revision := snd (getFirstAndLatestRevisions p2) in
  match latestP2Revision, latestP1Revision with
  | Some latestP2, Some latestP1 => Return (rev_timestamp latestP2 - rev_timestamp latestP1)%Z
  | _, _ => Throw "TypeError"
  end.

(** Lines 423-437. *)
Definition getPatchesOfStatusSortedByLatestRevisionFirst (patches : list Patch)
    (patchStatus : PatchStatus) : Outcome (list Patch) :=
  sort byLatestRevisionFirst (filter (fun patch => patch_status patch = patchStatus) patches).

(** Lines 113-126: the four requests of the root, without [perPage]. *)
Definition rootRequests (h : Httpd) : Outcome (list (Result (list Patch))) :=
  let rid := "rad:z3gqcJUoA1n9HaHKufZs5FCSGazv5" in
  awaitAll
    [ fetchPatches h (patchesPath rid) [("state", "draft")];
      fetchPatches h (patchesPath rid) [("state", "open")];
      fetchPatches h (patchesPath rid) [("state", "archived")];
      fetchPatches h (patchesPath rid) [("state", "merged")] ].

(** Lines 127-144: from the responses to the children of the root. *)
Definition listing (responses : list (Result (list Patch))) : Outcome (list Elem) :=
  let errorOccured :=
    bool_decide (is_Some (Js.find (fun response => bool_decide (is_Some (error response)))
                                  responses)) in
  let patches := Js.filterBoolean (Js.flatMap data responses) in
  if errorOccured
  then Return (Text "Not all patches may be listed due to an error!" :: map Item patches)
  else if (length patches =? 0)%nat
  then Return [Text "0 Radicle Patches found"]
  else
    match getPatchesOfStatusSortedByLatestRevisionFirst patches draft with
    | Throw e => Throw e
    | Return drafts =>
    match getPatchesOfStatusSortedByLatestRevisionFirst patches open with
    | Throw e => Throw e
    | Return opens =>
    match getPatchesOfStatusSortedByLatestRevisionFirst patches archived with
    | Throw e => Throw e
    | Return archiveds =>
    match getPatchesOfStatusSortedByLatestRevisionFirst patches merged with
    | Throw e => Throw e
    | Return mergeds => Return (map Item (drafts ++ opens ++ archiveds ++ mergeds))
    end end end end.

(** Lines 95-145: [getChildren(undefined)]. *)
Definition getChildren_root (h : Httpd) : Outcome (list Elem) :=
  match rootRequests h with
  | Return responses => listing responses
  | Throw e => Throw e
  end.

(** The order of the statuses in the view. *)
Definition rank (status : PatchStatus) : nat :=
  match status with
  | draft => 0
  | open => 1
  | archived => 2
  | merged => 3
  end.

(** The timestamp of the latest revision of a patch that has one. *)
Definition latestTimestamp (patch : Patch) : option Z :=
  option_map rev_timestamp (snd (getFirstAndLatestRevisions patch)).

(** [p] is listed above [q]: its status comes first, or the statuses
    are the same and its latest revision is not the older one. *)
Definition listedAbove (p q : Patch) : Prop :=
  (rank (patch_status p) < rank (patch_status q))%nat \/
  (patch_status p = patch_status q /\
   forall tp tq, latestTimestamp p = Some tp -> latestTimestamp q = Some tq -> (tq <= tp)%Z).

(** The patch has at least one revision. *)
Definition hasRevision (patch : Patch) : Prop := patch_revisions patch <> [].

(** The patches of one status, as line 428 selects them. *)
Definition ofStatus (status : PatchStatus) (patches : list Patch) : list Patch :=
  filter (fun patch => patch_status patch = status) patches.

(** Lines 385-388 of the tooltip: the labels of a patch in one line. *)
Definition labelsLine (labels : list string) : string :=
  fold_left (fun joinedLabels label : string =>
               (joinedLabels ++ (if Js.truthy (Some joinedLabels) then " " else "")
                ++ "`" ++ label ++ "`")%string)
            labels "".

End PatchList.

(** ** The home of the node ([src/helpers/config.ts]) *)

Module Config.

Import NodeConnection.

(** The character that delimits a string. *)
Definition quote : string := String (ascii_of_nat 34) EmptyString.

(** A template literal prints an [undefined] value by its name. *)
Definition interpolate (value : option string) : string := default "undefined" value.

(** Lines 110-115.  [exec] is declared in [src/utils], which is not
    part of the sources at hand; [homeDir] is what awaiting
    [exec('echo $HOME')] delivers, a string or [undefined]. *)
Definition getDefaultPathToNodeHome (homeDir : option string) : option string :=
  if Js.truthy homeDir then Some (interpolate homeDir ++ "/.radicle")%string else None.

Section Paths.

Variable trim : string -> string.

Variable assertUnreachable : string -> Outcome (option string).

(** Lines 125-130.  The default path is resolved, and [exec] called,
    only when the configured one is falsy. *)
Definition getResolvedPathToNodeHome (config : Configuration) (homeDir : option string)
  : Outcome (option string) :=
  match getConfig trim assertUnreachable config "radicle.advanced.pathToNodeHome" with
  | Throw e => Throw e
  | Return configured =>
      Return (if Js.truthy configured then configured else getDefaultPathToNodeHome homeDir)
  end.

(** Lines 140-150.  [homeDir] is what the call of [exec] inside
    [getResolvedPathToNodeHome] delivers, if it is made, and [homeDir']
    what the one of line 143 delivers. *)
Definition composeNodePathMsg (config : Configuration) (homeDir homeDir' : option string)
  : Outcome string :=
  match getResolvedPathToNodeHome config homeDir with
  | Throw e => Throw e
  | Return resolvedPathToNodeHome =>
      let isResolvedPathToNodeHomeTheDefaultOne :=
        bool_decide (resolvedPathToNodeHome = getDefaultPathToNodeHome homeDir') in
      Return (if isResolvedPathToNodeHomeTheDefaultOne
              then ""
              else (" stored in " ++ quote ++ interpolate resolvedPathToNodeHome ++ quote)%string)
  end.

End Paths.

End Config.

(** ** The files a diff is shown from ([src/ux/patches.ts]) *)

Module TempFiles.

(** [sep] of [node:path], POSIX flavour. *)
Definition sep : string := "/".

Section Locations.

(** [tmpdir()] of [node:os]. *)
Variable tmpdir : string.

(** [shortenHash] is declared in [src/utils], which is not part of the
    sources at hand. *)
Variable shortenHash : string -> string.

(** Line 159. *)
Definition tempFileLocationPrefix : string := (tmpdir ++ sep ++ "radicle")%string.

(** Lines 186-187 and 199-204: where the version of the changed file
    at [path] as of the commit [hash] is written to, [hash] being the
    base of the latest revision for the old version and its oid for the
    new one. *)
Definition versionFileLocation (hash path : string) : string :=
  let fileLocation := Path.dirname path in
  let filename := Path.basename path in
  (tempFileLocationPrefix ++ sep ++ shortenHash hash ++ sep ++ fileLocation ++ sep
   ++ filename)%string.

End Locations.

(** No character of [name] is a separator. *)
Definition plain (name : string) : bool :=
  forallb (fun c => negb (Path.isSep c)) (Path.chars name).

End TempFiles.

(** ** Sample data of the view *)

Module SampleView.

Definition patchOf (id : string) (status : PatchStatus) (timestamps : list Z) : Patch :=
  mkPatch id "Fix typo" Sample.alice ["bug"] status (map Sample.revision timestamps).

(** An HTTP daemon that knows the given draft and open patches. *)
Definition httpdListing (drafts opens : list Patch) : Httpd :=
  mkHttpd (fun _ _ => Return (mkResult (Some (mkProject Sample.rid)) None))
          (fun _ _ => Return (mkResult (Some [mkProject Sample.rid]) None))
          (fun _ _ => Return (mkResult None (Some "Not Found")))
          (fun _ q => Return (mkResult
                                (Some (if bool_decide (q = [("state", "draft")]) then drafts
                                       else if bool_decide (q = [("state", "open")]) then opens
                                       else []))
                                None)).

Definition listed : list Patch :=
  [ patchOf "d1" draft [100%Z];
    patchOf "o2" open [100%Z; 300%Z];
    patchOf "o1" open [200%Z] ].

(** The daemon delivers the open patches in another order than the
    view lists them in. *)
Definition httpdOfListed : Httpd :=
  httpdListing [patchOf "d1" draft [100%Z]]
               [patchOf "o1" open [200%Z]; patchOf "o2" open [100%Z; 300%Z]].

(** A daemon one of whose two open patches has no revision. *)
Definition httpdWithoutRevision : Httpd :=
  httpdListing [] [patchOf "o1" open [200%Z]; patchOf "o3" open []].

Definition configuredHome (home : string) : NodeConnection.Configuration :=
  fun configKey =>
    if String.eqb configKey "radicle.advanced.pathToNodeHome" then Some home else None.

End SampleView.

(** * Properties *)

(** ** Strings and arrays *)

Lemma includes_empty (s : string) : Js.includes s "" = true.
Proof. destruct s; reflexivity. Qed.

Lemma prefix_refl (s : string) : String.prefix s s = true.
Proof.
  induction s as [|a s IH]; simpl; [reflexivity|].
  destruct (ascii_dec a a); [exact IH | congruence].
Qed.

Lemma prefix_includes (s sub : string) : String.prefix sub s = true -> Js.includes s sub = true.
Proof. intros H. destruct s; simpl in *; rewrite H; reflexivity. Qed.

Lemma includes_refl (s : string) : Js.includes s s = true.
Proof. apply prefix_includes, prefix_refl. Qed.

Lemma dropPrefix_None (p s : string) :
  String.prefix p s = false -> Js.dropPrefix p s = None.
Proof.
  revert s. induction p as [|a p IH]; intros s H.
  - destruct s; discriminate.
  - destruct s as [|b s]; simpl in *; [reflexivity|].
    destruct (ascii_dec a b) as [->|Hne].
    + rewrite Ascii.eqb_refl. auto.
    + destruct (Ascii.eqb_spec a b); [contradiction | reflexivity].
Qed.

Lemma find_first {A : Type} (f : A -> bool) (before after : list A) (x : A) :
  Forall (fun y => f y = false) before -> f x = true ->
  Js.find f (before ++ x :: after) = Some x.
Proof.
  induction 1 as [|y before Hy _ IH]; intros Hx; simpl.
  - now rewrite Hx.
  - rewrite Hy. auto.
Qed.

Lemma find_Some {A : Type} (f : A -> bool) (xs : list A) (x : A) :
  Js.find f xs = Some x ->
  exists before after,
    xs = before ++ x :: after /\ Forall (fun y => f y = false) before /\ f x = true.
Proof.
  induction xs as [|y xs IH]; simpl; [discriminate|].
  destruct (f y) eqn:Hy.
  - intros [= ->]. exists [], xs. auto.
  - intros H. destruct (IH H) as (b & a & -> & Hb & Hx).
    exists (y :: b), a. repeat split; auto.
Qed.

Lemma find_None {A : Type} (f : A -> bool) (xs : list A) :
  Js.find f xs = None <-> Forall (fun y => f y = false) xs.
Proof.
  induction xs as [|y xs IH]; simpl.
  - split; auto.
  - destruct (f y) eqn:Hy; split.
    + discriminate.
    + intros H. inversion H; congruence.
    + intros H. constructor; [assumption | now apply IH].
    + intros H. inversion H; subst. now apply IH.
Qed.

(** [node:path] on a few paths. *)
Example path_examples :
  Path.basename "src/a.ts" = "a.ts" /\ Path.dirname "src/a.ts" = "src" /\
  Path.basename "a.ts" = "a.ts" /\ Path.dirname "a.ts" = "." /\
  Path.dirname "a//b" = "a/" /\ Path.dirname "//a" = "//" /\ Path.dirname "/a" = "/" /\
  Path.basename "a/b/" = "b" /\ Path.dirname "a/b/" = "a" /\
  Path.dirname "/a/b/c" = "/a/b" /\ Path.basename "///" = "" /\ Path.dirname "///" = "/".
Proof. repeat split. Qed.

(** ** [findPatchById] and [checkedOutPatch] *)

(** C9. [findPatchById] answers [undefined] for every argument while the
    cache is uninitialised, and, matching being substring containment,
    the empty string selects the first patch of a non-empty cache. *)
Theorem findPatchById_uninitialised_and_empty_fragment :
  (forall (s : PatchStore.Store) (partialOrWholeId : string),
      PatchStore.patches s = None ->
      PatchStore.findPatchById s partialOrWholeId = None) /\
  (forall (s : PatchStore.Store) (l : PatchStore.loc) (ls : list PatchStore.loc)
          (p : AugmentedPatch),
      PatchStore.patches s = Some (l :: ls) ->
      PatchStore.patch_at s l = Some p ->
      PatchStore.findPatchById s "" = Some l).
Proof.
  split.
  - intros s i H. unfold PatchStore.findPatchById. now rewrite H.
  - intros s l ls p Hps Hl. unfold PatchStore.findPatchById, PatchStore.patch_at in *.
    rewrite Hps. simpl. unfold PatchStore.id_includes. rewrite Hl.
    now rewrite includes_empty.
Qed.

Lemma findPatchById_witness :
  PatchStore.findPatchById PatchStore.empty "ab12cd34" = None /\
  PatchStore.findPatchById (Sample.cache ["ab12cd34ff"; "0123456789"]) "" = Some 0.
Proof.
  split.
  - apply (proj1 findPatchById_uninitialised_and_empty_fragment). reflexivity.
  - eapply (proj2 findPatchById_uninitialised_and_empty_fragment); reflexivity.
Defined.

Lemma matchHexCharsAfterPatch_None (branch : string) :
  Js.includes branch "patch/" = false ->
  PatchStore.matchHexCharsAfterPatch branch = None.
Proof.
  induction branch as [|c branch IH]; intros H.
  - reflexivity.
  - cbn [Js.includes] in H. apply orb_false_iff in H as [Hp Hi].
    cbn [PatchStore.matchHexCharsAfterPatch].
    rewrite (dropPrefix_None _ _ Hp). auto.
Qed.

Lemma checkedOutPatch_fragment (prev : option PatchStore.loc) (s : PatchStore.Store)
    (fragment : string) :
  fragment <> "" -> PatchStore.hexRun fragment = fragment ->
  fst (PatchStore.checkedOutPatch prev (Some ("patch/" ++ fragment)%string) s)
  = PatchStore.findPatchById s fragment.
Proof.
  intros Hne Hhex. unfold PatchStore.checkedOutPatch.
  cbn [fst]. change (PatchStore.matchHexCharsAfterPatch ("patch/" ++ fragment)%string)
    with (Some (PatchStore.hexRun fragment)).
  rewrite Hhex. unfold Js.truthy.
  destruct (String.eqb_spec fragment ""); [contradiction|]. reflexivity.
Qed.

(** C8, as the code has it.  On the branch [patch/ab12cd34] (and on
    [patch/] followed by any non-empty run of hexadecimal digits) the
    checked-out patch is what [findPatchById] answers for the fragment:
    the first cached patch whose id contains it.  That is the cached
    patch whose id starts with the fragment when no patch in front of it
    contains the fragment.  A branch without [patch/], or no branch,
    gives [undefined], and the getter leaves the cache as it was. *)
Theorem checkedOutPatch_is_first_match :
  forall (prev : option PatchStore.loc) (s : PatchStore.Store),
    (forall fragment : string,
        fragment <> "" -> PatchStore.hexRun fragment = fragment ->
        fst (PatchStore.checkedOutPatch prev (Some ("patch/" ++ fragment)%string) s)
        = PatchStore.findPatchById s fragment) /\
    (forall (before after : list PatchStore.loc) (l : PatchStore.loc) (p : AugmentedPatch),
        PatchStore.patches s = Some (before ++ l :: after) ->
        PatchStore.patch_at s l = Some p ->
        String.prefix "ab12cd34" (patch_id (aug_patch p)) = true ->
        Forall (fun l' => PatchStore.id_includes (PatchStore.heap s) "ab12cd34" l' = false)
               before ->
        fst (PatchStore.checkedOutPatch prev (Some "patch/ab12cd34") s) = Some l) /\
    (forall branch : string,
        Js.includes branch "patch/" = false ->
        fst (PatchStore.checkedOutPatch prev (Some branch) s) = None) /\
    fst (PatchStore.checkedOutPatch prev None s) = None /\
    (forall branch : option string,
        PatchStore.patches (snd (PatchStore.checkedOutPatch prev branch s))
        = PatchStore.patches s /\
        PatchStore.heap (snd (PatchStore.checkedOutPatch prev branch s))
        = PatchStore.heap s).
Proof.
  intros prev s. split; [|split; [|split; [|split]]].
  - intros fragment. apply checkedOutPatch_fragment.
  - intros before after l p Hps Hl Hpre Hbefore.
    change "patch/ab12cd34" with ("patch/" ++ "ab12cd34")%string.
    rewrite (checkedOutPatch_fragment prev s "ab12cd34") by (discriminate || reflexivity).
    unfold PatchStore.findPatchById. rewrite Hps.
    apply find_first; [assumption|].
    unfold PatchStore.id_includes. unfold PatchStore.patch_at in Hl. rewrite Hl.
    now apply prefix_includes.
  - intros branch H. unfold PatchStore.checkedOutPatch. cbn [fst].
    now rewrite (matchHexCharsAfterPatch_None branch H).
  - reflexivity.
  - intros branch. split; reflexivity.
Qed.

Lemma checkedOutPatch_witness :
  fst (PatchStore.checkedOutPatch None (Some "patch/ab12cd34")
         (Sample.cache ["0123456789"; "ab12cd34ff"])) = Some 1 /\
  fst (PatchStore.checkedOutPatch None (Some "main")
         (Sample.cache ["0123456789"; "ab12cd34ff"])) = None.
Proof.
  pose proof (checkedOutPatch_is_first_match None
                (Sample.cache ["0123456789"; "ab12cd34ff"])) as (_ & Hfirst & Hnone & _).
  split.
  - apply (Hfirst [0] [] 1 (augment (seconds 0) (Sample.patch "ab12cd34ff")));
      try reflexivity.
    repeat constructor.
  - apply Hnone. reflexivity.
Defined.

(** C8 as stated fails when an earlier patch of the cache contains the
    fragment: the patch whose id starts with [ab12cd34] is cached at
    position 1, and the checked-out patch is the one at position 0. *)
Lemma checkedOutPatch_not_the_prefix_match :
  let s := Sample.cache ["00ab12cd34"; "ab12cd34ff"] in
  PatchStore.patches s = Some [0; 1] /\
  option_map (fun p => patch_id (aug_patch p)) (PatchStore.patch_at s 1) = Some "ab12cd34ff" /\
  String.prefix "ab12cd34" "ab12cd34ff" = true /\
  fst (PatchStore.checkedOutPatch None (Some "patch/ab12cd34") s) = Some 0 /\
  option_map (fun p => patch_id (aug_patch p)) (PatchStore.patch_at s 0) = Some "00ab12cd34".
Proof. repeat split. Qed.

(** ** The connection selector *)

(** Once an adapter is memoised every later call answers it, whatever
    the configuration has become, and constructs nothing. *)
Lemma getNodeConnection_memoised (trim : string -> string)
    (assertUnreachable : string -> Outcome (option string))
    (config config' : NodeConnection.Configuration) (m m' : NodeConnection.State)
    (c : NodeConnection.Adapter) :
  NodeConnection.getNodeConnection trim assertUnreachable config m = (Return c, m') ->
  NodeConnection.getNodeConnection trim assertUnreachable config' m' = (Return c, m') /\
  NodeConnection.nodeConnection m' = Some c /\
  (NodeConnection.constructed m' <= S (NodeConnection.constructed m))%nat.
Proof.
  unfold NodeConnection.getNodeConnection.
  destruct (NodeConnection.nodeConnection m) as [c0|] eqn:Hm.
  - intros [= <- <-]. rewrite Hm. auto.
  - destruct (NodeConnection.getConfig _ _ _ _) as [flag|e]; [|discriminate].
    intros [= <- <-]. cbn. auto.
Qed.

(** The flag [radicle.advanced.useNodeApi] set to a value. *)
Lemma getConfig_useNodeApi (trim : string -> string)
    (assertUnreachable : string -> Outcome (option string))
    (config : NodeConnection.Configuration) :
  NodeConnection.getConfig trim assertUnreachable config "radicle.advanced.useNodeApi"
  = assertUnreachable "radicle.advanced.useNodeApi".
Proof. reflexivity. Qed.

(** C5, on the code.  [getConfig] has no case for
    [radicle.advanced.useNodeApi]: the key falls through to
    [assertUnreachable], so the configuration is not read and the choice
    of adapter cannot follow the flag; with an [assertUnreachable] that
    throws, the first call throws and no adapter is constructed or
    memoised, also when the flag is set. *)
Theorem getNodeConnection_does_not_read_the_flag :
  (forall (trim : string -> string) (assertUnreachable : string -> Outcome (option string))
          (config config' : NodeConnection.Configuration) (m : NodeConnection.State),
      NodeConnection.getNodeConnection trim assertUnreachable config m
      = NodeConnection.getNodeConnection trim assertUnreachable config' m) /\
  (forall (trim : string -> string),
      NodeConnection.getNodeConnection trim NodeConnection.assertUnreachable_never
        (fun key => if String.eqb key "radicle.advanced.useNodeApi" then Some "true" else None)
        NodeConnection.fresh
      = (Throw "Unreachable", NodeConnection.fresh)).
Proof.
  split.
  - intros trim au config config' m. unfold NodeConnection.getNodeConnection.
    now rewrite !getConfig_useNodeApi.
  - reflexivity.
Qed.

(** ** The shape of results *)

Lemma dataOf_xor {A : Type} (v : Outcome A) : returns_xor (dataOf v).
Proof. intros r. destruct v; [intros [= <-]; reflexivity | discriminate]. Qed.

Lemma awaitAll_Return {A : Type} (ps : list (Outcome A)) (xs : list A) :
  awaitAll ps = Return xs -> ps = map Return xs.
Proof.
  revert xs. induction ps as [|[a|e] ps IH]; intros xs; simpl.
  - now intros [= <-].
  - destruct (awaitAll ps) as [ys|e]; [|discriminate].
    intros [= <-]. simpl. f_equal. now apply IH.
  - discriminate.
Qed.

Lemma NAPINode_xor (n : NAPINode) : connection_xor n.
Proof.
  repeat split.
  - apply dataOf_xor.
  - intros id. apply dataOf_xor.
  - cbn. unfold NAPINode_getCurrentProjectId.
    destruct (workspaceFolders n) as [[|fsPath ?]|]; try (intros r; discriminate).
    apply dataOf_xor.
  - intros rid rs. cbn. unfold NAPINode_fetchAllPatches.
    destruct (dataOf (napi_patches n rid)) as [r|e] eqn:Hr; [|discriminate].
    intros [= <-]. constructor; [|constructor]. now apply (dataOf_xor (napi_patches n rid) r).
  - intros rid patchId. apply dataOf_xor.
Qed.

Lemma ClassicNode_xor (n : ClassicNode) : httpd_xor (httpd n) -> connection_xor n.
Proof.
  intros (Hproject & Hprojects & Hpatch & Hpatches). repeat split.
  - apply Hprojects.
  - intros id. apply Hproject.
  - cbn. unfold ClassicNode_getCurrentProjectId. intros r.
    destruct (memoizedGetCurrentProjectId n) as [memo|]; simpl.
    + destruct (String.eqb memo ""); intros [= <-]; reflexivity.
    + intros [= <-]. reflexivity.
  - intros rid rs H.
    change (fetchAllPatches n rid) with (ClassicNode_fetchAllPatches n rid) in H.
    unfold ClassicNode_fetchAllPatches in H. apply awaitAll_Return in H.
    destruct rs as [|r1 [|r2 [|r3 [|r4 [|]]]]]; try discriminate.
    injection H as H1 H2 H3 H4.
    repeat constructor; eapply Hpatches; eassumption.
  - intros rid patchId. apply Hpatch.
Qed.

(** What [refetchPatch] returns carries no [data]; it carries no
    [error] either exactly when both answers of the adapter were usable,
    and a returned [error] comes with an untouched store. *)
Lemma refetchPatch_returns {N : Type} `{RadicleNodeConnection N} (conn : N)
    (now_ms : Z) (patchId : string) (s s' : PatchStore.Store) (r : Result unit) :
  PatchStore.refetchPatch conn now_ms patchId s = (Return r, s') ->
  data r = None /\
  (error r = None <->
   exists ridResult rid patchResult fetchedPatch,
     getCurrentProjectId conn = Return ridResult /\ data ridResult = Some rid /\
     rid <> "" /\ fetchPatch conn rid patchId = Return patchResult /\
     error patchResult = None /\ data patchResult = Some fetchedPatch) /\
  (error r <> None -> s' = s).
Proof.
  unfold PatchStore.refetchPatch.
  destruct (getCurrentProjectId conn) as [ridResult|e]; [|discriminate].
  destruct (data ridResult) as [rid|] eqn:Hrid.
  - unfold Js.truthy. destruct (String.eqb_spec rid "") as [->|Hne]; cbn [negb].
    + intros [= <- <-]. cbn. repeat split; try discriminate.
      intros (? & ? & ? & ? & E1 & E2 & E3 & _). simplify_eq.
    + destruct (fetchPatch conn rid patchId) as [patchResult|e] eqn:Hfetch; [|discriminate].
      destruct (error patchResult) as [e|] eqn:He.
      * intros [= <- <-]. cbn. repeat split; try discriminate.
        intros (? & ? & ? & ? & E1 & E2 & E3 & E4 & E5 & _). simplify_eq. congruence.
      * destruct (data patchResult) as [fetchedPatch|] eqn:Hd; [|discriminate].
        assert (Hex : exists ridResult0 rid0 patchResult0 fetchedPatch0,
                   Return ridResult = Return ridResult0 /\ data ridResult0 = Some rid0 /\
                   rid0 <> "" /\ fetchPatch conn rid0 patchId = Return patchResult0 /\
                   error patchResult0 = None /\ data patchResult0 = Some fetchedPatch0)
          by (exists ridResult, rid, patchResult, fetchedPatch; repeat split; auto).
        intros [= <- <-]; cbn; repeat split; auto; congruence.
  - intros [= <- <-]. cbn. repeat split; try discriminate.
    intros (? & ? & ? & ? & E1 & E2 & _). simplify_eq.
Qed.

(** C2, as the code has it.  Every operation of the two adapters that
    delivers a [Result] delivers one with exactly one of [data] and
    [error] (for the wire adapter, provided [fetchFromHttpd] does).
    [refetchPatch] returns an object that never has [data]: it has
    [error] alone when the project id or the patch could not be had, and
    then the store is untouched, and neither field on success. *)
Theorem Result_exclusive_for_adapters_not_refetchPatch :
  (forall n : NAPINode, connection_xor n) /\
  (forall n : ClassicNode, httpd_xor (httpd n) -> connection_xor n) /\
  (forall (N : Type) (C : RadicleNodeConnection N) (conn : N) (now_ms : Z)
          (patchId : string) (s s' : PatchStore.Store) (r : Result unit),
      PatchStore.refetchPatch conn now_ms patchId s = (Return r, s') ->
      data r = None /\
      (error r = None <->
       exists ridResult rid patchResult fetchedPatch,
         getCurrentProjectId conn = Return ridResult /\ data ridResult = Some rid /\
         rid <> "" /\ fetchPatch conn rid patchId = Return patchResult /\
         error patchResult = None /\ data patchResult = Some fetchedPatch) /\
      (error r <> None -> s' = s)).
Proof.
  split; [exact NAPINode_xor | split; [exact ClassicNode_xor |]].
  intros N C conn now_ms patchId s s' r. apply refetchPatch_returns.
Qed.

Lemma httpdWith_xor (p : Patch) : httpd_xor (Sample.httpdWith p).
Proof. repeat split; intros ? ? r [= <-]; reflexivity. Qed.

Lemma Result_exclusive_witness :
  connection_xor (Sample.classic (Sample.httpdWith (Sample.patch "ab12cd34ff"))) /\
  data (mkResult (D := unit) None (Some "ECONNREFUSED")) = None.
Proof.
  pose proof Result_exclusive_for_adapters_not_refetchPatch as (_ & Hclassic & Hrefetch).
  split.
  - apply Hclassic. apply httpdWith_xor.
  - apply (Hrefetch ClassicNode _ (Sample.classic Sample.httpdDown) 1700000000000%Z
                    "ab12cd34ff" PatchStore.empty PatchStore.empty).
    reflexivity.
Defined.

(** C2 as stated fails on the success path of [refetchPatch]: the
    object returned has neither [data] nor [error]. *)
Lemma refetchPatch_success_has_neither :
  fst (PatchStore.refetchPatch (Sample.napi (Sample.patch "ab12cd34ff")) 1700000000000
         "ab12cd34ff" PatchStore.empty)
  = Return (mkResult None None) /\
  xor_Result (mkResult (D := unit) None None) = false.
Proof. split; reflexivity. Qed.

(** ** The fetch loop *)

Section FetchLoop.

Import PatchStore Loop.

Lemma filterBoolean_errors (responses : Responses) :
  (length (Js.filterBoolean (map error responses)) =? 0)%nat = allSucceeded responses.
Proof.
  induction responses as [|r rs IH]; [reflexivity|].
  simpl. destruct (error r); simpl; [reflexivity | exact IH].
Qed.

Lemma allSucceeded_Forall (responses : Responses) :
  allSucceeded responses = true <-> Forall (fun r => error r = None) responses.
Proof.
  induction responses as [|r rs IH]; simpl.
  - split; [constructor | reflexivity].
  - destruct (error r) eqn:He; simpl.
    + split; [discriminate | intros H; inversion H; congruence].
    + rewrite IH. split; [now constructor | intros H; now inversion H].
Qed.

Lemma allSucceeded_Exists (responses : Responses) :
  allSucceeded responses = false <-> Exists (fun r => error r <> None) responses.
Proof.
  induction responses as [|r rs IH]; simpl.
  - split; [discriminate | intros H; inversion H].
  - destruct (error r) eqn:He; simpl.
    + split; [intros _; left; congruence | reflexivity].
    + rewrite IH. split; [now right | intros H; inversion H; congruence].
Qed.

Lemma filterBoolean_flatMap (responses : Responses) :
  Js.filterBoolean (Js.flatMap data responses) = fetched responses.
Proof.
  assert (Hsome : forall (ps : list Patch) rest,
             Js.filterBoolean (map Some ps ++ rest) = ps ++ Js.filterBoolean rest).
  { induction ps as [|q ps IH]; intros rest; simpl; [reflexivity | now rewrite IH]. }
  unfold fetched. induction responses as [|r rs IH]; [reflexivity|].
  simpl. destruct (data r) as [ps|]; simpl.
  - now rewrite Hsome, IH.
  - exact IH.
Qed.

(** Lines 99-111 in one equation. *)
Lemma receive_spec (nowTs : Q) (responses : Responses) (s : Store) :
  receive nowTs responses s =
  if allSucceeded responses
  then (true,
        mkStore (heap s ++ map (augment nowTs) (fetched responses))
                (Some (seq (length (heap s)) (length (fetched responses))))
                (prevCheckedOutPatch s) (lastFetchedTs s) (inProgressRequest s))
  else (false, s).
Proof.
  unfold receive. rewrite filterBoolean_errors, filterBoolean_flatMap.
  destruct (allSucceeded responses); simpl; [|reflexivity].
  now rewrite length_map.
Qed.

Lemma receive_frame (nowTs : Q) (responses : Responses) (s : Store) :
  lastFetchedTs (snd (receive nowTs responses s)) = lastFetchedTs s /\
  inProgressRequest (snd (receive nowTs responses s)) = inProgressRequest s.
Proof. rewrite receive_spec. destruct (allSucceeded responses); split; reflexivity. Qed.

Lemma resume_frame (p : nat) (r : Outcome Responses) (c : Call) (s : Store) :
  lastFetchedTs (snd (resume p r c s)) = lastFetchedTs s /\
  inProgressRequest (snd (resume p r c s)) = inProgressRequest s.
Proof.
  destruct c as [q|q nowTs|o]; simpl; try destruct (q =? p)%nat; try (split; reflexivity).
  destruct r as [responses|e]; [|split; reflexivity].
  pose proof (receive_frame nowTs responses s) as Hf.
  destruct (receive nowTs responses s). exact Hf.
Qed.

Lemma resumeAll_frame (p : nat) (r : Outcome Responses) (cs : list Call) (s : Store) :
  lastFetchedTs (snd (resumeAll p r cs s)) = lastFetchedTs s /\
  inProgressRequest (snd (resumeAll p r cs s)) = inProgressRequest s.
Proof.
  revert s. induction cs as [|c cs IH]; intros s; simpl; [split; reflexivity|].
  pose proof (resume_frame p r c s) as [H1 H2].
  destruct (resume p r c s) as [c' s1]. simpl in H1, H2.
  specialize (IH s1). destruct (resumeAll p r cs s1) as [cs' s2]. simpl in *.
  destruct IH. split; congruence.
Qed.

Lemma resumeAll_app (p : nat) (r : Outcome Responses) (cs1 cs2 : list Call) (s : Store) :
  resumeAll p r (cs1 ++ cs2) s =
  let '(cs1', s1) := resumeAll p r cs1 s in
  let '(cs2', s2) := resumeAll p r cs2 s1 in
  (cs1' ++ cs2', s2).
Proof.
  revert s. induction cs1 as [|c cs1 IH]; intros s; simpl.
  - now destruct (resumeAll p r cs2 s).
  - destruct (resume p r c s) as [c' s1]. rewrite IH.
    destruct (resumeAll p r cs1 s1) as [cs1' s2].
    now destruct (resumeAll p r cs2 s2).
Qed.

Lemma resumeAll_finished (p : nat) (r : Outcome Responses) (cs : list Call) (s : Store) :
  Forall finished cs -> resumeAll p r cs s = (cs, s).
Proof.
  induction 1 as [|c cs Hc _ IH]; simpl; [reflexivity|].
  destruct c; try contradiction. simpl. now rewrite IH.
Qed.

Lemma resumeAll_coalesced (p : nat) (r : Outcome Responses) {A : Type} (later : list A)
    (s : Store) :
  resumeAll p r (map (fun _ => AwaitInProgress p) later) s
  = (map (fun _ => Finished (coalescedOutcome r)) later, s).
Proof.
  induction later as [|a later IH]; simpl; [reflexivity|].
  rewrite Nat.eqb_refl, IH. reflexivity.
Qed.

Lemma resumeAll_awaiting (p : nat) (r : Outcome Responses) (cs : list Call) (s : Store) :
  Forall (awaiting p) cs -> Forall finished (fst (resumeAll p r cs s)).
Proof.
  intros H. revert s. induction H as [|c cs Hc _ IH]; intros s; simpl; [constructor|].
  destruct (resume p r c s) as [c' s1] eqn:Hres.
  specialize (IH s1). destruct (resumeAll p r cs s1) as [cs' s2]. simpl in *.
  constructor; [|exact IH].
  destruct c as [q|q nowTs|o]; simpl in Hc, Hres.
  - subst q. rewrite Nat.eqb_refl in Hres. injection Hres as <- _. exact I.
  - subst q. rewrite Nat.eqb_refl in Hres. destruct r as [responses|e].
    + destruct (receive nowTs responses s). injection Hres as <- _. exact I.
    + injection Hres as <- _. exact I.
  - injection Hres as <- _. exact I.
Qed.

(** The call that finds no request in flight and a project id issues
    the batch and suspends at line 98. *)
Lemma invoke_issues (now_ms : Z) (rid : RID) (a : NodeConnection.Adapter) (w : World) :
  inProgressRequest (store w) = None -> rid <> "" ->
  invoke now_ms (Some rid) (Return a) w =
  mkWorld (mkStore (heap (store w)) (patches (store w)) (prevCheckedOutPatch (store w))
                   (Some (seconds now_ms)) (Some (length (requests w))))
          (requests w ++ [mkRequest rid None])
          (calls w ++ [AwaitResponses (length (requests w)) (seconds now_ms)]).
Proof.
  intros Hidle Hrid. unfold invoke. rewrite Hidle. unfold Js.truthy.
  destruct (String.eqb_spec rid ""); [contradiction | reflexivity].
Qed.

(** A call that finds the request in flight suspends at line 82 and
    touches nothing. *)
Lemma invoke_coalesces (now_ms : Z) (memo : option RID)
    (conn : Outcome NodeConnection.Adapter) (w : World) (p : nat) (rid : RID) :
  inProgressRequest (store w) = Some p ->
  requests w !! p = Some (mkRequest rid None) ->
  invoke now_ms memo conn w = mkWorld (store w) (requests w) (calls w ++ [AwaitInProgress p]).
Proof. intros Hbusy Hp. unfold invoke. now rewrite Hbusy, Hp. Qed.

Lemma run_coalesced (later : list (Z * option RID * Outcome NodeConnection.Adapter))
    (w : World) (p : nat) (rid : RID) :
  inProgressRequest (store w) = Some p ->
  requests w !! p = Some (mkRequest rid None) ->
  run w (map invocation later)
  = mkWorld (store w) (requests w) (calls w ++ map (fun _ => AwaitInProgress p) later).
Proof.
  revert w. induction later as [|[[now_ms memo] conn] later IH]; intros w Hbusy Hp.
  - simpl. rewrite app_nil_r. now destruct w.
  - cbn [map run fold_left invocation step].
    rewrite (invoke_coalesces now_ms memo conn w p rid Hbusy Hp).
    unfold run in IH. rewrite IH by assumption. cbn [store requests calls].
    now rewrite <- app_assoc.
Qed.

Lemma settle_pending (p : nat) (r : Outcome Responses) (w : World) (rid : RID) :
  requests w !! p = Some (mkRequest rid None) ->
  settle p r w =
  let s := store w in
  let '(cs, s1) :=
    resumeAll p r (calls w)
      (mkStore (heap s) (patches s) (prevCheckedOutPatch s) (lastFetchedTs s) None) in
  mkWorld s1 (<[p := mkRequest rid (Some r)]> (requests w)) cs.
Proof. intros Hp. unfold settle. now rewrite Hp. Qed.

(** One round: a call issues the batch, any number of calls arrive
    while it is in flight, the batch settles. *)
Lemma round (w : World) (now_ms : Z) (rid : RID) (a : NodeConnection.Adapter)
    (later : list (Z * option RID * Outcome NodeConnection.Adapter))
    (r : Outcome Responses) :
  inProgressRequest (store w) = None -> Forall finished (calls w) -> rid <> "" ->
  run w (Invoke now_ms (Some rid) (Return a)
           :: map invocation later ++ [Settle (length (requests w)) r])
  = mkWorld (afterRound now_ms r (store w))
            (requests w ++ [mkRequest rid (Some r)])
            (calls w ++ Finished (issuerOutcome r)
                     :: map (fun _ => Finished (coalescedOutcome r)) later).
Proof.
  intros Hidle Hfin Hrid. unfold run. cbn [fold_left step].
  rewrite (invoke_issues now_ms rid a w Hidle Hrid).
  set (s1 := mkStore _ _ _ _ (Some (length (requests w)))).
  set (w1 := mkWorld s1 _ _).
  assert (Hp : requests w1 !! length (requests w) = Some (mkRequest rid None))
    by apply list_lookup_middle, eq_refl.
  rewrite fold_left_app. fold (run w1 (map invocation later)).
  rewrite (run_coalesced later w1 (length (requests w)) rid eq_refl Hp).
  cbn [fold_left step].
  rewrite settle_pending with (rid := rid) by exact Hp.
  subst w1 s1.
  cbn [store requests calls heap patches prevCheckedOutPatch lastFetchedTs].
  rewrite <- app_assoc, resumeAll_app, (resumeAll_finished _ _ _ _ Hfin).
  cbn [app resumeAll resume]. rewrite Nat.eqb_refl.
  assert (Hreq : <[length (requests w) := mkRequest rid (Some r)]>
                   (requests w ++ [mkRequest rid None])
                 = requests w ++ [mkRequest rid (Some r)]).
  { rewrite insert_app_r_alt by lia. now rewrite Nat.sub_diag. }
  rewrite Hreq. unfold afterRound, issuerOutcome. destruct r as [responses|e].
  - rewrite receive_spec. destruct (allSucceeded responses);
      rewrite resumeAll_coalesced; reflexivity.
  - rewrite resumeAll_coalesced. reflexivity.
Qed.

(** *** The invariant of the loop *)

Lemma finished_awaiting (p : nat) (cs : list Call) :
  Forall finished cs -> Forall (awaiting p) cs.
Proof. intros H. eapply Forall_impl; [exact H|]. intros [q|q ts|o]; simpl; tauto. Qed.

Lemma consistent_start (s : Store) : inProgressRequest s = None -> consistent (start s).
Proof. intros H. unfold consistent. cbn. rewrite H. split; constructor. Qed.

Lemma consistent_invoke (now_ms : Z) (memo : option RID)
    (conn : Outcome NodeConnection.Adapter) (w : World) :
  consistent w -> consistent (invoke now_ms memo conn w).
Proof.
  unfold consistent, invoke.
  destruct (inProgressRequest (store w)) as [p|] eqn:Hbusy.
  - intros (Hlen & (rid & Hp) & Htake & Hcalls). rewrite Hp. cbn. rewrite Hbusy.
    repeat split; eauto. apply Forall_app. split; [assumption|]. now repeat constructor.
  - intros (Hfin & Hset).
    assert (Hdone : forall o, Forall finished (calls w ++ [Finished o]))
      by (intros o; apply Forall_app; split; [assumption | now repeat constructor]).
    destruct memo as [rid|]; [|cbn; rewrite Hbusy; auto].
    destruct (negb (Js.truthy (Some rid))); [cbn; rewrite Hbusy; auto|].
    destruct conn as [a|e]; cbn; [|try rewrite Hbusy; auto].
    repeat split.
    + rewrite length_app. simpl. lia.
    + exists rid. now apply list_lookup_middle.
    + now rewrite take_app_length.
    + apply Forall_app. split; [now apply finished_awaiting | now repeat constructor].
Qed.

Lemma consistent_settle (p : nat) (r : Outcome Responses) (w : World) :
  consistent w -> consistent (settle p r w).
Proof.
  intros Hw. unfold settle.
  destruct (requests w !! p) as [[rid [r0|]]|] eqn:Hp; try exact Hw.
  unfold consistent in Hw.
  destruct (inProgressRequest (store w)) as [q|] eqn:Hbusy.
  - destruct Hw as (Hlen & (rid' & Hq) & Htake & Hcalls).
    assert (p = q) as ->.
    { pose proof (lookup_lt_Some _ _ _ Hp) as Hlt.
      destruct (decide (p = q)) as [|Hne]; [assumption|]. exfalso.
      assert (Hin : take q (requests w) !! p = Some (mkRequest rid None))
        by (rewrite lookup_take_lt by lia; exact Hp).
      rewrite Forall_lookup in Htake. now apply (Htake _ _ Hin). }
    pose proof (resumeAll_frame q r (calls w)
                  (mkStore (heap (store w)) (patches (store w))
                     (prevCheckedOutPatch (store w)) (lastFetchedTs (store w)) None))
      as [_ Hnone].
    pose proof (resumeAll_awaiting q r (calls w)
                  (mkStore (heap (store w)) (patches (store w))
                     (prevCheckedOutPatch (store w)) (lastFetchedTs (store w)) None) Hcalls)
      as Hfin.
    destruct (resumeAll q r (calls w) _) as [cs s1]. cbn in Hnone, Hfin.
    unfold consistent. cbn. rewrite Hnone. split; [assumption|].
    rewrite <- (take_drop_middle _ _ _ Hp).
    rewrite (drop_ge (requests w) (S q)) by lia.
    rewrite insert_app_r_alt by (rewrite length_take; lia).
    rewrite length_take, Nat.min_l, Nat.sub_diag by lia. cbn.
    apply Forall_app. split; [assumption|]. repeat constructor. discriminate.
  - destruct Hw as (_ & Hset). exfalso.
    rewrite Forall_lookup in Hset. now apply (Hset _ _ Hp).
Qed.

Lemma consistent_run (es : list Event) (w : World) : consistent w -> consistent (run w es).
Proof.
  revert w. induction es as [|e es IH]; intros w Hw; [exact Hw|].
  apply IH. destruct e; [now apply consistent_invoke | now apply consistent_settle].
Qed.

(** At most one batch request is in flight, whatever happens to a store
    that starts without one. *)
Lemma at_most_one_in_flight (s : Store) (es : list Event) :
  inProgressRequest s = None -> (length (inFlight (run (start s) es)) <= 1)%nat.
Proof.
  intros Hs. pose proof (consistent_run es _ (consistent_start s Hs)) as Hw.
  set (w := run (start s) es) in *. unfold consistent in Hw. unfold inFlight.
  assert (Hnone : forall rs, Forall settled rs ->
                             filter (fun r => req_settled r = None) rs = []).
  { induction 1 as [|x rs Hx _ IH]; [reflexivity|].
    rewrite filter_cons. destruct (decide (req_settled x = None)); [contradiction|].
    exact IH. }
  destruct (inProgressRequest (store w)) as [p|].
  - destruct Hw as (Hlen & (rid & Hp) & Htake & _).
    rewrite <- (take_drop_middle _ _ _ Hp), (drop_ge (requests w) (S p)) by lia.
    rewrite filter_app, (Hnone _ Htake), app_nil_l.
    etransitivity; [apply length_filter|]. cbn. lia.
  - destruct Hw as (_ & Hset). rewrite (Hnone _ Hset). cbn. lia.
Qed.

(** *** Coalescing *)

(** X17.  While the batch of one call is in flight any number of
    further calls issue no request: the adapter receives exactly one
    batch.  When it settles, the call that issued it resolves to whether
    every per-status result succeeded, and every coalesced call resolves
    to [true]; all of them reject when the batch rejects.  So the
    outcomes agree exactly when the batch rejects or every per-status
    result succeeded. *)
Theorem fetchAllPatches_coalesces :
  forall (w : World) (now_ms : Z) (rid : RID) (a : NodeConnection.Adapter)
         (later : list (Z * option RID * Outcome NodeConnection.Adapter))
         (r : Outcome Responses),
    consistent w -> inProgressRequest (store w) = None -> rid <> "" ->
    let w' := run w (Invoke now_ms (Some rid) (Return a)
                       :: map invocation later ++ [Settle (length (requests w)) r]) in
    requests w' = requests w ++ [mkRequest rid (Some r)] /\
    calls w' = calls w ++ Finished (issuerOutcome r)
                       :: map (fun _ => Finished (coalescedOutcome r)) later /\
    (issuerOutcome r = coalescedOutcome r <->
     forall responses, r = Return responses ->
                       Forall (fun x => error x = None) responses).
Proof.
  intros w now_ms rid a later r Hw Hidle Hrid w'. subst w'.
  assert (Hfin : Forall finished (calls w))
    by (unfold consistent in Hw; rewrite Hidle in Hw; tauto).
  rewrite (round w now_ms rid a later r Hidle Hfin Hrid). cbn [requests calls].
  repeat split.
  - destruct r as [responses|e]; cbn.
    + intros [= Hok] ? [= <-]. now apply allSucceeded_Forall.
    + discriminate.
  - destruct r as [responses|e]; cbn; [|reflexivity].
    intros H. f_equal. apply allSucceeded_Forall. now apply H.
Qed.

Lemma fetchAllPatches_coalesces_witness :
  calls (run (start empty)
           [Invoke 1000 (Some Sample.rid) (Return Sample.adapter);
            Invoke 2000 (Some Sample.rid) (Return Sample.adapter);
            Settle 0 (Return [Sample.succeeded [Sample.patch "ab12cd34ff"]])])
  = [Finished (Return true); Finished (Return true)].
Proof.
  destruct (fetchAllPatches_coalesces (start empty) 1000 Sample.rid Sample.adapter
              [(2000%Z, Some Sample.rid, Return Sample.adapter)]
              (Return [Sample.succeeded [Sample.patch "ab12cd34ff"]])
              (consistent_start empty eq_refl) eq_refl ltac:(discriminate))
    as (_ & Hcalls & _).
  exact Hcalls.
Defined.

(** C1, on the code.  Two calls share one batch, which is
    delivered with a failed per-status result: one batch was requested,
    but the two calls do not resolve to the same outcome, the call that
    issued the batch resolving to [false] (lines 99-102) and the
    coalesced call to the literal [true] of line 84. *)
Lemma fetchAllPatches_coalesced_call_reports_success :
  let w := run (start empty)
             [Invoke 1000 (Some Sample.rid) (Return Sample.adapter);
              Invoke 2000 (Some Sample.rid) (Return Sample.adapter);
              Settle 0 (Return [Sample.succeeded [Sample.patch "ab12cd34ff"];
                                Sample.failed])] in
  length (requests w) = 1%nat /\
  calls w = [Finished (Return false); Finished (Return true)].
Proof. split; reflexivity. Qed.

(** *** Replacing the cache *)

(** The fresh objects of a batch, read back through their references. *)
Lemma omap_fresh (h k : list AugmentedPatch) :
  omap (fun l => (h ++ k) !! l) (seq (length h) (length k)) = k.
Proof.
  revert h. induction k as [|x k IH]; intros h; [reflexivity|].
  cbn [length seq omap list_omap]. rewrite list_lookup_middle by reflexivity.
  f_equal. specialize (IH (h ++ [x])).
  rewrite <- app_assoc, length_app in IH. cbn in IH.
  replace (length h + 1)%nat with (S (length h)) in IH by lia. exact IH.
Qed.

Lemma afterRound_failed (now_ms : Z) (r : Outcome Responses) (s : Store) :
  issuerOutcome r <> Return true ->
  patches (afterRound now_ms r s) = patches s /\ heap (afterRound now_ms r s) = heap s.
Proof.
  unfold afterRound. destruct r as [responses|e]; [|split; reflexivity].
  rewrite receive_spec. cbn. destruct (allSucceeded responses); [congruence|].
  split; reflexivity.
Qed.

Lemma afterRound_succeeded (now_ms : Z) (responses : Responses) (s : Store) :
  allSucceeded responses = true ->
  heap (afterRound now_ms (Return responses) s)
  = heap s ++ map (augment (seconds now_ms)) (fetched responses) /\
  patches (afterRound now_ms (Return responses) s)
  = Some (seq (length (heap s)) (length (fetched responses))) /\
  contents (afterRound now_ms (Return responses) s)
  = Some (map (augment (seconds now_ms)) (fetched responses)).
Proof.
  intros Hok. unfold afterRound. rewrite receive_spec, Hok. cbn.
  repeat split. unfold contents, patch_at. cbn. f_equal.
  rewrite <- (length_map (augment (seconds now_ms)) (fetched responses)).
  apply omap_fresh.
Qed.

Lemma afterRound_lastFetchedTs (now_ms : Z) (r : Outcome Responses) (s : Store) :
  lastFetchedTs (afterRound now_ms r s) = Some (seconds now_ms).
Proof.
  unfold afterRound. destruct r as [responses|e]; [|reflexivity].
  now rewrite (proj1 (receive_frame _ _ _)).
Qed.

(** Stamping adds the time of the fetch to each patch and changes
    nothing else of it. *)
Lemma augment_stamps (nowTs : Q) (fetchedPatches : list Patch) :
  map aug_patch (map (augment nowTs) fetchedPatches) = fetchedPatches /\
  Forall (fun p => aug_lastFetchedTs p = nowTs) (map (augment nowTs) fetchedPatches).
Proof.
  induction fetchedPatches as [|q qs [IHmap IHall]]; [split; [reflexivity | constructor]|].
  cbn [map]. split; [cbn; now rewrite IHmap | constructor; [reflexivity | exact IHall]].
Qed.

(** X18.  For the call that issues the batch (no request in flight, the
    project id resolved), whatever the cache held and whether or not
    other calls arrived meanwhile: when a per-status result carries an
    error the call resolves to [false] and the collection and its
    objects are as before the call; it resolves to [true] only if no
    result carries an error, and then the collection is the fetched
    patches in their order, each a fresh object whose [lastFetchedTs]
    is the time of the call. *)
Theorem fetchAllPatches_all_or_nothing :
  forall (w : World) (now_ms : Z) (rid : RID) (a : NodeConnection.Adapter)
         (later : list (Z * option RID * Outcome NodeConnection.Adapter))
         (responses : Responses),
    consistent w -> inProgressRequest (store w) = None -> rid <> "" ->
    let w' := run w (Invoke now_ms (Some rid) (Return a)
                       :: map invocation later
                          ++ [Settle (length (requests w)) (Return responses)]) in
    (Exists (fun r => error r <> None) responses ->
       calls w' !! length (calls w) = Some (Finished (Return false)) /\
       patches (store w') = patches (store w) /\
       heap (store w') = heap (store w)) /\
    (calls w' !! length (calls w) = Some (Finished (Return true)) ->
       Forall (fun r => error r = None) responses) /\
    (Forall (fun r => error r = None) responses ->
       calls w' !! length (calls w) = Some (Finished (Return true)) /\
       patches (store w') = Some (seq (length (heap (store w))) (length (fetched responses))) /\
       exists ps,
         contents (store w') = Some ps /\
         map aug_patch ps = fetched responses /\
         Forall (fun p => aug_lastFetchedTs p = seconds now_ms) ps /\
         heap (store w') = heap (store w) ++ ps).
Proof.
  intros w now_ms rid a later responses Hw Hidle Hrid w'. subst w'.
  assert (Hfin : Forall finished (calls w))
    by (unfold consistent in Hw; rewrite Hidle in Hw; tauto).
  rewrite (round w now_ms rid a later _ Hidle Hfin Hrid). cbn [store calls].
  rewrite list_lookup_middle by reflexivity. cbn [issuerOutcome].
  split; [|split].
  - intros Herr. apply allSucceeded_Exists in Herr. rewrite Herr.
    split; [reflexivity|]. apply afterRound_failed. cbn. rewrite Herr. discriminate.
  - intros [= Hok]. now apply allSucceeded_Forall.
  - intros Hall. apply allSucceeded_Forall in Hall. rewrite Hall.
    destruct (afterRound_succeeded now_ms responses (store w) Hall) as (Hh & Hp & Hc).
    destruct (augment_stamps (seconds now_ms) (fetched responses)) as [Hmap Hstamp].
    split; [reflexivity|]. split; [exact Hp|].
    exists (map (augment (seconds now_ms)) (fetched responses)). auto.
Qed.

Lemma fetchAllPatches_all_or_nothing_witness :
  let w := run (start (Sample.cache ["0123456789"]))
             [Invoke 1000 (Some Sample.rid) (Return Sample.adapter);
              Settle 0 (Return [Sample.succeeded [Sample.patch "ab12cd34ff"];
                                Sample.failed])] in
  calls w !! 0%nat = Some (Finished (Return false)) /\
  patches (store w) = Some [0%nat] /\
  heap (store w) = [augment (seconds 0) (Sample.patch "0123456789")].
Proof.
  apply (fetchAllPatches_all_or_nothing (start (Sample.cache ["0123456789"])) 1000
           Sample.rid Sample.adapter []
           [Sample.succeeded [Sample.patch "ab12cd34ff"]; Sample.failed]
           (consistent_start (Sample.cache ["0123456789"]) eq_refl) eq_refl
           ltac:(discriminate)).
  right. left. discriminate.
Defined.


(** *** The time of the last fetch *)

Lemma invoke_store_coalesced (now_ms : Z) (memo : option RID)
    (conn : Outcome NodeConnection.Adapter) (w : World) (p : nat) :
  inProgressRequest (store w) = Some p -> store (invoke now_ms memo conn w) = store w.
Proof.
  intros Hbusy. unfold invoke. rewrite Hbusy.
  destruct (requests w !! p) as [[rid [r|]]|]; reflexivity.
Qed.

Lemma invoke_store_unresolved (now_ms : Z) (memo : option RID)
    (conn : Outcome NodeConnection.Adapter) (w : World) :
  inProgressRequest (store w) = None -> Js.truthy memo = false ->
  store (invoke now_ms memo conn w) = store w /\ requests (invoke now_ms memo conn w) = requests w.
Proof.
  intros Hidle Hmemo. unfold invoke. rewrite Hidle.
  destruct memo as [rid|]; [rewrite Hmemo|]; split; reflexivity.
Qed.

(** C10, as the code has it.  A call that finds no request in flight
    and resolves a project id sets [lastFetchedTs] to its own time, and
    does so before it turns to the backend: the field is set also when
    no request gets issued because [getNodeConnection()] throws, and it
    keeps that time when the batch fails and the collection is left as
    it was.  Two paths leave [lastFetchedTs] as it is: the one on which
    the project id is not resolved, and the one on which a request is
    already in flight. *)
Theorem lastFetchedTs_set_before_the_request :
  forall (w : World) (now_ms : Z) (memo : option RID)
         (conn : Outcome NodeConnection.Adapter),
    consistent w ->
    (inProgressRequest (store w) = None -> Js.truthy memo = true ->
       lastFetchedTs (store (invoke now_ms memo conn w)) = Some (seconds now_ms) /\
       (forall e, conn = Throw e -> requests (invoke now_ms memo conn w) = requests w) /\
       (forall a later r, conn = Return a ->
          let w' := run (invoke now_ms memo conn w)
                        (map invocation later ++ [Settle (length (requests w)) r]) in
          lastFetchedTs (store w') = Some (seconds now_ms) /\
          (issuerOutcome r <> Return true ->
             patches (store w') = patches (store w) /\
             heap (store w') = heap (store w)))) /\
    (inProgressRequest (store w) = None -> Js.truthy memo = false ->
       store (invoke now_ms memo conn w) = store w) /\
    (forall p, inProgressRequest (store w) = Some p ->
       store (invoke now_ms memo conn w) = store w).
Proof.
  intros w now_ms memo conn Hw. split; [|split].
  - intros Hidle Hmemo. destruct memo as [rid|]; [|discriminate].
    assert (Hrid : rid <> "").
    { intros ->. discriminate. }
    split; [|split].
    + unfold invoke. rewrite Hidle, Hmemo. destruct conn; reflexivity.
    + intros e ->. unfold invoke. rewrite Hidle, Hmemo. reflexivity.
    + intros a later r -> w'. subst w'.
      assert (Hfin : Forall finished (calls w))
        by (unfold consistent in Hw; rewrite Hidle in Hw; tauto).
      pose proof (round w now_ms rid a later r Hidle Hfin Hrid) as Hround.
      unfold run in Hround |- *. cbn [fold_left step] in Hround. rewrite Hround.
      cbn [store]. split; [apply afterRound_lastFetchedTs | apply afterRound_failed].
  - intros Hidle Hmemo. now apply invoke_store_unresolved.
  - intros p Hbusy. now apply invoke_store_coalesced with (p := p).
Qed.

Lemma lastFetchedTs_witness :
  lastFetchedTs (store (invoke 1000 (Some Sample.rid) (Throw "Unreachable") (start empty)))
  = Some (seconds 1000) /\
  requests (invoke 1000 (Some Sample.rid) (Throw "Unreachable") (start empty)) = [].
Proof.
  destruct (lastFetchedTs_set_before_the_request (start empty) 1000 (Some Sample.rid)
              (Throw "Unreachable") (consistent_start empty eq_refl))
    as (Hset & _ & _).
  destruct (Hset eq_refl eq_refl) as (Hts & Hreq & _).
  split; [exact Hts | exact (Hreq _ eq_refl)].
Defined.

(** C10 as stated fails on the coalescing path: the second call
    resolves its project id without failure, and leaves [lastFetchedTs]
    at the time of the first call. *)
Lemma lastFetchedTs_unchanged_when_coalesced :
  let w1 := invoke 1000 (Some Sample.rid) (Return Sample.adapter) (start empty) in
  let w2 := invoke 2000 (Some Sample.rid) (Return Sample.adapter) w1 in
  Js.truthy (Some Sample.rid) = true /\
  lastFetchedTs (store w2) = lastFetchedTs (store w1) /\
  lastFetchedTs (store w2) = Some (seconds 1000) /\
  Some (seconds 1000) <> Some (seconds 2000).
Proof. repeat split. discriminate. Qed.

End FetchLoop.

(** ** Merging a refetched patch *)

Section Merge.

Import PatchStore Cache.

Lemma refetchPatch_delivers {N : Type} `{RadicleNodeConnection N} (conn : N)
    (now_ms : Z) (patchId : string) (fetchedPatch : Patch) (s : Store) :
  delivers conn patchId fetchedPatch ->
  refetchPatch conn now_ms patchId s
  = (Return (mkResult None None), merge (seconds now_ms) fetchedPatch s).
Proof.
  intros (ridResult & rid & patchResult & Hrid & Hdata & Hne & Hfetch & Herr & Hpatch).
  unfold refetchPatch. rewrite Hrid, Hdata. unfold Js.truthy.
  destruct (String.eqb_spec rid ""); [contradiction|]. cbn [negb].
  now rewrite Hfetch, Herr, Hpatch.
Qed.

(** What [findPatchById] finds is allocated, in the collection, and
    contains the fragment. *)
Lemma findPatchById_Some (s : Store) (fragment : string) (l : loc) :
  findPatchById s fragment = Some l ->
  exists ps before after p,
    patches s = Some ps /\ ps = before ++ l :: after /\
    Forall (fun l' => id_includes (heap s) fragment l' = false) before /\
    heap s !! l = Some p /\ Js.includes (patch_id (aug_patch p)) fragment = true.
Proof.
  unfold findPatchById. destruct (patches s) as [ps|]; [|discriminate].
  intros Hfind. apply find_Some in Hfind as (before & after & -> & Hbefore & Hl).
  unfold id_includes in Hl. destruct (heap s !! l) as [p|] eqn:Hp; [|discriminate].
  exists (before ++ l :: after), before, after, p. auto.
Qed.

Lemma id_includes_app_l (h k : list AugmentedPatch) (fragment : string) (l : loc) :
  (l < length h)%nat -> id_includes (h ++ k) fragment l = id_includes h fragment l.
Proof. intros Hlt. unfold id_includes. now rewrite lookup_app_l. Qed.

Lemma id_includes_ge (h : list AugmentedPatch) (fragment : string) (l : loc) :
  (length h <= l)%nat -> id_includes h fragment l = false.
Proof. intros Hge. unfold id_includes. now rewrite lookup_ge_None_2. Qed.

Lemma id_includes_insert_ne (h : list AugmentedPatch) (fragment : string) (l l' : loc)
    (p : AugmentedPatch) :
  l <> l' -> id_includes (<[l := p]> h) fragment l' = id_includes h fragment l'.
Proof. intros Hne. unfold id_includes. now rewrite list_lookup_insert_ne. Qed.

Lemma find_snoc {A : Type} (f : A -> bool) (xs : list A) (x : A) :
  Forall (fun y => f y = true -> y = x) xs -> f x = true ->
  Js.find f (xs ++ [x]) = Some x.
Proof.
  intros Hxs Hx. induction Hxs as [|y xs Hy _ IH]; simpl.
  - now rewrite Hx.
  - destruct (f y) eqn:Hfy; [now rewrite Hy | exact IH].
Qed.

(** The object written by a first merge is the object found again. *)
Lemma findPatchById_merge (nowTs : Q) (fetchedPatch : Patch) (s : Store) :
  findPatchById (merge nowTs fetchedPatch s) (patch_id fetchedPatch)
  = Some (default (length (heap s)) (findPatchById s (patch_id fetchedPatch))).
Proof.
  unfold merge. destruct (findPatchById s (patch_id fetchedPatch)) as [l|] eqn:Hfind.
  - apply findPatchById_Some in Hfind
      as (ps & before & after & p & Hps & -> & Hbefore & Hl & Hinc).
    unfold findPatchById. cbn. rewrite Hps. apply find_first.
    + eapply Forall_impl; [exact Hbefore|]. intros l' Hl'.
      destruct (decide (l = l')) as [<-|Hne].
      * unfold id_includes in Hl'. rewrite Hl in Hl'. congruence.
      * now rewrite id_includes_insert_ne.
    + unfold id_includes.
      rewrite list_lookup_insert_eq by (eapply lookup_lt_Some; exact Hl).
      cbn. apply includes_refl.
  - unfold findPatchById in *. cbn.
    assert (Hnone : Forall (fun l' => id_includes (heap s) (patch_id fetchedPatch) l' = false)
                           (default [] (patches s))).
    { destruct (patches s); [now apply find_None | constructor]. }
    apply find_snoc.
    + eapply Forall_impl; [exact Hnone|]. intros l' Hold Hnew.
      destruct (decide (l' < length (heap s))%nat) as [Hlt|Hge].
      * rewrite id_includes_app_l in Hnew by exact Hlt. congruence.
      * destruct (decide (l' = length (heap s))) as [|Hne]; [assumption|].
        rewrite id_includes_ge in Hnew by (rewrite length_app; cbn; lia). discriminate.
    + unfold id_includes. rewrite list_lookup_middle by reflexivity.
      cbn. apply includes_refl.
Qed.

(** Merging the same patch again, whenever, gives what merging it once
    at the later time gives. *)
Lemma merge_idempotent (t1 t2 : Q) (fetchedPatch : Patch) (s : Store) :
  merge t2 fetchedPatch (merge t1 fetchedPatch s) = merge t2 fetchedPatch s.
Proof.
  unfold merge at 1. rewrite findPatchById_merge.
  unfold merge. destruct (findPatchById s (patch_id fetchedPatch)) as [l|]; cbn.
  - now rewrite list_insert_insert_eq.
  - rewrite insert_app_r_alt by lia. rewrite Nat.sub_diag. reflexivity.
Qed.

(** *** The ids of the cache *)

Lemma ids_overwrite (s : Store) (l : loc) (p new : AugmentedPatch) :
  heap s !! l = Some p -> patch_id (aug_patch new) = patch_id (aug_patch p) ->
  ids (mkStore (<[l := new]> (heap s)) (patches s) (prevCheckedOutPatch s)
               (lastFetchedTs s) (inProgressRequest s))
  = ids s.
Proof.
  intros Hl Hid. unfold ids, contents, patch_at. cbn [heap patches].
  destruct (patches s) as [ps|]; [|reflexivity]. cbn [from_option id].
  induction ps as [|x ps IH]; [reflexivity|]. cbn [omap list_omap].
  destruct (decide (l = x)) as [<-|Hne].
  - rewrite list_lookup_insert_eq by (eapply lookup_lt_Some; exact Hl).
    rewrite Hl. cbn [map]. f_equal; [exact Hid | exact IH].
  - rewrite list_lookup_insert_ne by exact Hne.
    destruct (heap s !! x); cbn [map]; [f_equal|]; exact IH.
Qed.

Lemma ids_append (s : Store) (new : AugmentedPatch) :
  allocated s ->
  ids (mkStore (heap s ++ [new]) (Some (default [] (patches s) ++ [length (heap s)]))
               (prevCheckedOutPatch s) (lastFetchedTs s) (inProgressRequest s))
  = ids s ++ [patch_id (aug_patch new)].
Proof.
  unfold allocated, ids, contents, patch_at. cbn [heap patches from_option id].
  assert (Hps : forall ps, Forall (fun l => l < length (heap s))%nat ps ->
            map (fun p => patch_id (aug_patch p))
                (omap (fun l => (heap s ++ [new]) !! l) (ps ++ [length (heap s)]))
            = map (fun p => patch_id (aug_patch p)) (omap (fun l => heap s !! l) ps)
              ++ [patch_id (aug_patch new)]).
  { induction 1 as [|x ps Hx _ IH]; cbn [app omap list_omap].
    - now rewrite list_lookup_middle.
    - rewrite lookup_app_l by exact Hx. destruct (heap s !! x); cbn [map app]; now rewrite IH. }
  destruct (patches s) as [ps|]; cbn [from_option id]; intros Hall.
  - now apply Hps.
  - now apply (Hps []).
Qed.

(** A cached id is the id of an allocated object of the collection. *)
Lemma elem_of_ids (s : Store) (pid : string) :
  In pid (ids s) ->
  exists ps l p, patches s = Some ps /\ l ∈ ps /\ heap s !! l = Some p /\
                 patch_id (aug_patch p) = pid.
Proof.
  unfold ids, contents, patch_at. destruct (patches s) as [ps|]; [|intros []].
  cbn [from_option id]. intros Hin. apply in_map_iff in Hin as (p & Hid & Hp).
  apply list_elem_of_In, list_elem_of_omap in Hp as (l & Hl & Hlook).
  exists ps, l, p. auto.
Qed.

Lemma ids_elem_of (s : Store) (ps : list loc) (l : loc) (p : AugmentedPatch) :
  patches s = Some ps -> l ∈ ps -> heap s !! l = Some p ->
  In (patch_id (aug_patch p)) (ids s).
Proof.
  intros Hps Hl Hp. unfold ids, contents, patch_at. rewrite Hps. cbn [from_option id].
  apply (in_map (fun q => patch_id (aug_patch q))).
  apply list_elem_of_In, list_elem_of_omap. eauto.
Qed.

(** With exact matches the object found carries the fetched id. *)
Lemma found_has_id (s : Store) (pid : string) (l : loc) (p : AugmentedPatch) :
  matchedExactly pid s -> findPatchById s pid = Some l -> heap s !! l = Some p ->
  patch_id (aug_patch p) = pid.
Proof.
  intros Hexact Hfind Hp.
  apply findPatchById_Some in Hfind
    as (ps & before & after & p' & Hps & -> & _ & Hl & Hinc).
  assert (p' = p) as -> by congruence.
  unfold matchedExactly in Hexact. rewrite Forall_forall in Hexact.
  apply Hexact; [|exact Hinc].
  apply list_elem_of_In. eapply ids_elem_of; [exact Hps | | exact Hp].
  apply elem_of_app. right. now left.
Qed.

(** Merging keeps the ids of the cache distinct when matches are exact. *)
Lemma merge_NoDup (nowTs : Q) (fetchedPatch : Patch) (s : Store) :
  allocated s -> matchedExactly (patch_id fetchedPatch) s -> NoDup (ids s) ->
  NoDup (ids (merge nowTs fetchedPatch s)).
Proof.
  intros Halloc Hexact Hnodup. unfold merge.
  destruct (findPatchById s (patch_id fetchedPatch)) as [l|] eqn:Hfind.
  - destruct (findPatchById_Some _ _ _ Hfind) as (ps & ? & ? & p & _ & _ & _ & Hl & _).
    rewrite (ids_overwrite s l p); [exact Hnodup | exact Hl |].
    cbn. symmetry. now apply (found_has_id s _ l p).
  - rewrite ids_append by exact Halloc. apply NoDup_app. split; [exact Hnodup|].
    split; [|apply NoDup_singleton].
    intros pid Hin Hnew. apply list_elem_of_singleton in Hnew. subst pid. cbn in Hin.
    apply list_elem_of_In, elem_of_ids in Hin as (ps & l & p & Hps & Hl & Hp & Hid).
    unfold findPatchById in Hfind. rewrite Hps in Hfind.
    apply find_None in Hfind. rewrite Forall_forall in Hfind.
    specialize (Hfind l Hl). unfold id_includes in Hfind.
    rewrite Hp, Hid, includes_refl in Hfind. discriminate.
Qed.

Lemma merge_found (nowTs : Q) (fetchedPatch : Patch) (s : Store) (l : loc) :
  findPatchById s (patch_id fetchedPatch) = Some l ->
  patches (merge nowTs fetchedPatch s) = patches s /\
  patch_at (merge nowTs fetchedPatch s) l = Some (augment nowTs fetchedPatch) /\
  (forall l', l' <> l -> patch_at (merge nowTs fetchedPatch s) l' = patch_at s l').
Proof.
  intros Hfind. unfold merge, patch_at. rewrite Hfind. cbn.
  destruct (findPatchById_Some _ _ _ Hfind) as (? & ? & ? & p & _ & _ & _ & Hl & _).
  repeat split.
  - apply list_lookup_insert_eq. eapply lookup_lt_Some. exact Hl.
  - intros l' Hne. apply list_lookup_insert_ne. congruence.
Qed.

Lemma merge_not_found (nowTs : Q) (fetchedPatch : Patch) (s : Store) :
  findPatchById s (patch_id fetchedPatch) = None ->
  patches (merge nowTs fetchedPatch s)
  = Some (default [] (patches s) ++ [length (heap s)]) /\
  patch_at (merge nowTs fetchedPatch s) (length (heap s))
  = Some (augment nowTs fetchedPatch) /\
  (forall l', (l' < length (heap s))%nat ->
              patch_at (merge nowTs fetchedPatch s) l' = patch_at s l').
Proof.
  intros Hfind. unfold merge, patch_at. rewrite Hfind. cbn. repeat split.
  - now apply list_lookup_middle.
  - intros l' Hlt. now apply lookup_app_l.
Qed.

Lemma find_satisfied {A : Type} (f : A -> bool) (xs : list A) (x : A) :
  x ∈ xs -> f x = true -> is_Some (Js.find f xs).
Proof.
  intros Hx Hfx. induction xs as [|y ys IH]; [inversion Hx|].
  cbn. destruct (f y) eqn:Hfy; [eauto|].
  apply IH. inversion Hx; subst; [congruence | assumption].
Qed.

(** With exact matches a patch is found exactly when its id is cached. *)
Lemma findPatchById_by_id (s : Store) (pid : string) :
  matchedExactly pid s ->
  (In pid (ids s) ->
   exists l p, findPatchById s pid = Some l /\ patch_at s l = Some p /\
               patch_id (aug_patch p) = pid) /\
  (~ In pid (ids s) -> findPatchById s pid = None).
Proof.
  intros Hexact. split.
  - intros Hin. apply elem_of_ids in Hin as (ps & l0 & p0 & Hps & Hl0 & Hp0 & Hid).
    assert (Hsome : is_Some (findPatchById s pid)).
    { unfold findPatchById. rewrite Hps. apply (find_satisfied _ _ l0 Hl0).
      unfold id_includes. rewrite Hp0, Hid. apply includes_refl. }
    destruct Hsome as [l Hfind].
    destruct (findPatchById_Some _ _ _ Hfind) as (? & ? & ? & p & _ & _ & _ & Hl & _).
    exists l, p. split; [exact Hfind|]. split; [exact Hl|].
    now apply (found_has_id s _ l p).
  - intros Hnotin. destruct (findPatchById s pid) as [l|] eqn:Hfind; [|reflexivity].
    destruct (findPatchById_Some _ _ _ Hfind)
      as (ps & before & after & p & Hps & -> & _ & Hl & _).
    destruct Hnotin. rewrite <- (found_has_id s _ l p Hexact Hfind Hl).
    eapply ids_elem_of; [exact Hps | | exact Hl]. apply elem_of_app. right. now left.
Qed.

(** C4, as the code has it.  With the same patch delivered both times,
    refetching twice leaves the store as refetching once at the time of
    the second call does: the same objects in the same order with the
    same fields, [lastFetchedTs] being the time of the call that wrote
    last.  The object written is the one [findPatchById] answers for
    the fetched id: it is written in place by both calls and no other
    object changes; when there is none the patch is appended by the
    first call and written in place by the second.  For ids none of
    which is contained in another, as ids of one length are, that
    object is there exactly when the fetched id is cached and carries
    the fetched id, and distinct ids stay distinct. *)
Theorem refetchPatch_merge_idempotent :
  forall (N : Type) (C : RadicleNodeConnection N) (conn : N) (patchId : string)
         (fetchedPatch : Patch) (t1 t2 : Z) (s : Store),
    delivers conn patchId fetchedPatch ->
    let s1 := snd (refetchPatch conn t1 patchId s) in
    let s2 := snd (refetchPatch conn t2 patchId s1) in
    s2 = snd (refetchPatch conn t2 patchId s) /\
    (forall l, findPatchById s (patch_id fetchedPatch) = Some l ->
       patches s1 = patches s /\ patches s2 = patches s /\
       patch_at s1 l = Some (mkAugmentedPatch fetchedPatch (seconds t1)) /\
       patch_at s2 l = Some (mkAugmentedPatch fetchedPatch (seconds t2)) /\
       (forall l', l' <> l ->
                   patch_at s1 l' = patch_at s l' /\ patch_at s2 l' = patch_at s l')) /\
    (findPatchById s (patch_id fetchedPatch) = None ->
       patches s1 = Some (default [] (patches s) ++ [length (heap s)]) /\
       patches s2 = patches s1 /\
       patch_at s1 (length (heap s)) = Some (mkAugmentedPatch fetchedPatch (seconds t1)) /\
       patch_at s2 (length (heap s)) = Some (mkAugmentedPatch fetchedPatch (seconds t2)) /\
       (forall l', (l' < length (heap s))%nat ->
                   patch_at s1 l' = patch_at s l' /\ patch_at s2 l' = patch_at s l')) /\
    (allocated s -> matchedExactly (patch_id fetchedPatch) s -> NoDup (ids s) ->
       NoDup (ids s1) /\ NoDup (ids s2) /\
       (In (patch_id fetchedPatch) (ids s) ->
        exists l p, findPatchById s (patch_id fetchedPatch) = Some l /\
                    patch_at s l = Some p /\
                    patch_id (aug_patch p) = patch_id fetchedPatch) /\
       (~ In (patch_id fetchedPatch) (ids s) ->
        findPatchById s (patch_id fetchedPatch) = None)).
Proof.
  intros N C conn patchId fetchedPatch t1 t2 s Hdel s1 s2. subst s1 s2.
  rewrite !(refetchPatch_delivers conn _ patchId fetchedPatch) by exact Hdel.
  cbn [snd]. rewrite merge_idempotent.
  split; [reflexivity|]. split; [|split].
  - intros l Hfind.
    destruct (merge_found (seconds t1) fetchedPatch s l Hfind) as (Hp1 & Hat1 & Hother1).
    destruct (merge_found (seconds t2) fetchedPatch s l Hfind) as (Hp2 & Hat2 & Hother2).
    unfold augment in Hat1, Hat2. auto 10.
  - intros Hfind.
    destruct (merge_not_found (seconds t1) fetchedPatch s Hfind) as (Hp1 & Hat1 & Hold1).
    destruct (merge_not_found (seconds t2) fetchedPatch s Hfind) as (Hp2 & Hat2 & Hold2).
    unfold augment in Hat1, Hat2.
    split; [exact Hp1|]. split; [congruence|]. split; [exact Hat1|]. split; [exact Hat2|].
    intros l' Hlt. split; [now apply Hold1 | now apply Hold2].
  - intros Halloc Hexact Hnodup.
    split; [now apply merge_NoDup|]. split; [now apply merge_NoDup|].
    now apply findPatchById_by_id.
Qed.

Lemma refetchPatch_merge_witness :
  let conn := Sample.napi (Sample.patch "ab12cd34ff") in
  let s := Sample.cache ["0123456789"; "ab12cd34ff"] in
  snd (refetchPatch conn 2000 "ab12cd34ff" (snd (refetchPatch conn 1000 "ab12cd34ff" s)))
  = snd (refetchPatch conn 2000 "ab12cd34ff" s).
Proof.
  apply (refetchPatch_merge_idempotent NAPINode _ (Sample.napi (Sample.patch "ab12cd34ff"))
           "ab12cd34ff" (Sample.patch "ab12cd34ff") 1000 2000
           (Sample.cache ["0123456789"; "ab12cd34ff"])).
  exists (mkResult (Some Sample.rid) None), Sample.rid,
         (mkResult (Some (Sample.patch "ab12cd34ff")) None).
  repeat split. discriminate.
Defined.

(** C4 as stated fails on the time kept with a patch: the same patch
    is delivered to both calls, and after the second call the cache is
    not what it was after the first, the entry carrying the time of the
    second call in place of the time of the first. *)
Lemma refetchPatch_twice_restamps :
  let conn := Sample.napi (Sample.patch "ab12cd34ff") in
  let s := Sample.cache ["0123456789"; "ab12cd34ff"] in
  let s1 := snd (refetchPatch conn 1000 "ab12cd34ff" s) in
  let s2 := snd (refetchPatch conn 2000 "ab12cd34ff" s1) in
  contents s1 = Some [mkAugmentedPatch (Sample.patch "0123456789") (seconds 0);
                      mkAugmentedPatch (Sample.patch "ab12cd34ff") (seconds 1000)] /\
  contents s2 = Some [mkAugmentedPatch (Sample.patch "0123456789") (seconds 0);
                      mkAugmentedPatch (Sample.patch "ab12cd34ff") (seconds 2000)] /\
  contents s2 <> contents s1.
Proof.
  split; [reflexivity|]. split; [reflexivity|]. cbv. discriminate.
Qed.

(** Were an id cached that contains the fetched id without being it,
    which ids of one length exclude, the lookup by containment would
    have the other patch written: here the object at position 0, while
    the patch with the fetched id at position 1 keeps its fields. *)
Lemma refetchPatch_overwrites_other_patch :
  let s := Sample.cache ["00ab12cd34"; "ab12cd34"] in
  let s1 := snd (refetchPatch (Sample.napi (Sample.patch "ab12cd34")) 5000 "ab12cd34" s) in
  ids s = ["00ab12cd34"; "ab12cd34"] /\
  ids s1 = ["ab12cd34"; "ab12cd34"] /\
  patch_at s1 1 = patch_at s 1 /\
  patch_at s1 0 = Some (augment (seconds 5000) (Sample.patch "ab12cd34")).
Proof. repeat split. Qed.

End Merge.

(** ** Sorting *)

Section Sorting.

Context {A : Type} (cmp : A -> A -> Z).

Local Abbreviation before := (Js.before cmp).

Lemma insert_by_Permutation (x : A) (xs : list A) :
  Permutation (Js.insert_by cmp x xs) (x :: xs).
Proof.
  induction xs as [|y ys IH]; simpl; [reflexivity|].
  destruct (cmp x y <=? 0)%Z; [reflexivity|].
  rewrite IH. apply perm_swap.
Qed.

Lemma sort_Permutation (xs : list A) : Permutation (Js.sort cmp xs) xs.
Proof.
  induction xs as [|x xs IH]; simpl; [reflexivity|].
  rewrite insert_by_Permutation. now constructor.
Qed.

(** A consistent comparator: one of two elements may come first, and
    coming first is transitive. *)
Hypothesis cmp_total : forall a b, (0 < cmp a b)%Z -> before b a.
Hypothesis cmp_trans : forall a b c, before a b -> before b c -> before a c.

Lemma insert_by_sorted (x : A) (xs : list A) :
  StronglySorted before xs -> StronglySorted before (Js.insert_by cmp x xs).
Proof.
  induction 1 as [|y ys Hys IH Hy]; simpl.
  - repeat constructor.
  - destruct (cmp x y <=? 0)%Z eqn:Hxy.
    + apply Z.leb_le in Hxy. constructor; [now constructor|].
      constructor; [exact Hxy|].
      eapply List.Forall_impl; [|exact Hy]. intros z Hz. now apply (cmp_trans x y z).
    + apply Z.leb_gt in Hxy. constructor; [exact IH|].
      rewrite insert_by_Permutation.
      constructor; [now apply cmp_total | exact Hy].
Qed.

Lemma sort_sorted (xs : list A) : StronglySorted before (Js.sort cmp xs).
Proof.
  induction xs as [|x xs IH]; simpl; [constructor | now apply insert_by_sorted].
Qed.

End Sorting.

(** ** Edge revisions *)

Section EdgeRevisions.

Import Patches.

(** The comparator of line 441. *)
Local Abbreviation byTimestamp :=
  (fun p1 p2 : Revision => (rev_timestamp p1 - rev_timestamp p2)%Z).

Lemma byTimestamp_before (a b : Revision) :
  Js.before byTimestamp a b <-> (rev_timestamp a <= rev_timestamp b)%Z.
Proof. unfold Js.before. lia. Qed.

Lemma sort_byTimestamp_sorted (revisions : list Revision) :
  StronglySorted (Js.before byTimestamp) (Js.sort byTimestamp revisions).
Proof. apply sort_sorted; unfold Js.before; intros; lia. Qed.

Lemma at_last_In {A : Type} (xs : list A) (z : A) : Js.at_last xs = Some z -> In z xs.
Proof.
  induction xs as [|x [|y ys] IH]; simpl; [discriminate | intros [= ->]; now left |].
  intros H. right. now apply IH.
Qed.

(** In a sorted array nothing comes before the first element and
    nothing after the last. *)
Lemma sorted_edges {A : Type} (R : A -> A -> Prop) (xs : list A) (first latest : A) :
  StronglySorted R xs -> Js.at_first xs = Some first -> Js.at_last xs = Some latest ->
  forall x, In x xs -> (x = first \/ R first x) /\ (x = latest \/ R x latest).
Proof.
  intros Hsorted Hfirst Hlast x Hx. split.
  - destruct xs as [|y ys]; [discriminate|]. injection Hfirst as ->.
    destruct Hx as [->|Hx]; [now left|]. right.
    apply StronglySorted_inv in Hsorted as [_ Hy].
    rewrite List.Forall_forall in Hy. now apply Hy.
  - clear Hfirst first. induction Hsorted as [|y ys Hys IH Hy]; [contradiction|].
    destruct ys as [|y' ys'].
    + injection Hlast as <-. destruct Hx as [->|[]]. now left.
    + change (Js.at_last (y' :: ys') = Some latest) in Hlast.
      destruct Hx as [->|Hx]; [|now apply IH]. right.
      rewrite List.Forall_forall in Hy. apply Hy. now apply at_last_In.
Qed.

Lemma sorted_nonempty_edges {A : Type} (xs : list A) :
  xs <> [] -> exists first latest, Js.at_first xs = Some first /\ Js.at_last xs = Some latest.
Proof.
  intros Hne. destruct xs as [|x xs]; [contradiction|]. clear Hne. exists x.
  cbn [Js.at_first]. revert x. induction xs as [|y ys IH]; intros x; [now exists x|].
  destruct (IH y) as (latest & _ & Hlast).
  exists latest. split; [reflexivity | exact Hlast].
Qed.

(** The edge revisions of a patch with a revision. *)
Lemma edges_spec (patch : Patch) :
  patch_revisions patch <> [] ->
  exists first latest,
    getFirstAndLatestRevisions patch = (Some first, Some latest) /\
    In first (patch_revisions patch) /\ In latest (patch_revisions patch) /\
    forall r, In r (patch_revisions patch) ->
              (rev_timestamp first <= rev_timestamp r <= rev_timestamp latest)%Z.
Proof.
  intros Hne. unfold getFirstAndLatestRevisions.
  pose proof (sort_Permutation byTimestamp (patch_revisions patch)) as Hperm.
  pose proof (sort_byTimestamp_sorted (patch_revisions patch)) as Hsorted.
  destruct (sorted_nonempty_edges (Js.sort byTimestamp (patch_revisions patch)))
    as (first & latest & Hfirst & Hlast).
  { intros Hnil. rewrite Hnil in Hperm. apply Permutation_nil in Hperm. contradiction. }
  exists first, latest. rewrite Hfirst, Hlast. split; [reflexivity|].
  assert (Hin : forall r, In r (Js.sort byTimestamp (patch_revisions patch))
                          <-> In r (patch_revisions patch)).
  { intros r. split; apply Permutation_in; [exact Hperm | now symmetry]. }
  split; [|split].
  - apply Hin. destruct (Js.sort _ _); [discriminate|]. injection Hfirst as ->. now left.
  - apply Hin. now apply at_last_In.
  - intros r Hr. apply Hin in Hr.
    destruct (sorted_edges _ _ first latest Hsorted Hfirst Hlast r Hr) as [H1 H2].
    rewrite !byTimestamp_before in *. split.
    + destruct H1 as [->|]; lia.
    + destruct H2 as [->|]; lia.
Qed.

Lemma NoDup_map_In_inj {A B : Type} (f : A -> B) (xs : list A) (a b : A) :
  NoDup (map f xs) -> In a xs -> In b xs -> f a = f b -> a = b.
Proof.
  induction xs as [|x xs IH]; simpl; [contradiction|].
  intros Hnd. apply NoDup_cons in Hnd as [Hx Hnd].
  intros [->|Ha] [->|Hb] Hf; auto.
  - exfalso. apply Hx. rewrite Hf. now apply list_elem_of_In, in_map.
  - exfalso. apply Hx. rewrite <- Hf. now apply list_elem_of_In, in_map.
Qed.

(** C6.  For a patch with at least one revision the first revision is
    one of its revisions and no revision is older, the latest revision
    is one of its revisions and no revision is newer; stored in any
    other order the revisions give edge revisions with the same
    timestamps, and the same revisions when no two timestamps are equal;
    for a single revision both are that revision. *)
Theorem getFirstAndLatestRevisions_oldest_and_newest :
  forall patch : Patch,
    patch_revisions patch <> [] ->
    exists first latest,
      getFirstAndLatestRevisions patch = (Some first, Some latest) /\
      In first (patch_revisions patch) /\ In latest (patch_revisions patch) /\
      (forall r, In r (patch_revisions patch) ->
                 (rev_timestamp first <= rev_timestamp r <= rev_timestamp latest)%Z) /\
      (forall patch',
          Permutation (patch_revisions patch) (patch_revisions patch') ->
          exists first' latest',
            getFirstAndLatestRevisions patch' = (Some first', Some latest') /\
            rev_timestamp first' = rev_timestamp first /\
            rev_timestamp latest' = rev_timestamp latest /\
            (NoDup (map rev_timestamp (patch_revisions patch)) ->
             first' = first /\ latest' = latest)) /\
      (forall r, patch_revisions patch = [r] -> first = r /\ latest = r).
Proof.
  intros patch Hne.
  destruct (edges_spec patch Hne) as (first & latest & Heq & Hfirst & Hlatest & Hall).
  exists first, latest.
  split; [exact Heq|]. split; [exact Hfirst|]. split; [exact Hlatest|].
  split; [exact Hall|]. split.
  - intros patch' Hperm.
    assert (Hne' : patch_revisions patch' <> []).
    { intros Hnil. rewrite Hnil in Hperm. apply Permutation_nil_r in Hperm. contradiction. }
    destruct (edges_spec patch' Hne') as (first' & latest' & Heq' & Hfirst' & Hlatest' & Hall').
    assert (Hin : forall r, In r (patch_revisions patch') <-> In r (patch_revisions patch)).
    { intros r. split; apply Permutation_in; [now symmetry | exact Hperm]. }
    assert (Hf : rev_timestamp first' = rev_timestamp first).
    { apply Hin in Hfirst'. apply Hin in Hfirst.
      pose proof (Hall _ Hfirst'). pose proof (Hall' _ Hfirst). lia. }
    assert (Hl : rev_timestamp latest' = rev_timestamp latest).
    { apply Hin in Hlatest'. apply Hin in Hlatest.
      pose proof (Hall _ Hlatest'). pose proof (Hall' _ Hlatest). lia. }
    exists first', latest'. repeat split; try assumption.
    + apply (NoDup_map_In_inj rev_timestamp (patch_revisions patch)); auto. now apply Hin.
    + apply (NoDup_map_In_inj rev_timestamp (patch_revisions patch)); auto. now apply Hin.
  - intros r Hr. rewrite Hr in Hfirst, Hlatest.
    destruct Hfirst as [<-|[]]. destruct Hlatest as [<-|[]]. now split.
Qed.

Lemma getFirstAndLatestRevisions_witness :
  exists first latest,
    getFirstAndLatestRevisions (Sample.revised [100; 300; 200]%Z) = (Some first, Some latest) /\
    rev_timestamp first = 100%Z /\ rev_timestamp latest = 300%Z.
Proof.
  destruct (getFirstAndLatestRevisions_oldest_and_newest (Sample.revised [100; 300; 200]%Z))
    as (first & latest & Heq & _); [discriminate|].
  exists first, latest. split; [exact Heq|].
  vm_compute in Heq. injection Heq as <- <-. split; reflexivity.
Defined.

(** The timestamps 100, 300, 200 in each storage order. *)
Example edges_100_300_200 :
  Forall (fun timestamps =>
            getFirstAndLatestRevisions (Sample.revised timestamps)
            = (Some (Sample.revision 100), Some (Sample.revision 300)))
         [[100; 300; 200]; [100; 200; 300]; [200; 100; 300]; [200; 300; 100];
          [300; 100; 200]; [300; 200; 100]]%Z.
Proof. repeat constructor. Qed.

End EdgeRevisions.

(** ** The list of changed files *)

Section ChangedFiles.

Import Patches.

Lemma changeNodes_paths (diff : Diff) : changeNodes diff = map newNode (paths diff).
Proof.
  unfold changeNodes, paths. cbn [flat_map]. rewrite !app_nil_r, !map_app, !map_map.
  now rewrite <- !app_assoc.
Qed.

Lemma find_is_Some {A : Type} (f : A -> bool) (xs : list A) :
  is_Some (Js.find f xs) <-> exists x, x ∈ xs /\ f x = true.
Proof.
  induction xs as [|y ys IH]; simpl.
  - split; [intros [? [=]] | intros (? & H & _); inversion H].
  - destruct (f y) eqn:Hy.
    + split; [intros _; exists y; split; [left | exact Hy] | intros _; eauto].
    + rewrite IH. split.
      * intros (x & Hx & Hfx). exists x. split; [now right | exact Hfx].
      * intros (x & Hx & Hfx). apply elem_of_cons in Hx as [->|Hx]; [congruence | eauto].
Qed.

(** The elements of an array without position [i]. *)
Lemma elem_of_delete {A : Type} (xs : list A) (i : nat) (x : A) :
  x ∈ delete i xs <-> exists j, j <> i /\ xs !! j = Some x.
Proof.
  rewrite list_elem_of_lookup. split.
  - intros [k Hk]. destruct (decide (k < i)%nat) as [Hlt|Hge].
    + rewrite list_lookup_delete_lt in Hk by exact Hlt. exists k. split; [lia | exact Hk].
    + rewrite list_lookup_delete_ge in Hk by lia. exists (S k). split; [lia | exact Hk].
  - intros (j & Hne & Hj). destruct (decide (j < i)%nat) as [Hlt|Hge].
    + exists j. now rewrite list_lookup_delete_lt.
    + exists (pred j). rewrite list_lookup_delete_ge by lia.
      replace (S (pred j)) with j by lia. exact Hj.
Qed.

(** Lines 335-346 position by position. *)
Lemma markSameFilename_lookup (nodes : list FilechangeNode) (i : nat) (n' : FilechangeNode) :
  markSameFilename nodes !! i = Some n' ->
  exists n,
    nodes !! i = Some n /\ resolvedPath n' = resolvedPath n /\ filename n' = filename n /\
    (shouldShowPathInDescription n' = true <->
     shouldShowPathInDescription n = true \/ sharedFilename nodes i (filename n)).
Proof.
  unfold markSameFilename. rewrite list_lookup_imap.
  destruct (nodes !! i) as [n|] eqn:Hn; [|discriminate]. cbn. intros [= <-].
  exists n. split; [reflexivity|].
  assert (Hshared : is_Some (Js.find (fun node => String.eqb (filename node) (filename n))
                                     (delete i nodes))
                    <-> sharedFilename nodes i (filename n)).
  { rewrite find_is_Some. unfold sharedFilename. split.
    - intros (m & Hm & Heq). apply elem_of_delete in Hm as (j & Hne & Hj).
      apply String.eqb_eq in Heq. eauto.
    - intros (j & m & Hne & Hj & Heq). exists m. split.
      + apply elem_of_delete. eauto.
      + now apply String.eqb_eq. }
  destruct (bool_decide (is_Some _)) eqn:Hdec.
  - apply bool_decide_eq_true in Hdec. cbn. repeat split; auto.
    intros _. right. now apply Hshared.
  - apply bool_decide_eq_false in Hdec. repeat split; auto.
    intros [H|H]; [exact H|]. now apply Hshared in H.
Qed.

Lemma markSameFilename_length (nodes : list FilechangeNode) :
  length (markSameFilename nodes) = length nodes.
Proof. apply length_imap. Qed.

Lemma sharedFilename_elem_of (nodes : list FilechangeNode) (i : nat) (name : string) :
  sharedFilename nodes i name <-> exists m, m ∈ delete i nodes /\ filename m = name.
Proof.
  unfold sharedFilename. split.
  - intros (j & m & Hne & Hj & Hname). exists m. split; [|exact Hname].
    apply elem_of_delete. eauto.
  - intros (m & Hm & Hname). apply elem_of_delete in Hm as (j & Hne & Hj). eauto.
Qed.

(** Sharing a file name with another node does not depend on the order
    of the array. *)
Lemma sharedFilename_Permutation (xs ys : list FilechangeNode) (i i' : nat)
    (n : FilechangeNode) (name : string) :
  Permutation xs ys -> xs !! i = Some n -> ys !! i' = Some n ->
  sharedFilename xs i name <-> sharedFilename ys i' name.
Proof.
  intros Hperm Hi Hi'.
  assert (Hdel : Permutation (delete i xs) (delete i' ys)).
  { apply (Permutation_cons_inv (a := n)).
    rewrite <- (delete_Permutation xs i n Hi), <- (delete_Permutation ys i' n Hi').
    exact Hperm. }
  rewrite !sharedFilename_elem_of.
  split; intros (m & Hm & Hname); exists m; split; try exact Hname.
  - now rewrite <- Hdel.
  - now rewrite Hdel.
Qed.

Lemma sharedFilename_marked (nodes : list FilechangeNode) (i : nat) (name : string) :
  sharedFilename (markSameFilename nodes) i name <-> sharedFilename nodes i name.
Proof.
  unfold sharedFilename. split.
  - intros (j & m' & Hne & Hj & Hname).
    apply markSameFilename_lookup in Hj as (m & Hm & _ & Hfile & _).
    exists j, m. repeat split; congruence.
  - intros (j & m & Hne & Hj & Hname).
    destruct (markSameFilename nodes !! j) as [m'|] eqn:Hm'.
    + destruct (markSameFilename_lookup _ _ _ Hm') as (m0 & Hm0 & _ & Hfile & _).
      exists j, m'. repeat split; congruence.
    + apply lookup_ge_None in Hm'. rewrite markSameFilename_length in Hm'.
      apply lookup_lt_Some in Hj. lia.
Qed.

(** After lines 335-346 a node of a diff shows its directory exactly
    when another node has its file name. *)
Lemma marked_changeNodes (diff : Diff) (i : nat) (n : FilechangeNode) :
  markSameFilename (changeNodes diff) !! i = Some n ->
  filename n = Path.basename (resolvedPath n) /\
  (shouldShowPathInDescription n = true <->
   sharedFilename (markSameFilename (changeNodes diff)) i (filename n)).
Proof.
  intros Hn. destruct (markSameFilename_lookup _ _ _ Hn) as (n0 & Hn0 & Hpath & Hfile & Hflag).
  assert (Hnew : exists q, n0 = newNode q).
  { rewrite changeNodes_paths in Hn0.
    apply list_lookup_fmap_Some in Hn0 as (q & -> & _). eauto. }
  destruct Hnew as (q & ->).
  cbn [newNode filename resolvedPath shouldShowPathInDescription] in Hpath, Hfile, Hflag.
  split; [congruence|].
  rewrite sharedFilename_marked, Hfile, Hflag.
  split; [intros [Hfalse|H]; [discriminate | exact H] | now right].
Qed.

Lemma map_imap_ext {A B : Type} (h : A -> B) (g : nat -> A -> A) (xs : list A) :
  (forall i x, h (g i x) = h x) -> map h (imap g xs) = map h xs.
Proof.
  revert g. induction xs as [|x xs IH]; intros g Hg; [reflexivity|].
  rewrite imap_cons. cbn [map]. rewrite Hg. f_equal. apply IH. intros i y. apply Hg.
Qed.

Lemma markSameFilename_paths (nodes : list FilechangeNode) :
  map resolvedPath (markSameFilename nodes) = map resolvedPath nodes.
Proof.
  apply map_imap_ext. intros i n. cbv beta zeta. now case_match.
Qed.

Lemma description_shown (n : FilechangeNode) :
  (description n = Some (Path.dirname (resolvedPath n)) <->
   shouldShowPathInDescription n = true) /\
  (description n = None <-> shouldShowPathInDescription n <> true).
Proof.
  unfold description. destruct (shouldShowPathInDescription n); repeat split;
    congruence.
Qed.

(** C7, as the code has it.  The list of changed files of a diff holds
    a node per changed path, and a node shows its directory exactly
    when another node of the list has the same file name, and shows
    none otherwise.  The list is in the order [localeCompare] gives the
    full paths, whatever that collation of the host is, as long as it
    is a consistent comparator: no node is listed behind one that
    [localeCompare] puts after it. *)
Theorem filechangeNodes_directory_iff_shared_filename :
  forall (localeCompare : string -> string -> Z) (diff : Diff),
    (forall a b, (0 < localeCompare a b)%Z -> (localeCompare b a <= 0)%Z) ->
    (forall a b c, (localeCompare a b <= 0)%Z -> (localeCompare b c <= 0)%Z ->
                   (localeCompare a c <= 0)%Z) ->
    let nodes := filechangeNodes localeCompare diff in
    Permutation (map resolvedPath nodes) (paths diff) /\
    StronglySorted
      (fun n1 n2 => (localeCompare (resolvedPath n1) (resolvedPath n2) <= 0)%Z) nodes /\
    (forall i n, nodes !! i = Some n ->
       filename n = Path.basename (resolvedPath n) /\
       (description n = Some (Path.dirname (resolvedPath n))
        <-> sharedFilename nodes i (filename n)) /\
       (description n = None <-> ~ sharedFilename nodes i (filename n))).
Proof.
  intros localeCompare diff Htotal Htrans nodes.
  set (cmp := fun n1 n2 => localeCompare (resolvedPath n1) (resolvedPath n2)).
  assert (Hperm : Permutation nodes (markSameFilename (changeNodes diff)))
    by apply sort_Permutation.
  split; [|split].
  - rewrite Hperm, markSameFilename_paths, changeNodes_paths, map_map. cbn.
    now rewrite map_id.
  - apply (sort_sorted cmp); unfold Js.before, cmp.
    + intros a b. apply Htotal.
    + intros a b c. apply Htrans.
  - intros i n Hn.
    assert (Hin : n ∈ markSameFilename (changeNodes diff))
      by (rewrite <- Hperm; eapply list_elem_of_lookup_2; exact Hn).
    apply list_elem_of_lookup_1 in Hin as [i0 Hi0].
    destruct (marked_changeNodes diff i0 n Hi0) as [Hfile Hflag].
    pose proof (sharedFilename_Permutation _ _ i i0 n (filename n) Hperm Hn Hi0) as Hshared.
    destruct (description_shown n) as [Hsome Hnone].
    split; [exact Hfile|]. rewrite Hsome, Hnone, Hflag, Hshared. tauto.
Qed.

Lemma compareCodes_total (a b : string) :
  (0 < compareCodes a b)%Z -> (compareCodes b a <= 0)%Z.
Proof.
  unfold compareCodes. rewrite (String.compare_antisym b a).
  destruct (String.compare a b); cbn; lia.
Qed.

Lemma compareCodes_before (a b : string) :
  (compareCodes a b <= 0)%Z <-> String_as_OT.lt a b \/ a = b.
Proof.
  unfold compareCodes. destruct (String.compare a b) eqn:Hc.
  - apply String_as_OT.cmp_eq in Hc. split; [now right | lia].
  - apply String_as_OT.cmp_lt in Hc. split; [now left | lia].
  - split; [lia|]. intros [Hlt| ->].
    + apply String_as_OT.cmp_lt in Hlt. unfold String_as_OT.cmp in Hlt. congruence.
    + assert (Heq : String_as_OT.cmp b b = Eq) by now apply String_as_OT.cmp_eq.
      unfold String_as_OT.cmp in Heq. congruence.
Qed.

Lemma compareCodes_trans (a b c : string) :
  (compareCodes a b <= 0)%Z -> (compareCodes b c <= 0)%Z -> (compareCodes a c <= 0)%Z.
Proof.
  rewrite !compareCodes_before. intros [Hab| ->] [Hbc| ->]; auto.
  left. eapply String_as_OT.lt_trans; eassumption.
Qed.

Lemma filechangeNodes_witness :
  exists n,
    filechangeNodes compareCodes (Sample.modifying ["src/a.ts"; "lib/a.ts"]) !! 0%nat = Some n /\
    resolvedPath n = "lib/a.ts" /\ description n = Some "lib".
Proof.
  destruct (filechangeNodes_directory_iff_shared_filename compareCodes
              (Sample.modifying ["src/a.ts"; "lib/a.ts"])
              compareCodes_total compareCodes_trans) as (_ & _ & Hnodes).
  eexists. split; [reflexivity|]. split; [reflexivity|].
  apply (Hnodes 0%nat); [reflexivity|].
  eexists 1%nat, _. split; [discriminate|]. split; reflexivity.
Defined.

(** C7 as stated fails on the order of the list: with the collation of
    the host, which puts letters in alphabetical order whatever their
    case, [index.ts] is listed before [README.md], while in the
    lexicographic order of the paths, character by character,
    [README.md] comes first. *)
Lemma filechangeNodes_not_in_lexicographic_order :
  let nodes := filechangeNodes Collation.localeCompare
                 (Sample.modifying ["README.md"; "index.ts"]) in
  map resolvedPath nodes = ["index.ts"; "README.md"] /\
  String.compare "README.md" "index.ts" = Lt /\
  ~ StronglySorted (fun a b => (compareCodes a b <= 0)%Z) (map resolvedPath nodes).
Proof.
  split; [reflexivity|]. split; [reflexivity|].
  intros Hsorted. apply StronglySorted_inv in Hsorted as [_ Hfirst].
  apply Forall_inv in Hfirst. vm_compute in Hfirst. now apply Hfirst.
Qed.

(** One diff changing [src/a.ts] and [lib/a.ts], one changing
    [src/a.ts] only, under any collation. *)
Example src_a_and_lib_a (localeCompare : string -> string -> Z) :
  Permutation
    (map (fun n => (resolvedPath n, description n))
         (filechangeNodes localeCompare (Sample.modifying ["src/a.ts"; "lib/a.ts"])))
    [("src/a.ts", Some "src"); ("lib/a.ts", Some "lib")] /\
  map (fun n => (resolvedPath n, description n))
      (filechangeNodes localeCompare (Sample.modifying ["src/a.ts"]))
  = [("src/a.ts", None)].
Proof.
  split; [|reflexivity].
  unfold filechangeNodes. cbn.
  destruct (localeCompare "src/a.ts" "lib/a.ts" <=? 0)%Z; cbn; [reflexivity | apply perm_swap].
Qed.

End ChangedFiles.

(** * Further properties *)

(** ** Looking patches up *)

Section Lookup.

Import PatchStore.

Lemma append_assoc (x y z : string) : ((x ++ y) ++ z = x ++ (y ++ z))%string.
Proof.
  induction x as [|c x IH]; [reflexivity|].
  change (String c ((x ++ y) ++ z) = String c (x ++ (y ++ z)))%string. now rewrite IH.
Qed.

Lemma length_append (x y : string) :
  String.length (x ++ y) = (String.length x + String.length y)%nat.
Proof.
  induction x as [|c x IH]; [reflexivity|].
  change (S (String.length (x ++ y)) = S (String.length x + String.length y)).
  now rewrite IH.
Qed.

Lemma prefix_false_append (p x z : string) :
  String.prefix p x = false -> (String.length p <= String.length x)%nat ->
  String.prefix p (x ++ z) = false.
Proof.
  revert x. induction p as [|a p IH]; intros x H Hlen; [destruct x; discriminate|].
  destruct x as [|b x]; [cbn in Hlen; lia|].
  change (String b x ++ z)%string with (String b (x ++ z)).
  cbn [String.prefix] in *. cbn [String.length] in Hlen.
  destruct (ascii_dec a b); [apply IH; [exact H | lia] | reflexivity].
Qed.

(** The pattern matches at the leftmost [patch/]. *)
Lemma matchHexCharsAfterPatch_leftmost (pre rest : string) :
  Js.includes (pre ++ "patch") "patch/" = false ->
  matchHexCharsAfterPatch (pre ++ "patch/" ++ rest) = Some (hexRun rest).
Proof.
  induction pre as [|c pre IH]; intros H; [reflexivity|].
  change (String c pre ++ "patch")%string with (String c (pre ++ "patch")) in H.
  cbn [Js.includes] in H. apply orb_false_iff in H as [Hp Hi].
  change (String c pre ++ "patch/" ++ rest)%string
    with (String c (pre ++ "patch/" ++ rest)).
  cbn [matchHexCharsAfterPatch]. rewrite dropPrefix_None; [now apply IH|].
  change (String c (pre ++ "patch/" ++ rest))
    with (String c pre ++ ("patch" ++ ("/" ++ rest)))%string.
  rewrite <- append_assoc. apply prefix_false_append; [exact Hp|].
  rewrite length_append. cbn. lia.
Qed.

(** X1.  [findPatchById] answers the first patch of the collection
    whose id contains the fragment: the patch it answers is in the
    collection, its id contains the fragment, and no patch in front of
    it does; it answers [undefined] exactly when no cached id contains
    the fragment. *)
Theorem findPatchById_first_containing :
  forall (s : Store) (fragment : string),
    (forall l, findPatchById s fragment = Some l ->
       exists before after p,
         patches s = Some (before ++ l :: after) /\ patch_at s l = Some p /\
         Js.includes (patch_id (aug_patch p)) fragment = true /\
         Forall (fun l' => forall q, patch_at s l' = Some q ->
                   Js.includes (patch_id (aug_patch q)) fragment = false) before) /\
    (findPatchById s fragment = None <->
     forall ps l q, patches s = Some ps -> l ∈ ps -> patch_at s l = Some q ->
                    Js.includes (patch_id (aug_patch q)) fragment = false).
Proof.
  intros s fragment. split.
  - intros l Hfind.
    apply findPatchById_Some in Hfind as (ps & before & after & p & Hps & -> & Hb & Hl & Hi).
    exists before, after, p. repeat split; try assumption.
    eapply Forall_impl; [exact Hb|]. intros l' Hl' q Hq.
    unfold id_includes, patch_at in *. now rewrite Hq in Hl'.
  - unfold findPatchById. destruct (patches s) as [ps|]; [|split; [discriminate | reflexivity]].
    rewrite find_None, Forall_forall. split.
    + intros H ps' l q [= <-] Hl Hq. specialize (H l Hl).
      unfold id_includes, patch_at in *. now rewrite Hq in H.
    + intros H l Hl. unfold id_includes.
      destruct (heap s !! l) as [q|] eqn:Hq; [|reflexivity]. now apply (H ps l q).
Qed.

(** X2.  On a branch name that reads [patch/] somewhere, the
    checked-out patch is looked up with the hexadecimal digits that
    follow the leftmost [patch/], up to the first character that is
    none; when no digit follows it the result is [undefined], whatever
    the rest of the name. *)
Theorem checkedOutPatch_leftmost_fragment :
  forall (prev : option loc) (s : Store) (pre rest : string),
    Js.includes (pre ++ "patch") "patch/" = false ->
    fst (checkedOutPatch prev (Some (pre ++ "patch/" ++ rest)%string) s)
    = if String.eqb (hexRun rest) "" then None else findPatchById s (hexRun rest).
Proof.
  intros prev s pre rest H. unfold checkedOutPatch. cbn [fst].
  rewrite (matchHexCharsAfterPatch_leftmost pre rest H). unfold Js.truthy.
  destruct (String.eqb (hexRun rest) ""); reflexivity.
Qed.

Lemma checkedOutPatch_leftmost_witness :
  fst (checkedOutPatch None (Some "patch/wip/patch/ab12cd34")
         (Sample.cache ["ab12cd34ff"])) = None /\
  fst (checkedOutPatch None (Some "alice/patch/ab12cd34-rebased")
         (Sample.cache ["0123456789"; "ab12cd34ff"])) = Some 1%nat.
Proof.
  split.
  - apply (checkedOutPatch_leftmost_fragment None (Sample.cache ["ab12cd34ff"])
             "" "wip/patch/ab12cd34"). reflexivity.
  - apply (checkedOutPatch_leftmost_fragment None
             (Sample.cache ["0123456789"; "ab12cd34ff"]) "alice/" "ab12cd34-rebased").
    reflexivity.
Defined.

End Lookup.

(** ** The operations of the store, interleaved *)

Section Interleaving.

Import PatchStore Loop Cache StoreOps.

Lemma refetchPatch_store {N : Type} `{RadicleNodeConnection N} (conn : N)
    (now_ms : Z) (patchId : string) (s : Store) :
  snd (refetchPatch conn now_ms patchId s) = s \/
  exists fetchedPatch, snd (refetchPatch conn now_ms patchId s)
                       = merge (seconds now_ms) fetchedPatch s.
Proof.
  unfold refetchPatch.
  destruct (getCurrentProjectId conn) as [ridResult|]; [|now left].
  destruct (data ridResult) as [rid|]; [|now left].
  destruct (negb (Js.truthy (Some rid))); [now left|].
  destruct (fetchPatch conn rid patchId) as [patchResult|]; [|now left].
  destruct (error patchResult); [now left|].
  destruct (data patchResult) as [fetchedPatch|]; [|now left].
  right. now exists fetchedPatch.
Qed.

Lemma merge_frame (nowTs : Q) (fetchedPatch : Patch) (s : Store) :
  inProgressRequest (merge nowTs fetchedPatch s) = inProgressRequest s /\
  lastFetchedTs (merge nowTs fetchedPatch s) = lastFetchedTs s.
Proof.
  unfold merge. destruct (findPatchById s (patch_id fetchedPatch)); split; reflexivity.
Qed.

Lemma refetchPatch_frame {N : Type} `{RadicleNodeConnection N} (conn : N)
    (now_ms : Z) (patchId : string) (s : Store) :
  inProgressRequest (snd (refetchPatch conn now_ms patchId s)) = inProgressRequest s /\
  lastFetchedTs (snd (refetchPatch conn now_ms patchId s)) = lastFetchedTs s.
Proof.
  destruct (refetchPatch_store conn now_ms patchId s) as [->|[d ->]];
    [split; reflexivity | apply merge_frame].
Qed.

(** *** References stay distinct and allocated *)







(** *** One request at a time *)






(** *** What a settling batch meets *)

(** While a request is in flight the steps other than its settlement
    leave the request, the time of the last fetch and the suspended
    calls as they are; further calls suspend on the request. *)
Lemma applyOp_in_flight (w : World) (op : Op) (p : nat) (rid : RID) :
  inProgressRequest (store w) = Some p ->
  requests w !! p = Some (mkRequest rid None) -> ~ isSettle op ->
  inProgressRequest (store (applyOp w op)) = Some p /\
  requests (applyOp w op) = requests w /\
  lastFetchedTs (store (applyOp w op)) = lastFetchedTs (store w) /\
  exists extras, calls (applyOp w op) = calls w ++ extras /\
                 Forall (fun c => c = AwaitInProgress p) extras.
Proof.
  intros Hbusy Hp Hop.
  assert (Hinvoke : forall now_ms memo conn,
             inProgressRequest (store (invoke now_ms memo conn w)) = Some p /\
             requests (invoke now_ms memo conn w) = requests w /\
             lastFetchedTs (store (invoke now_ms memo conn w)) = lastFetchedTs (store w) /\
             exists extras, calls (invoke now_ms memo conn w) = calls w ++ extras /\
                            Forall (fun c => c = AwaitInProgress p) extras).
  { intros now_ms memo conn. rewrite (invoke_coalesces now_ms memo conn w p rid Hbusy Hp).
    cbn. repeat split; try assumption. exists [AwaitInProgress p]. now repeat constructor. }
  assert (Hsame : forall s', inProgressRequest s' = inProgressRequest (store w) ->
                             lastFetchedTs s' = lastFetchedTs (store w) ->
             inProgressRequest (store (withStore s' w)) = Some p /\
             requests (withStore s' w) = requests w /\
             lastFetchedTs (store (withStore s' w)) = lastFetchedTs (store w) /\
             exists extras, calls (withStore s' w) = calls w ++ extras /\
                            Forall (fun c => c = AwaitInProgress p) extras).
  { intros s' H1 H2. cbn. repeat split; try congruence.
    exists []. now rewrite app_nil_r. }
  destruct op as [now_ms memo conn|q r|now_ms memo conn|N C conn now_ms patchId|];
    cbn [applyOp].
  - apply Hinvoke.
  - now destruct Hop.
  - unfold initStoreIfNeeded. destruct (patches (store w)); cbn [snd]; [|apply Hinvoke].
    repeat split; try assumption. exists []. now rewrite app_nil_r.
  - apply Hsame; apply refetchPatch_frame.
  - now apply Hsame.
Qed.

Lemma runOps_in_flight (mid : list Op) (w : World) (p : nat) (rid : RID) :
  inProgressRequest (store w) = Some p ->
  requests w !! p = Some (mkRequest rid None) -> Forall (fun op => ~ isSettle op) mid ->
  inProgressRequest (store (runOps w mid)) = Some p /\
  requests (runOps w mid) = requests w /\
  lastFetchedTs (store (runOps w mid)) = lastFetchedTs (store w) /\
  exists extras, calls (runOps w mid) = calls w ++ extras /\
                 Forall (fun c => c = AwaitInProgress p) extras.
Proof.
  intros Hbusy Hp Hmid. revert w Hbusy Hp.
  induction Hmid as [|op mid Hop _ IH]; intros w Hbusy Hp.
  - cbn. repeat split; try assumption. exists []. now rewrite app_nil_r.
  - destruct (applyOp_in_flight w op p rid Hbusy Hp Hop) as (Hb1 & Hr1 & Ht1 & ex1 & Hc1 & Hf1).
    assert (Hp1 : requests (applyOp w op) !! p = Some (mkRequest rid None)) by now rewrite Hr1.
    destruct (IH (applyOp w op) Hb1 Hp1) as (Hb2 & Hr2 & Ht2 & ex2 & Hc2 & Hf2).
    change (runOps w (op :: mid)) with (runOps (applyOp w op) mid).
    repeat split; try congruence.
    exists (ex1 ++ ex2). split; [|now apply Forall_app].
    now rewrite Hc2, Hc1, <- app_assoc.
Qed.

Lemma resumeAll_waiting (p : nat) (r : Outcome Responses) (extras : list Call) (s : Store) :
  Forall (fun c => c = AwaitInProgress p) extras ->
  snd (resumeAll p r extras s) = s.
Proof.
  induction 1 as [|c extras -> _ IH]; [reflexivity|].
  cbn [resumeAll resume]. rewrite Nat.eqb_refl.
  destruct (resumeAll p r extras s) as [cs s']. cbn in *. exact IH.
Qed.

(** The store and the issuing call once the batch settles, whatever
    happened to the store while it was in flight. *)
Lemma settle_after_interleaving (w : World) (now_ms : Z) (rid : RID)
    (a : NodeConnection.Adapter) (mid : list Op) (r : Outcome Responses) :
  consistent w -> inProgressRequest (store w) = None -> rid <> "" ->
  Forall (fun op => ~ isSettle op) mid ->
  let before := runOps w (OpInvoke now_ms (Some rid) (Return a) :: mid) in
  let s0 := mkStore (heap (store before)) (patches (store before))
                    (prevCheckedOutPatch (store before)) (Some (seconds now_ms)) None in
  store (applyOp before (OpSettle (length (requests w)) r))
  = match r with
    | Return responses => snd (receive (seconds now_ms) responses s0)
    | Throw _ => s0
    end /\
  calls (applyOp before (OpSettle (length (requests w)) r)) !! length (calls w)
  = Some (Finished (issuerOutcome r)).
Proof.
  intros Hw Hidle Hrid Hmid before s0.
  assert (Hfin : Forall finished (calls w))
    by (unfold consistent in Hw; rewrite Hidle in Hw; tauto).
  set (w1 := invoke now_ms (Some rid) (Return a) w).
  assert (Hw1 : w1 = mkWorld (mkStore (heap (store w)) (patches (store w))
                    (prevCheckedOutPatch (store w)) (Some (seconds now_ms))
                    (Some (length (requests w))))
                  (requests w ++ [mkRequest rid None])
                  (calls w ++ [AwaitResponses (length (requests w)) (seconds now_ms)]))
    by now apply invoke_issues.
  assert (Hp : requests w1 !! length (requests w) = Some (mkRequest rid None))
    by (rewrite Hw1; now apply list_lookup_middle).
  assert (Hbusy : inProgressRequest (store w1) = Some (length (requests w)))
    by now rewrite Hw1.
  destruct (runOps_in_flight mid w1 _ rid Hbusy Hp Hmid)
    as (Hb & Hr & Ht & extras & Hc & Hex).
  change (runOps w1 mid) with before in Hb, Hr, Ht, Hc.
  assert (Hc1 : calls w1 = calls w ++ [AwaitResponses (length (requests w)) (seconds now_ms)])
    by now rewrite Hw1.
  assert (Ht1 : lastFetchedTs (store w1) = Some (seconds now_ms)) by now rewrite Hw1.
  rewrite Hc1 in Hc. rewrite Ht1 in Ht. rewrite <- Hr in Hp. clear Hw1 Hc1 Ht1 Hbusy Hr.
  clearbody w1.
  cbn [applyOp]. rewrite (settle_pending _ r before rid Hp). cbn zeta.
  rewrite Ht, Hc. fold s0.
  rewrite <- app_assoc, resumeAll_app, (resumeAll_finished _ _ _ _ Hfin).
  cbn [app resumeAll resume]. rewrite Nat.eqb_refl.
  destruct r as [responses|e].
  - rewrite receive_spec. cbn [issuerOutcome].
    destruct (allSucceeded responses).
    + match goal with |- context [resumeAll ?p ?r extras ?s] =>
        pose proof (resumeAll_waiting p r extras s Hex) as Hs;
        destruct (resumeAll p r extras s) as [cs s2] end.
      cbn in Hs. subst s2. cbn [store calls snd]. split; [reflexivity|].
      now rewrite list_lookup_middle.
    + pose proof (resumeAll_waiting _ (Return responses) extras s0 Hex) as Hs.
      destruct (resumeAll _ _ extras s0) as [cs s2]. cbn in Hs. subst s2.
      cbn [store calls snd]. split; [reflexivity|]. now rewrite list_lookup_middle.
  - pose proof (resumeAll_waiting _ (Throw e) extras s0 Hex) as Hs.
    destruct (resumeAll _ _ extras s0) as [cs s2]. cbn in Hs. subst s2.
    cbn [store calls]. split; [reflexivity|]. now rewrite list_lookup_middle.
Qed.

(** X4.  Whatever [refetchPatch], [resetAllPatches] and further calls
    did to the store while a batch was in flight: when the batch is
    delivered without error the collection becomes exactly the patches
    of the batch, the [lastFetchedTs] of each being the time at which
    the batch was requested, so a patch merged meanwhile is gone or
    back to an older time; when the batch fails the collection is left
    as those steps made it. *)
Theorem batch_overrides_what_was_merged_meanwhile :
  forall (w : World) (now_ms : Z) (rid : RID) (a : NodeConnection.Adapter)
         (mid : list Op) (r : Outcome Responses),
    consistent w -> inProgressRequest (store w) = None -> rid <> "" ->
    Forall (fun op => ~ isSettle op) mid ->
    let before := runOps w (OpInvoke now_ms (Some rid) (Return a) :: mid) in
    let after := applyOp before (OpSettle (length (requests w)) r) in
    calls after !! length (calls w) = Some (Finished (issuerOutcome r)) /\
    (forall responses, r = Return responses -> allSucceeded responses = true ->
       exists ps,
         contents (store after) = Some ps /\
         map aug_patch ps = fetched responses /\
         Forall (fun p => aug_lastFetchedTs p = seconds now_ms) ps) /\
    (issuerOutcome r <> Return true ->
       patches (store after) = patches (store before) /\
       heap (store after) = heap (store before)).
Proof.
  intros w now_ms rid a mid r Hw Hidle Hrid Hmid before after.
  destruct (settle_after_interleaving w now_ms rid a mid r Hw Hidle Hrid Hmid)
    as [Hstore Hcall].
  fold before in Hstore, Hcall. fold after in Hstore, Hcall.
  split; [exact Hcall|]. rewrite Hstore. split.
  - intros responses -> Hok. rewrite receive_spec, Hok. cbn.
    exists (map (augment (seconds now_ms)) (fetched responses)).
    split; [|apply augment_stamps].
    unfold contents, patch_at. cbn. f_equal.
    rewrite <- (length_map (augment (seconds now_ms)) (fetched responses)).
    apply omap_fresh.
  - intros Hfail. destruct r as [responses|e]; [|split; reflexivity].
    rewrite receive_spec. cbn in Hfail.
    destruct (allSucceeded responses); [congruence | split; reflexivity].
Qed.

Lemma batch_overrides_witness :
  let before := runOps (start empty)
                  [OpInvoke 1000 (Some Sample.rid) (Return Sample.adapter);
                   OpRefetch NAPINode _ (Sample.napi (Sample.patch "ab12cd34ff")) 2000
                             "ab12cd34ff"] in
  let after := applyOp before
                 (OpSettle 0 (Return [Sample.succeeded [Sample.patch "0123456789"]])) in
  contents (store before)
  = Some [mkAugmentedPatch (Sample.patch "ab12cd34ff") (seconds 2000)] /\
  exists ps,
    contents (store after) = Some ps /\
    map aug_patch ps = [Sample.patch "0123456789"] /\
    Forall (fun p => aug_lastFetchedTs p = seconds 1000) ps.
Proof.
  split; [reflexivity|].
  destruct (batch_overrides_what_was_merged_meanwhile (start empty) 1000 Sample.rid
              Sample.adapter
              [OpRefetch NAPINode _ (Sample.napi (Sample.patch "ab12cd34ff")) 2000
                         "ab12cd34ff"]
              (Return [Sample.succeeded [Sample.patch "0123456789"]])
              (consistent_start empty eq_refl) eq_refl ltac:(discriminate)
              ltac:(repeat constructor; intros []))
    as (_ & Hok & _).
  exact (Hok _ eq_refl eq_refl).
Defined.

Lemma merge_uninitialised (nowTs : Q) (fetchedPatch : Patch) (s : Store) :
  patches s = None ->
  patches (merge nowTs fetchedPatch s) = Some [length (heap s)] /\
  contents (merge nowTs fetchedPatch s) = Some [augment nowTs fetchedPatch].
Proof.
  intros Hnone. unfold merge, findPatchById, contents, patch_at. rewrite Hnone. cbn.
  split; [reflexivity|]. now rewrite list_lookup_middle.
Qed.

(** X5.  [initStoreIfNeeded] fetches only while the collection is
    [undefined]: once [refetchPatch] has had to create the collection
    for the one patch it fetched, or once a batch has been delivered,
    even one without patches, it resolves to [false] without a request
    and without a change, so the cache is not completed. *)
Theorem initStoreIfNeeded_not_after_first_write :
  forall (w : World) (now_ms : Z) (memo : option RID)
         (conn : Outcome NodeConnection.Adapter),
    (forall (N : Type) (C : RadicleNodeConnection N) (c : N) (t : Z) (patchId : string)
            (fetchedPatch : Patch),
        delivers c patchId fetchedPatch -> patches (store w) = None ->
        let w1 := applyOp w (OpRefetch N C c t patchId) in
        contents (store w1) = Some [augment (seconds t) fetchedPatch] /\
        initStoreIfNeeded now_ms memo conn w1 = (NotNeeded, w1)) /\
    (forall (t : Z) (rid : RID) (a : NodeConnection.Adapter) (responses : Responses),
        consistent w -> inProgressRequest (store w) = None -> rid <> "" ->
        allSucceeded responses = true ->
        let w1 := run w [Invoke t (Some rid) (Return a);
                         Settle (length (requests w)) (Return responses)] in
        initStoreIfNeeded now_ms memo conn w1 = (NotNeeded, w1)) /\
    (patches (store w) = None ->
     initStoreIfNeeded now_ms memo conn w
     = (Fetching (length (calls w)), invoke now_ms memo conn w)).
Proof.
  intros w now_ms memo conn. split; [|split].
  - intros N C c t patchId d Hdel Hnone w1. subst w1. cbn [applyOp].
    rewrite (refetchPatch_delivers c t patchId d) by exact Hdel. cbn [snd].
    destruct (merge_uninitialised (seconds t) d (store w) Hnone) as [Hp Hc].
    split; [exact Hc|]. unfold initStoreIfNeeded. cbn [store withStore]. now rewrite Hp.
  - intros t rid a responses Hw Hidle Hrid Hok w1. subst w1.
    assert (Hfin : Forall finished (calls w))
      by (unfold consistent in Hw; rewrite Hidle in Hw; tauto).
    pose proof (round w t rid a [] (Return responses) Hidle Hfin Hrid) as Hround.
    cbn [map app] in Hround. rewrite Hround. unfold initStoreIfNeeded. cbn [store].
    unfold afterRound. rewrite receive_spec, Hok. reflexivity.
  - intros Hnone. unfold initStoreIfNeeded. now rewrite Hnone.
Qed.

Lemma initStoreIfNeeded_witness :
  let w1 := applyOp (start empty)
              (OpRefetch NAPINode _ (Sample.napi (Sample.patch "ab12cd34ff")) 1000
                         "ab12cd34ff") in
  contents (store w1) = Some [augment (seconds 1000) (Sample.patch "ab12cd34ff")] /\
  initStoreIfNeeded 2000 (Some Sample.rid) (Return Sample.adapter) w1 = (NotNeeded, w1).
Proof.
  apply (proj1 (initStoreIfNeeded_not_after_first_write (start empty) 2000
                  (Some Sample.rid) (Return Sample.adapter))
               NAPINode _ (Sample.napi (Sample.patch "ab12cd34ff")) 1000%Z "ab12cd34ff"
               (Sample.patch "ab12cd34ff")); [|reflexivity].
  exists (mkResult (Some Sample.rid) None), Sample.rid,
         (mkResult (Some (Sample.patch "ab12cd34ff")) None).
  repeat split. discriminate.
Defined.

Lemma afterRound_idle (now_ms : Z) (r : Outcome Responses) (s : Store) :
  inProgressRequest (afterRound now_ms r s) = None.
Proof.
  unfold afterRound. destruct r as [responses|e]; [|reflexivity].
  now rewrite (proj2 (receive_frame _ _ _)).
Qed.

(** X6.  However the batch of one call ends, delivered with or without
    errors or rejected, the request in flight is forgotten: the next
    call of [fetchAllPatches] issues a new batch request, and so does
    [initStoreIfNeeded] when the collection was and, the batch having
    failed, still is [undefined]. *)
Theorem fetchAllPatches_issues_again_after_any_outcome :
  forall (w : World) (now_ms : Z) (rid : RID) (a : NodeConnection.Adapter)
         (later : list (Z * option RID * Outcome NodeConnection.Adapter))
         (r : Outcome Responses) (now_ms' : Z) (rid' : RID) (a' : NodeConnection.Adapter),
    consistent w -> inProgressRequest (store w) = None -> rid <> "" -> rid' <> "" ->
    let w1 := run w (Invoke now_ms (Some rid) (Return a)
                       :: map invocation later ++ [Settle (length (requests w)) r]) in
    inProgressRequest (store w1) = None /\
    requests (invoke now_ms' (Some rid') (Return a') w1)
    = requests w ++ [mkRequest rid (Some r); mkRequest rid' None] /\
    (patches (store w) = None -> issuerOutcome r <> Return true ->
     snd (initStoreIfNeeded now_ms' (Some rid') (Return a') w1)
     = invoke now_ms' (Some rid') (Return a') w1).
Proof.
  intros w now_ms rid a later r now_ms' rid' a' Hw Hidle Hrid Hrid' w1. subst w1.
  assert (Hfin : Forall finished (calls w))
    by (unfold consistent in Hw; rewrite Hidle in Hw; tauto).
  rewrite (round w now_ms rid a later r Hidle Hfin Hrid).
  split; [apply afterRound_idle|]. split.
  - rewrite invoke_issues; [|apply afterRound_idle|exact Hrid'].
    cbn [requests]. now rewrite <- app_assoc.
  - intros Hnone Hfail. unfold initStoreIfNeeded. cbn [store].
    destruct (afterRound_failed now_ms r (store w) Hfail) as [Hp _].
    now rewrite Hp, Hnone.
Qed.

Lemma fetchAllPatches_issues_again_witness :
  let w1 := run (start empty)
              [Invoke 1000 (Some Sample.rid) (Return Sample.adapter);
               Settle 0 (Throw "ECONNRESET")] in
  requests (invoke 2000 (Some Sample.rid) (Return Sample.adapter) w1)
  = [mkRequest Sample.rid (Some (Throw "ECONNRESET")); mkRequest Sample.rid None].
Proof.
  destruct (fetchAllPatches_issues_again_after_any_outcome (start empty) 1000 Sample.rid
              Sample.adapter [] (Throw "ECONNRESET") 2000 Sample.rid Sample.adapter
              (consistent_start empty eq_refl) eq_refl
              ltac:(discriminate) ltac:(discriminate))
    as (_ & Hreq & _).
  exact Hreq.
Defined.

End Interleaving.

(** ** The store on top of each adapter *)

Section OnAdapters.

Import PatchStore Loop Cache StoreOps.

Lemma fetched_succeeded (lists : list (list Patch)) :
  fetched (map (fun ps => mkResult (Some ps) None) lists) = concat lists.
Proof.
  unfold fetched. induction lists as [|ps lists IH]; [reflexivity|].
  cbn. f_equal. exact IH.
Qed.

(** X7.  Through the wire adapter a call of [fetchAllPatches] asks the
    daemon for the draft, open, archived and merged patches of the
    project, 500 a page; when the four answers carry patches and no
    error the call resolves to [true] and the collection lists the
    patches status by status in that order, in the order of each
    answer, the [lastFetchedTs] of each being the time of the call. *)
Theorem fetchAllPatches_through_ClassicNode :
  forall (w : World) (now_ms : Z) (rid : RID) (a : NodeConnection.Adapter)
         (n : ClassicNode) (drafts opens archiveds mergeds : list Patch),
    consistent w -> inProgressRequest (store w) = None -> rid <> "" ->
    fetchPatches (httpd n) ("/projects/" ++ rid ++ "/patches")%string
                 [("state", "draft"); ("perPage", "500")]
    = Return (mkResult (Some drafts) None) ->
    fetchPatches (httpd n) ("/projects/" ++ rid ++ "/patches")%string
                 [("state", "open"); ("perPage", "500")]
    = Return (mkResult (Some opens) None) ->
    fetchPatches (httpd n) ("/projects/" ++ rid ++ "/patches")%string
                 [("state", "archived"); ("perPage", "500")]
    = Return (mkResult (Some archiveds) None) ->
    fetchPatches (httpd n) ("/projects/" ++ rid ++ "/patches")%string
                 [("state", "merged"); ("perPage", "500")]
    = Return (mkResult (Some mergeds) None) ->
    let w' := run w [Invoke now_ms (Some rid) (Return a);
                     Settle (length (requests w)) (fetchAllPatches n rid)] in
    calls w' !! length (calls w) = Some (Finished (Return true)) /\
    exists ps,
      contents (store w') = Some ps /\
      map aug_patch ps = drafts ++ opens ++ archiveds ++ mergeds /\
      Forall (fun p => aug_lastFetchedTs p = seconds now_ms) ps.
Proof.
  intros w now_ms rid a n ds os ars ms Hw Hidle Hrid Hd Ho Ha Hm w'. subst w'.
  assert (Hall : fetchAllPatches n rid
                 = Return (map (fun ps => mkResult (Some ps) None) [ds; os; ars; ms])).
  { change (fetchAllPatches n rid) with (ClassicNode_fetchAllPatches n rid).
    unfold ClassicNode_fetchAllPatches, patchesPath, stateQuery.
    now rewrite Hd, Ho, Ha, Hm. }
  rewrite Hall.
  assert (Hfin : Forall finished (calls w))
    by (unfold consistent in Hw; rewrite Hidle in Hw; tauto).
  pose proof (round w now_ms rid a []
                (Return (map (fun ps => mkResult (Some ps) None) [ds; os; ars; ms]))
                Hidle Hfin Hrid) as Hround.
  cbn [map app] in Hround. cbn [map]. rewrite Hround. cbn [calls store].
  rewrite list_lookup_middle by reflexivity. split; [reflexivity|].
  destruct (afterRound_succeeded now_ms
              [mkResult (Some ds) None; mkResult (Some os) None;
               mkResult (Some ars) None; mkResult (Some ms) None] (store w) eq_refl)
    as (_ & _ & Hc).
  exists (map (augment (seconds now_ms)) (ds ++ os ++ ars ++ ms)).
  split; [|apply augment_stamps].
  etransitivity; [exact Hc|]. do 2 f_equal. unfold fetched. cbn. now rewrite app_nil_r.
Qed.

Lemma fetchAllPatches_through_ClassicNode_witness :
  let n := Sample.classic (Sample.httpdWith (Sample.patch "ab12cd34ff")) in
  let w' := run (start (Sample.cache ["0123456789"]))
              [Invoke 1000 (Some Sample.rid) (Return Sample.adapter);
               Settle 0 (fetchAllPatches n Sample.rid)] in
  calls w' !! 0%nat = Some (Finished (Return true)) /\
  exists ps,
    contents (store w') = Some ps /\
    map aug_patch ps = [Sample.patch "ab12cd34ff"] /\
    Forall (fun p => aug_lastFetchedTs p = seconds 1000) ps.
Proof.
  apply (fetchAllPatches_through_ClassicNode (start (Sample.cache ["0123456789"])) 1000
           Sample.rid Sample.adapter
           (Sample.classic (Sample.httpdWith (Sample.patch "ab12cd34ff")))
           [] [Sample.patch "ab12cd34ff"] [] []
           (consistent_start (Sample.cache ["0123456789"]) eq_refl) eq_refl
           ltac:(discriminate) eq_refl eq_refl eq_refl eq_refl).
Defined.

(** X8.  Through the binding adapter a call of [fetchAllPatches] that
    finds no request in flight resolves to [false] only when the
    project id is not resolved, and then without a request and without
    a change of the store.  With the project id resolved it never
    resolves to [false]: when the binding answers, the call resolves to
    [true] and the collection is the patches of the binding in their
    order, the [lastFetchedTs] of each being the time of the call; when
    the binding throws, the call rejects with what was thrown and the
    collection and its objects are as before. *)
Theorem fetchAllPatches_through_NAPINode :
  forall (w : World) (now_ms : Z) (memo : option RID) (a : NodeConnection.Adapter)
         (n : NAPINode),
    consistent w -> inProgressRequest (store w) = None ->
    (Js.truthy memo = false ->
       invoke now_ms memo (Return a) w
       = mkWorld (store w) (requests w) (calls w ++ [Finished (Return false)])) /\
    (forall rid, memo = Some rid -> rid <> "" ->
       let w' := run w [Invoke now_ms memo (Return a);
                        Settle (length (requests w)) (fetchAllPatches n rid)] in
       calls w' !! length (calls w) <> Some (Finished (Return false)) /\
       (forall ps, napi_patches n rid = Return ps ->
          calls w' !! length (calls w) = Some (Finished (Return true)) /\
          exists stored,
            contents (store w') = Some stored /\
            map aug_patch stored = ps /\
            Forall (fun p => aug_lastFetchedTs p = seconds now_ms) stored) /\
       (forall e, napi_patches n rid = Throw e ->
          calls w' !! length (calls w) = Some (Finished (Throw e)) /\
          patches (store w') = patches (store w) /\ heap (store w') = heap (store w))).
Proof.
  intros w now_ms memo a n Hw Hidle. split.
  { intros Hmemo. unfold invoke. rewrite Hidle.
    destruct memo as [rid|]; [rewrite Hmemo|]; reflexivity. }
  intros rid -> Hrid w'. subst w'.
  assert (Hfin : Forall finished (calls w))
    by (unfold consistent in Hw; rewrite Hidle in Hw; tauto).
  pose proof (round w now_ms rid a [] (fetchAllPatches n rid) Hidle Hfin Hrid) as Hround.
  cbn [map app] in Hround. rewrite Hround. cbn [calls store].
  rewrite list_lookup_middle by reflexivity.
  change (fetchAllPatches n rid) with (NAPINode_fetchAllPatches n rid).
  unfold NAPINode_fetchAllPatches, dataOf.
  destruct (napi_patches n rid) as [ps|e]; cbn [issuerOutcome].
  - split; [discriminate|]. split; [|discriminate].
    intros ? [= <-]. split; [reflexivity|].
    destruct (afterRound_succeeded now_ms [mkResult (Some ps) None] (store w) eq_refl)
      as (_ & _ & Hc).
    exists (map (augment (seconds now_ms)) ps). split; [|apply augment_stamps].
    etransitivity; [exact Hc|]. do 2 f_equal. unfold fetched. cbn. now rewrite app_nil_r.
  - split; [discriminate|]. split; [discriminate|].
    intros ? [= <-]. split; [reflexivity|]. split; reflexivity.
Qed.

Lemma fetchAllPatches_through_NAPINode_witness :
  let w' := run (start empty)
              [Invoke 1000 (Some Sample.rid) (Return Sample.adapter);
               Settle 0 (fetchAllPatches (Sample.napi (Sample.patch "ab12cd34ff"))
                                         Sample.rid)] in
  calls w' !! 0%nat = Some (Finished (Return true)) /\
  exists stored,
    contents (store w') = Some stored /\
    map aug_patch stored = [Sample.patch "ab12cd34ff"] /\
    Forall (fun p => aug_lastFetchedTs p = seconds 1000) stored.
Proof.
  destruct (fetchAllPatches_through_NAPINode (start empty) 1000 (Some Sample.rid)
              Sample.adapter (Sample.napi (Sample.patch "ab12cd34ff"))
              (consistent_start empty eq_refl) eq_refl)
    as (_ & Hresolved).
  destruct (Hresolved Sample.rid eq_refl ltac:(discriminate)) as (_ & Hok & _).
  exact (Hok _ eq_refl).
Defined.

(** X9.  How [refetchPatch] fails on top of each adapter, the store
    being untouched in every case.  Through the binding adapter a
    failure is never an [error] of the daemon: without a workspace
    folder the call rejects with a [TypeError], and a thrown error of
    the binding rejects it.  Through the wire adapter a project id that
    is not resolved gives the fixed error [Failed resolving RID], not
    the error of the adapter; an [error] answered for the patch is
    returned as it is; a rejected request rejects the call. *)
Theorem refetchPatch_failures_through_adapters :
  forall (now_ms : Z) (patchId : string) (s : Store),
    (forall n : NAPINode,
        (workspaceFolders n = None \/ workspaceFolders n = Some [] ->
         refetchPatch n now_ms patchId s = (Throw "TypeError", s)) /\
        (forall fsPath rest rid e,
            workspaceFolders n = Some (fsPath :: rest) ->
            napi_ridAt n fsPath = Return rid -> rid <> "" ->
            napi_patch n rid patchId = Throw e ->
            refetchPatch n now_ms patchId s = (Throw e, s)) /\
        (forall r s', refetchPatch n now_ms patchId s = (Return r, s') ->
                      error r = None \/ error r = Some "Failed resolving RID")) /\
    (forall n : ClassicNode,
        (Js.truthy (memoizedGetCurrentProjectId n) = false ->
         refetchPatch n now_ms patchId s
         = (Return (mkResult None (Some "Failed resolving RID")), s)) /\
        (forall rid answer e,
            memoizedGetCurrentProjectId n = Some rid -> rid <> "" ->
            fetchOnePatch (httpd n) ("/projects/" ++ rid ++ "/patches/" ++ patchId)%string []
            = Return answer ->
            error answer = Some e ->
            refetchPatch n now_ms patchId s = (Return (mkResult None (Some e)), s)) /\
        (forall rid e,
            memoizedGetCurrentProjectId n = Some rid -> rid <> "" ->
            fetchOnePatch (httpd n) ("/projects/" ++ rid ++ "/patches/" ++ patchId)%string []
            = Throw e ->
            refetchPatch n now_ms patchId s = (Throw e, s))).
Proof.
  intros now_ms patchId s. split.
  - intros n. split; [|split].
    + intros [Hn|Hn]; unfold refetchPatch;
        change (getCurrentProjectId n) with (NAPINode_getCurrentProjectId n);
        unfold NAPINode_getCurrentProjectId; now rewrite Hn.
    + intros fsPath rest rid e Hn Hrid Hne Hp. unfold refetchPatch.
      change (getCurrentProjectId n) with (NAPINode_getCurrentProjectId n).
      unfold NAPINode_getCurrentProjectId. rewrite Hn, Hrid. cbn [dataOf data].
      unfold Js.truthy. destruct (String.eqb_spec rid ""); [contradiction|]. cbn [negb].
      change (fetchPatch n rid patchId) with (dataOf (napi_patch n rid patchId)).
      now rewrite Hp.
    + intros r s'. unfold refetchPatch.
      destruct (getCurrentProjectId n) as [ridResult|]; [|discriminate].
      destruct (data ridResult) as [rid|]; [|intros [= <- _]; now right].
      destruct (negb (Js.truthy (Some rid))); [intros [= <- _]; now right|].
      change (fetchPatch n rid patchId) with (dataOf (napi_patch n rid patchId)).
      destruct (napi_patch n rid patchId) as [fetchedPatch|]; [|discriminate].
      cbn. intros [= <- _]. now left.
  - intros n. split; [|split].
    + intros Hmemo. unfold refetchPatch.
      change (getCurrentProjectId n) with (ClassicNode_getCurrentProjectId n).
      unfold ClassicNode_getCurrentProjectId. rewrite Hmemo. cbn. reflexivity.
    + intros rid answer e Hmemo Hne Hfetch Herr. unfold refetchPatch.
      change (getCurrentProjectId n) with (ClassicNode_getCurrentProjectId n).
      assert (Heqb : String.eqb rid "" = false) by now apply String.eqb_neq.
      unfold ClassicNode_getCurrentProjectId. rewrite Hmemo. unfold Js.truthy.
      rewrite Heqb. cbn [negb data]. rewrite Heqb. cbn [negb].
      change (fetchPatch n rid patchId)
        with (fetchOnePatch (httpd n) ("/projects/" ++ rid ++ "/patches/" ++ patchId)%string []).
      now rewrite Hfetch, Herr.
    + intros rid e Hmemo Hne Hfetch. unfold refetchPatch.
      change (getCurrentProjectId n) with (ClassicNode_getCurrentProjectId n).
      assert (Heqb : String.eqb rid "" = false) by now apply String.eqb_neq.
      unfold ClassicNode_getCurrentProjectId. rewrite Hmemo. unfold Js.truthy.
      rewrite Heqb. cbn [negb data]. rewrite Heqb. cbn [negb].
      change (fetchPatch n rid patchId)
        with (fetchOnePatch (httpd n) ("/projects/" ++ rid ++ "/patches/" ++ patchId)%string []).
      now rewrite Hfetch.
Qed.

Lemma refetchPatch_failures_witness :
  refetchPatch (Sample.classic Sample.httpdDown) 1000 "ab12cd34ff"
               (Sample.cache ["ab12cd34ff"])
  = (Return (mkResult None (Some "ECONNREFUSED")), Sample.cache ["ab12cd34ff"]).
Proof.
  destruct (refetchPatch_failures_through_adapters 1000 "ab12cd34ff"
              (Sample.cache ["ab12cd34ff"])) as (_ & Hclassic).
  destruct (Hclassic (Sample.classic Sample.httpdDown)) as (_ & Herror & _).
  apply (Herror Sample.rid (mkResult None (Some "ECONNREFUSED")) "ECONNREFUSED");
    (reflexivity || discriminate).
Defined.

End OnAdapters.

(** ** One adapter per process *)

Section OneAdapter.

Import NodeConnection Selector.

Variable trim : string -> string.
Variable assertUnreachable : string -> Outcome (option string).

Lemma getNodeConnections_memoised (configs : list Configuration) (m : State) (c : Adapter) :
  nodeConnection m = Some c ->
  getNodeConnections trim assertUnreachable configs m
  = (repeat (Return c) (length configs), m).
Proof.
  intros Hm. induction configs as [|config configs IH]; [reflexivity|].
  cbn [getNodeConnections]. unfold getNodeConnection at 1. rewrite Hm, IH. reflexivity.
Qed.

Lemma getNodeConnections_shape (configs : list Configuration) (m : State) :
  nodeConnection m = None ->
  exists (es : list Error) (c : Adapter) (k : nat),
    fst (getNodeConnections trim assertUnreachable configs m)
    = map Throw es ++ repeat (Return c) k /\
    (length es + k = length configs)%nat /\
    constructed (snd (getNodeConnections trim assertUnreachable configs m))
    = (if (k =? 0)%nat then constructed m else S (constructed m)) /\
    (k <> 0%nat -> serial c = constructed m /\
                   nodeConnection (snd (getNodeConnections trim assertUnreachable configs m))
                   = Some c).
Proof.
  intros Hm. induction configs as [|config configs IH].
  - exists [], (mkAdapter ClassicNodeConnection 0), 0%nat. cbn.
    split; [reflexivity|]. split; [reflexivity|]. split; [reflexivity|].
    intros Hk. now destruct Hk.
  - destruct (getConfig trim assertUnreachable config "radicle.advanced.useNodeApi")
      as [flag|e] eqn:Hflag.
    + set (c := mkAdapter
                  (if Js.truthy flag then NAPINodeConnection else ClassicNodeConnection)
                  (constructed m)).
      assert (Hrun : getNodeConnections trim assertUnreachable (config :: configs) m
                     = (Return c :: repeat (Return c) (length configs),
                        mkState (Some c) (S (constructed m)))).
      { cbn [getNodeConnections]. unfold getNodeConnection. rewrite Hm, Hflag. fold c.
        now rewrite (getNodeConnections_memoised configs _ c) by reflexivity. }
      rewrite Hrun. exists [], c, (S (length configs)). cbn. repeat split.
    + destruct IH as (es & c & k & Houts & Hlen & Hcons & Hk).
      assert (Hrun : getNodeConnections trim assertUnreachable (config :: configs) m
                     = (Throw e :: fst (getNodeConnections trim assertUnreachable configs m),
                        snd (getNodeConnections trim assertUnreachable configs m))).
      { cbn [getNodeConnections]. unfold getNodeConnection. rewrite Hm, Hflag.
        now destruct (getNodeConnections trim assertUnreachable configs m). }
      rewrite Hrun. cbn [fst snd]. exists (e :: es), c, k. cbn. rewrite Houts.
      repeat split; try assumption; try lia; now apply Hk.
Qed.

End OneAdapter.

(** X10.  Over any number of calls of [getNodeConnection()] in a
    process, under whatever configuration each call finds and whatever
    [assertUnreachable] does: some calls throw, the first that does not
    constructs the one adapter of the process, and every call after it
    returns that same object; so at most one adapter is constructed. *)
Theorem getNodeConnection_one_adapter_per_process :
  forall (trim : string -> string) (assertUnreachable : string -> Outcome (option string))
         (configs : list NodeConnection.Configuration),
    exists (es : list Error) (c : NodeConnection.Adapter) (k : nat),
      fst (Selector.getNodeConnections trim assertUnreachable configs NodeConnection.fresh)
      = map Throw es ++ repeat (Return c) k /\
      (length es + k = length configs)%nat /\
      NodeConnection.constructed
        (snd (Selector.getNodeConnections trim assertUnreachable configs NodeConnection.fresh))
      = (if (k =? 0)%nat then 0%nat else 1%nat).
Proof.
  intros trim au configs.
  destruct (getNodeConnections_shape trim au configs NodeConnection.fresh eq_refl)
    as (es & c & k & Houts & Hlen & Hcons & _).
  exists es, c, k. auto.
Qed.


(** ** The root of the patches view *)

Section RootListing.

Import Patches PatchList Loop.

(** The comparator of lines 429-434 on patches with revisions. *)
Local Abbreviation byLatest :=
  (fun p1 p2 : Patch =>
     (default 0 (latestTimestamp p2) - default 0 (latestTimestamp p1))%Z).

Lemma latest_of_hasRevision (p : Patch) :
  hasRevision p -> exists latest, snd (getFirstAndLatestRevisions p) = Some latest.
Proof.
  intros H. destruct (edges_spec p H) as (first & latest & Heq & _).
  exists latest. now rewrite Heq.
Qed.

Lemma latest_without_revision (p : Patch) :
  patch_revisions p = [] -> snd (getFirstAndLatestRevisions p) = None.
Proof. intros H. unfold getFirstAndLatestRevisions. now rewrite H. Qed.

Lemma byLatestRevisionFirst_Return (p1 p2 : Patch) :
  hasRevision p1 -> hasRevision p2 -> byLatestRevisionFirst p1 p2 = Return (byLatest p1 p2).
Proof.
  intros H1 H2.
  destruct (latest_of_hasRevision p1 H1) as [l1 E1], (latest_of_hasRevision p2 H2) as [l2 E2].
  unfold byLatestRevisionFirst, latestTimestamp. now rewrite E1, E2.
Qed.

Lemma byLatestRevisionFirst_inv (p1 p2 : Patch) (c : Z) :
  byLatestRevisionFirst p1 p2 = Return c -> hasRevision p1 /\ hasRevision p2.
Proof.
  unfold byLatestRevisionFirst, hasRevision. intros H.
  split; intros Hnil; apply latest_without_revision in Hnil; rewrite Hnil in H;
    [destruct (snd (getFirstAndLatestRevisions p2)) |]; discriminate.
Qed.

Lemma byLatestRevisionFirst_Throw (p1 p2 : Patch) (e : Error) :
  byLatestRevisionFirst p1 p2 = Throw e -> e = "TypeError".
Proof.
  unfold byLatestRevisionFirst.
  destruct (snd (getFirstAndLatestRevisions p2)), (snd (getFirstAndLatestRevisions p1));
    congruence.
Qed.

Lemma insert_by_hasRevision (x : Patch) (xs : list Patch) :
  hasRevision x -> Forall hasRevision xs ->
  insert_by byLatestRevisionFirst x xs = Return (Js.insert_by byLatest x xs).
Proof.
  intros Hx. induction 1 as [|y ys Hy Hys IH]; [reflexivity|].
  cbn [insert_by Js.insert_by]. rewrite (byLatestRevisionFirst_Return x y Hx Hy).
  destruct (_ <=? 0)%Z; [reflexivity | now rewrite IH].
Qed.

Lemma sort_hasRevision (xs : list Patch) :
  Forall hasRevision xs -> sort byLatestRevisionFirst xs = Return (Js.sort byLatest xs).
Proof.
  induction 1 as [|x xs Hx Hxs IH]; [reflexivity|].
  cbn [sort Js.sort]. rewrite IH. apply insert_by_hasRevision; [exact Hx|].
  apply List.Forall_forall. intros y Hy.
  apply (Permutation_in _ (sort_Permutation byLatest xs)) in Hy.
  revert y Hy. now apply List.Forall_forall.
Qed.

(** An array that [sort] can handle: the comparator is not called on
    it, or every call of it answers. *)
Lemma sort_sortable (xs : list Patch) :
  (length xs <= 1)%nat \/ Forall hasRevision xs ->
  sort byLatestRevisionFirst xs = Return (Js.sort byLatest xs).
Proof.
  intros [Hlen|Hall]; [|now apply sort_hasRevision].
  destruct xs as [|x [|y ys]]; [reflexivity | reflexivity | cbn in Hlen; lia].
Qed.

Lemma insert_by_Return (x : Patch) (xs zs : list Patch) :
  insert_by byLatestRevisionFirst x xs = Return zs ->
  Permutation zs (x :: xs) /\ (xs <> [] -> hasRevision x).
Proof.
  revert zs. induction xs as [|y ys IH]; intros zs; cbn [insert_by].
  - intros [= <-]. split; [reflexivity | congruence].
  - destruct (byLatestRevisionFirst x y) as [c|e] eqn:Hc; [|discriminate].
    apply byLatestRevisionFirst_inv in Hc as [Hx _].
    destruct (c <=? 0)%Z.
    + intros [= <-]. split; [reflexivity | now intros _].
    + destruct (insert_by byLatestRevisionFirst x ys) as [zs'|] eqn:Hins; [|discriminate].
      intros [= <-]. destruct (IH zs' eq_refl) as [Hperm _].
      split; [|now intros _]. rewrite Hperm. apply perm_swap.
Qed.

Lemma insert_by_first (x y : Patch) (ys zs : list Patch) :
  insert_by byLatestRevisionFirst x (y :: ys) = Return zs -> hasRevision y.
Proof.
  cbn [insert_by]. destruct (byLatestRevisionFirst x y) as [c|e] eqn:Hc; [|discriminate].
  intros _. now apply byLatestRevisionFirst_inv in Hc.
Qed.

(** What a sort that answers has been given. *)
Lemma sort_Return (xs zs : list Patch) :
  sort byLatestRevisionFirst xs = Return zs ->
  Permutation zs xs /\ ((2 <= length xs)%nat -> Forall hasRevision xs).
Proof.
  revert zs. induction xs as [|x xs IH]; intros zs; cbn [sort].
  - intros [= <-]. split; [reflexivity | cbn; lia].
  - destruct (sort byLatestRevisionFirst xs) as [sorted|] eqn:Hsort; [|discriminate].
    destruct (IH sorted eq_refl) as [Hperm Hall]. intros Hins.
    destruct (insert_by_Return _ _ _ Hins) as [Hperm' Hx].
    split; [now rewrite Hperm', Hperm|].
    intros Hlen. constructor.
    + apply Hx. intros ->. apply Permutation_nil in Hperm. subst xs. cbn in Hlen. lia.
    + destruct xs as [|y [|y' ys]]; [constructor | | apply Hall; cbn; lia].
      symmetry in Hperm. apply Permutation_length_1_inv in Hperm. subst sorted.
      constructor; [|constructor]. now apply insert_by_first in Hins.
Qed.

Lemma insert_by_Throw (x : Patch) (xs : list Patch) (e : Error) :
  insert_by byLatestRevisionFirst x xs = Throw e -> e = "TypeError".
Proof.
  induction xs as [|y ys IH]; cbn [insert_by]; [discriminate|].
  destruct (byLatestRevisionFirst x y) as [c|e'] eqn:Hc.
  - destruct (c <=? 0)%Z; [discriminate|].
    destruct (insert_by byLatestRevisionFirst x ys); [discriminate|].
    intros [= <-]. now apply IH.
  - intros [= <-]. now apply byLatestRevisionFirst_Throw in Hc.
Qed.

Lemma sort_Throw (xs : list Patch) (e : Error) :
  sort byLatestRevisionFirst xs = Throw e -> e = "TypeError".
Proof.
  induction xs as [|x xs IH]; cbn [sort]; [discriminate|].
  destruct (sort byLatestRevisionFirst xs) as [sorted|e'].
  - apply insert_by_Throw.
  - intros [= <-]. now apply IH.
Qed.

(** A status with two patches, one without a revision, cannot be
    sorted. *)
Lemma sort_without_revision (xs : list Patch) :
  (2 <= length xs)%nat -> Exists (fun p => patch_revisions p = []) xs ->
  sort byLatestRevisionFirst xs = Throw "TypeError".
Proof.
  intros Hlen Hex.
  destruct (sort byLatestRevisionFirst xs) as [zs|e] eqn:Hsort.
  - apply sort_Return in Hsort as [_ Hall]. specialize (Hall Hlen).
    apply List.Exists_exists in Hex as (p & Hp & Hnil).
    rewrite List.Forall_forall in Hall. now destruct (Hall p Hp).
  - now rewrite (sort_Throw _ _ Hsort).
Qed.

Lemma ofStatus_Permutation (patches : list Patch) :
  Permutation (ofStatus draft patches ++ ofStatus open patches
               ++ ofStatus archived patches ++ ofStatus merged patches) patches.
Proof.
  unfold ofStatus. induction patches as [|p ps IH]; [reflexivity|].
  rewrite !filter_cons.
  destruct (patch_status p) eqn:Hstatus;
    repeat match goal with
           | |- context [decide ?P] => destruct (decide P); [try discriminate | try congruence]
           end.
  - cbn. now constructor.
  - cbn [app]. rewrite <- Permutation_middle. now constructor.
  - cbn [app]. rewrite app_assoc, <- Permutation_middle, <- app_assoc. now constructor.
  - rewrite !app_assoc, <- Permutation_middle, <- !app_assoc. now constructor.
Qed.

Lemma StronglySorted_app {A : Type} (R : A -> A -> Prop) (xs ys : list A) :
  StronglySorted R xs -> StronglySorted R ys ->
  (forall x y, In x xs -> In y ys -> R x y) ->
  StronglySorted R (xs ++ ys).
Proof.
  intros Hxs Hys Hcross. induction Hxs as [|x xs Hxs IH Hx]; [exact Hys|].
  cbn. constructor.
  - apply IH. intros a b Ha Hb. apply Hcross; [now right | exact Hb].
  - apply List.Forall_forall. intros z Hz. apply in_app_or in Hz as [Hz|Hz].
    + rewrite List.Forall_forall in Hx. now apply Hx.
    + apply Hcross; [now left | exact Hz].
Qed.

Lemma StronglySorted_weaken {A : Type} (R R' : A -> A -> Prop) (xs : list A) :
  (forall x y, In x xs -> In y xs -> R x y -> R' x y) ->
  StronglySorted R xs -> StronglySorted R' xs.
Proof.
  intros Himpl Hxs. induction Hxs as [|x xs Hxs IH Hx]; [constructor|].
  constructor.
  - apply IH. intros a b Ha Hb. apply Himpl; now right.
  - rewrite List.Forall_forall in *. intros z Hz.
    apply Himpl; [now left | now right | now apply Hx].
Qed.

Lemma StronglySorted_lookup {A : Type} (R : A -> A -> Prop) (xs : list A) :
  StronglySorted R xs ->
  forall i j x y, (i < j)%nat -> xs !! i = Some x -> xs !! j = Some y -> R x y.
Proof.
  induction 1 as [|z zs Hzs IH Hz]; intros i j x y Hij Hi Hj; [destruct i; discriminate|].
  destruct j as [|j]; [lia|]. cbn in Hj.
  destruct i as [|i].
  - cbn in Hi. injection Hi as ->. rewrite List.Forall_forall in Hz.
    apply Hz. apply list_elem_of_In. now apply list_elem_of_lookup_2 in Hj.
  - cbn in Hi. apply (IH i j); [lia | exact Hi | exact Hj].
Qed.

Lemma In_ofStatus (status : PatchStatus) (patches : list Patch) (p : Patch) :
  In p (ofStatus status patches) -> patch_status p = status.
Proof.
  unfold ofStatus. intros H. apply list_elem_of_In in H.
  now apply list_elem_of_filter in H as [H _].
Qed.

(** A status sorted by line 428 onwards is in the order of the view. *)
Lemma sorted_ofStatus (status : PatchStatus) (patches : list Patch) :
  StronglySorted listedAbove (Js.sort byLatest (ofStatus status patches)).
Proof.
  apply (StronglySorted_weaken (Js.before byLatest)).
  - intros x y Hx Hy Hxy. right.
    apply (Permutation_in _ (sort_Permutation byLatest _)), In_ofStatus in Hx, Hy.
    split; [congruence|]. intros tp tq Hp Hq.
    unfold Js.before in Hxy. rewrite Hp, Hq in Hxy. cbn in Hxy. lia.
  - apply sort_sorted; unfold Js.before; intros; lia.
Qed.

Lemma sorted_statuses (patches : list Patch) :
  StronglySorted listedAbove
    (Js.sort byLatest (ofStatus draft patches) ++ Js.sort byLatest (ofStatus open patches)
     ++ Js.sort byLatest (ofStatus archived patches)
     ++ Js.sort byLatest (ofStatus merged patches)).
Proof.
  repeat apply StronglySorted_app; try apply sorted_ofStatus;
    intros x y Hx Hy; left;
    repeat match goal with
           | H : In _ (_ ++ _) |- _ => apply in_app_or in H as [H|H]
           end;
    apply (Permutation_in _ (sort_Permutation byLatest _)), In_ofStatus in Hx, Hy;
    rewrite Hx, Hy; cbn; lia.
Qed.

Lemma no_error_found (responses : list (Result (list Patch))) :
  allSucceeded responses = true ->
  Js.find (fun response => bool_decide (is_Some (error response))) responses = None.
Proof.
  induction responses as [|r rs IH]; [reflexivity|].
  cbn. destruct (error r); cbn; [discriminate | exact IH].
Qed.

(** Lines 127-144 when no response carries an error and something was
    fetched. *)
Lemma listing_succeeded (responses : list (Result (list Patch))) :
  allSucceeded responses = true -> fetched responses <> [] ->
  listing responses
  = match getPatchesOfStatusSortedByLatestRevisionFirst (fetched responses) draft with
    | Throw e => Throw e
    | Return drafts =>
    match getPatchesOfStatusSortedByLatestRevisionFirst (fetched responses) open with
    | Throw e => Throw e
    | Return opens =>
    match getPatchesOfStatusSortedByLatestRevisionFirst (fetched responses) archived with
    | Throw e => Throw e
    | Return archiveds =>
    match getPatchesOfStatusSortedByLatestRevisionFirst (fetched responses) merged with
    | Throw e => Throw e
    | Return mergeds => Return (map Item (drafts ++ opens ++ archiveds ++ mergeds))
    end end end end.
Proof.
  intros Hok Hne. unfold listing.
  rewrite (no_error_found _ Hok), filterBoolean_flatMap.
  rewrite bool_decide_eq_false_2 by (intros [x Hx]; discriminate).
  destruct (fetched responses); [contradiction | reflexivity].
Qed.

End RootListing.

(** X11.  When the four requests of the root are answered without an
    error, something was fetched, and every status holds at most one
    patch or only patches with a revision, the root of the view lists
    every fetched patch exactly once, drafts first, then open, archived
    and merged ones, and within a status the patch revised last first. *)
Theorem root_lists_each_patch_by_status_and_latest_revision :
  forall (h : Httpd) (responses : list (Result (list Patch))),
    PatchList.rootRequests h = Return responses ->
    Loop.allSucceeded responses = true ->
    Loop.fetched responses <> [] ->
    (forall status,
        (length (PatchList.ofStatus status (Loop.fetched responses)) <= 1)%nat \/
        Forall PatchList.hasRevision (PatchList.ofStatus status (Loop.fetched responses))) ->
    exists listed,
      PatchList.getChildren_root h = Return (map PatchList.Item listed) /\
      Permutation listed (Loop.fetched responses) /\
      forall i j p q, (i < j)%nat -> listed !! i = Some p -> listed !! j = Some q ->
                      PatchList.listedAbove p q.
Proof.
  intros h responses Hreq Hok Hne Hsortable.
  unfold PatchList.getChildren_root. rewrite Hreq, (listing_succeeded _ Hok Hne).
  unfold PatchList.getPatchesOfStatusSortedByLatestRevisionFirst.
  fold (PatchList.ofStatus draft (Loop.fetched responses)).
  fold (PatchList.ofStatus open (Loop.fetched responses)).
  fold (PatchList.ofStatus archived (Loop.fetched responses)).
  fold (PatchList.ofStatus merged (Loop.fetched responses)).
  rewrite !sort_sortable by apply Hsortable.
  eexists. split; [reflexivity|]. split.
  - rewrite !sort_Permutation. apply ofStatus_Permutation.
  - apply StronglySorted_lookup, sorted_statuses.
Qed.

Lemma root_lists_witness :
  exists listed,
    PatchList.getChildren_root SampleView.httpdOfListed
    = Return (map PatchList.Item listed) /\
    Permutation listed
      [ SampleView.patchOf "d1" draft [100%Z];
        SampleView.patchOf "o1" open [200%Z];
        SampleView.patchOf "o2" open [100%Z; 300%Z] ] /\
    forall i j p q, (i < j)%nat -> listed !! i = Some p -> listed !! j = Some q ->
                    PatchList.listedAbove p q.
Proof.
  apply (root_lists_each_patch_by_status_and_latest_revision
           SampleView.httpdOfListed
           [ Sample.succeeded [SampleView.patchOf "d1" draft [100%Z]];
             Sample.succeeded [SampleView.patchOf "o1" open [200%Z];
                               SampleView.patchOf "o2" open [100%Z; 300%Z]];
             Sample.succeeded []; Sample.succeeded [] ]).
  - reflexivity.
  - reflexivity.
  - discriminate.
  - intros status. right. destruct status; vm_compute; repeat constructor; discriminate.
Defined.

(** X12.  When the four requests of the root are answered without an
    error and some status holds at least two fetched patches, one of
    which has no revision, the root of the view throws a [TypeError]:
    no patch of any status is listed. *)
Theorem root_throws_on_a_patch_without_revision :
  forall (h : Httpd) (responses : list (Result (list Patch))) (status : PatchStatus),
    PatchList.rootRequests h = Return responses ->
    Loop.allSucceeded responses = true ->
    (2 <= length (PatchList.ofStatus status (Loop.fetched responses)))%nat ->
    Exists (fun p => patch_revisions p = [])
           (PatchList.ofStatus status (Loop.fetched responses)) ->
    PatchList.getChildren_root h = Throw "TypeError".
Proof.
  intros h responses status Hreq Hok Hlen Hex.
  assert (Hne : Loop.fetched responses <> []).
  { intros Hnil. rewrite Hnil in Hlen. cbn in Hlen. lia. }
  pose proof (sort_without_revision _ Hlen Hex) as Hthrow.
  unfold PatchList.getChildren_root. rewrite Hreq, (listing_succeeded _ Hok Hne).
  unfold PatchList.getPatchesOfStatusSortedByLatestRevisionFirst.
  fold (PatchList.ofStatus draft (Loop.fetched responses)).
  fold (PatchList.ofStatus open (Loop.fetched responses)).
  fold (PatchList.ofStatus archived (Loop.fetched responses)).
  fold (PatchList.ofStatus merged (Loop.fetched responses)).
  destruct (PatchList.sort _ (PatchList.ofStatus draft _)) as [ds|e1] eqn:E1;
    [|now rewrite (sort_Throw _ _ E1)].
  destruct (PatchList.sort _ (PatchList.ofStatus open _)) as [os|e2] eqn:E2;
    [|now rewrite (sort_Throw _ _ E2)].
  destruct (PatchList.sort _ (PatchList.ofStatus archived _)) as [az|e3] eqn:E3;
    [|now rewrite (sort_Throw _ _ E3)].
  destruct (PatchList.sort _ (PatchList.ofStatus merged _)) as [ms|e4] eqn:E4;
    [|now rewrite (sort_Throw _ _ E4)].
  destruct status; congruence.
Qed.

Lemma root_throws_witness :
  PatchList.getChildren_root SampleView.httpdWithoutRevision = Throw "TypeError".
Proof.
  apply (root_throws_on_a_patch_without_revision
           SampleView.httpdWithoutRevision
           [ Sample.succeeded [];
             Sample.succeeded [SampleView.patchOf "o1" open [200%Z];
                               SampleView.patchOf "o3" open []];
             Sample.succeeded []; Sample.succeeded [] ]
           open).
  - reflexivity.
  - reflexivity.
  - vm_compute. lia.
  - vm_compute. right. now left.
Defined.

(** ** The labels of the tooltip *)

Section Labels.

Import PatchList.

Local Abbreviation backticked := (fun label : string => ("`" ++ label ++ "`")%string).

Lemma append_nonempty (x y : string) : x <> "" -> (x ++ y)%string <> "".
Proof. destruct x; [congruence | discriminate]. Qed.

Lemma labels_after_the_first (labels : list string) (joinedLabels : string) :
  joinedLabels <> "" ->
  fold_left (fun joinedLabels label : string =>
               (joinedLabels ++ (if Js.truthy (Some joinedLabels) then " " else "")
                ++ "`" ++ label ++ "`")%string)
            labels joinedLabels
  = match labels with
    | [] => joinedLabels
    | _ => (joinedLabels ++ " " ++ String.concat " " (map backticked labels))%string
    end.
Proof.
  revert joinedLabels. induction labels as [|label labels IH]; intros joined Hne;
    [reflexivity|].
  cbn [fold_left map]. rewrite IH by now apply append_nonempty.
  assert (Htruthy : Js.truthy (Some joined) = true).
  { cbn. now apply negb_true_iff, String.eqb_neq. }
  rewrite Htruthy. destruct labels as [|label' labels]; [reflexivity|].
  cbn [String.concat map]. now rewrite !append_assoc.
Qed.

End Labels.

(** X13.  The labels line of the tooltip of a patch is its labels, each
    between backticks, in order and separated by single spaces, with no
    space in front or behind, also when a label is the empty string. *)
Theorem labelsLine_backticked_and_spaced :
  forall labels : list string,
    PatchList.labelsLine labels
    = String.concat " " (map (fun label => ("`" ++ label ++ "`")%string) labels).
Proof.
  intros [|label labels]; [reflexivity|].
  unfold PatchList.labelsLine. cbn [fold_left].
  rewrite labels_after_the_first by discriminate.
  destruct labels; reflexivity.
Qed.

(** ** Revisions of one timestamp *)

Section Ties.

Import Patches.

Local Abbreviation byTimestamp :=
  (fun p1 p2 : Revision => (rev_timestamp p1 - rev_timestamp p2)%Z).

Lemma sort_first_of_the_oldest (before after : list Revision) (r : Revision) :
  Forall (fun x => rev_timestamp r < rev_timestamp x)%Z before ->
  Forall (fun x => rev_timestamp r <= rev_timestamp x)%Z after ->
  Js.at_first (Js.sort byTimestamp (before ++ r :: after)) = Some r.
Proof.
  intros Hbefore Hafter. induction Hbefore as [|a before Ha Hbefore IH]; cbn [app Js.sort].
  - pose proof (sort_Permutation byTimestamp after) as Hperm.
    destruct (Js.sort byTimestamp after) as [|y ys]; [reflexivity|].
    cbn [Js.insert_by].
    assert (Hy : (rev_timestamp r <= rev_timestamp y)%Z).
    { rewrite List.Forall_forall in Hafter. apply Hafter.
      apply (Permutation_in _ Hperm). now left. }
    destruct (Z.leb_spec (rev_timestamp r - rev_timestamp y) 0); [reflexivity | lia].
  - destruct (Js.sort byTimestamp (before ++ r :: after)) as [|y ys]; [discriminate|].
    injection IH as ->. cbn [Js.insert_by].
    destruct (Z.leb_spec (rev_timestamp a - rev_timestamp r) 0); [lia | reflexivity].
Qed.

Lemma at_last_snoc {A : Type} (xs : list A) (x : A) : Js.at_last (xs ++ [x]) = Some x.
Proof.
  induction xs as [|y ys IH]; [reflexivity|].
  cbn [app]. destruct (ys ++ [x]) eqn:E; [now destruct ys | exact IH].
Qed.

Lemma insert_by_behind (r : Revision) (xs : list Revision) :
  Forall (fun x => rev_timestamp x < rev_timestamp r)%Z xs ->
  Js.insert_by byTimestamp r xs = xs ++ [r].
Proof.
  induction 1 as [|y ys Hy Hys IH]; [reflexivity|].
  cbn [Js.insert_by app].
  destruct (Z.leb_spec (rev_timestamp r - rev_timestamp y) 0); [lia | now rewrite IH].
Qed.

Lemma insert_by_keeps_last (a r : Revision) (xs : list Revision) :
  (rev_timestamp a <= rev_timestamp r)%Z -> Js.at_last xs = Some r ->
  Js.at_last (Js.insert_by byTimestamp a xs) = Some r.
Proof.
  intros Ha. induction xs as [|y ys IH]; [discriminate|].
  intros Hlast. cbn [Js.insert_by].
  destruct (Z.leb_spec (rev_timestamp a - rev_timestamp y) 0) as [Hle|Hgt];
    [exact Hlast|].
  destruct ys as [|y' ys'].
  - injection Hlast as ->. lia.
  - specialize (IH Hlast).
    destruct (Js.insert_by byTimestamp a (y' :: ys')) eqn:E; [discriminate | exact IH].
Qed.

Lemma sort_last_of_the_newest (before after : list Revision) (r : Revision) :
  Forall (fun x => rev_timestamp x <= rev_timestamp r)%Z before ->
  Forall (fun x => rev_timestamp x < rev_timestamp r)%Z after ->
  Js.at_last (Js.sort byTimestamp (before ++ r :: after)) = Some r.
Proof.
  intros Hbefore Hafter. induction Hbefore as [|a before Ha Hbefore IH]; cbn [app Js.sort].
  - rewrite insert_by_behind; [apply at_last_snoc|].
    apply List.Forall_forall. intros y Hy.
    apply (Permutation_in _ (sort_Permutation byTimestamp after)) in Hy.
    revert y Hy. now apply List.Forall_forall.
  - now apply insert_by_keeps_last.
Qed.

End Ties.

(** X14.  Among revisions of one timestamp the order of storage
    decides: the first revision of a patch is the one stored first
    among its oldest, the latest revision the one stored last among its
    newest. *)
Theorem getFirstAndLatestRevisions_ties_by_storage_order :
  forall (patch : Patch) (before after : list Revision) (r : Revision),
    patch_revisions patch = before ++ r :: after ->
    (Forall (fun x => rev_timestamp r < rev_timestamp x)%Z before ->
     Forall (fun x => rev_timestamp r <= rev_timestamp x)%Z after ->
     fst (Patches.getFirstAndLatestRevisions patch) = Some r) /\
    (Forall (fun x => rev_timestamp x <= rev_timestamp r)%Z before ->
     Forall (fun x => rev_timestamp x < rev_timestamp r)%Z after ->
     snd (Patches.getFirstAndLatestRevisions patch) = Some r).
Proof.
  intros patch before after r Hrevisions.
  unfold Patches.getFirstAndLatestRevisions. rewrite Hrevisions. cbn [fst snd].
  split; intros Hbefore Hafter;
    [now apply sort_first_of_the_oldest | now apply sort_last_of_the_newest].
Qed.

Lemma getFirstAndLatestRevisions_ties_witness :
  let revision id timestamp :=
    mkRevision id Sample.alice "" "b0b0b0b0" "c1c1c1c1" timestamp in
  let patch :=
    mkPatch "ab12cd34ff" "Fix typo" Sample.alice [] open
            [revision "r1" 100%Z; revision "r2" 100%Z; revision "r3" 300%Z;
             revision "r4" 300%Z] in
  fst (Patches.getFirstAndLatestRevisions patch) = Some (revision "r1" 100%Z) /\
  snd (Patches.getFirstAndLatestRevisions patch) = Some (revision "r4" 300%Z).
Proof.
  intros revision patch. split.
  - apply (proj1 (getFirstAndLatestRevisions_ties_by_storage_order
                    patch []
                    [revision "r2" 100%Z; revision "r3" 300%Z; revision "r4" 300%Z]
                    (revision "r1" 100%Z) eq_refl));
      repeat constructor; cbn; lia.
  - apply (proj2 (getFirstAndLatestRevisions_ties_by_storage_order
                    patch
                    [revision "r1" 100%Z; revision "r2" 100%Z; revision "r3" 300%Z] []
                    (revision "r4" 300%Z) eq_refl));
      repeat constructor; cbn; lia.
Defined.

(** ** The home of the node *)

(** X15.  When both readings of the home directory of the user agree,
    the text about the home of the node is empty if the configured path
    is unset or blank after trimming or is the default path, and
    otherwise names the trimmed configured path between quotes; it
    never throws and never prints an [undefined] path, whatever
    [assertUnreachable] does. *)
Theorem composeNodePathMsg_names_the_configured_path :
  forall (trim : string -> string) (assertUnreachable : string -> Outcome (option string))
         (config : NodeConnection.Configuration) (homeDir : option string),
    Config.composeNodePathMsg trim assertUnreachable config homeDir homeDir
    = Return
        match option_map trim (config "radicle.advanced.pathToNodeHome") with
        | Some configured =>
            if bool_decide (configured = ""
                            \/ Some configured = Config.getDefaultPathToNodeHome homeDir)
            then ""
            else (" stored in " ++ Config.quote ++ configured ++ Config.quote)%string
        | None => ""
        end.
Proof.
  intros trim au config homeDir.
  unfold Config.composeNodePathMsg, Config.getResolvedPathToNodeHome,
    NodeConnection.getConfig.
  cbn [String.eqb Ascii.eqb Bool.eqb orb].
  destruct (option_map trim (config "radicle.advanced.pathToNodeHome")) as [configured|];
    cbn [Js.truthy].
  - destruct (String.eqb_spec configured "") as [->|Hne]; cbn [negb].
    + rewrite bool_decide_eq_true_2 by reflexivity.
      now rewrite bool_decide_eq_true_2 by now left.
    + destruct (decide (Some configured = Config.getDefaultPathToNodeHome homeDir))
        as [Heq|Hneq].
      * rewrite bool_decide_eq_true_2 by exact Heq.
        now rewrite bool_decide_eq_true_2 by now right.
      * rewrite bool_decide_eq_false_2 by exact Hneq.
        now rewrite bool_decide_eq_false_2 by now intros [?|?].
  - now rewrite bool_decide_eq_true_2 by reflexivity.
Qed.

(** ** The files a diff is shown from *)

Section VersionFiles.

Import TempFiles.

Lemma chars_append (a b : string) : Path.chars (a ++ b) = Path.chars a ++ Path.chars b.
Proof.
  unfold Path.chars. induction a as [|c a IH]; [reflexivity|].
  change (String c a ++ b)%string with (String c (a ++ b)). cbn. now rewrite IH.
Qed.

Lemma text_chars (s : string) : Path.text (Path.chars s) = s.
Proof. apply string_of_list_ascii_of_string. Qed.

Lemma rev_middle {A : Type} (xs ys : list A) (c : A) :
  rev (xs ++ c :: ys) = rev ys ++ c :: rev xs.
Proof. rewrite rev_app_distr. cbn. now rewrite <- app_assoc. Qed.

Lemma skipWhile_stops (f : ascii -> bool) (c : ascii) (cs : list ascii) :
  f c = false -> Path.skipWhile f (c :: cs) = c :: cs.
Proof. intros H. cbn. now rewrite H. Qed.

Lemma skipWhile_app (f : ascii -> bool) (xs ys : list ascii) (c : ascii) :
  forallb f xs = true -> f c = false -> Path.skipWhile f (xs ++ c :: ys) = c :: ys.
Proof.
  intros Hxs Hc. induction xs as [|x xs IH]; cbn; [now rewrite Hc|].
  cbn in Hxs. apply andb_true_iff in Hxs as [Hx Hxs]. rewrite Hx. now apply IH.
Qed.

Lemma readWhile_app (f : ascii -> bool) (xs ys : list ascii) (c : ascii) :
  forallb f xs = true -> f c = false -> Path.readWhile f (xs ++ c :: ys) = xs.
Proof.
  intros Hxs Hc. induction xs as [|x xs IH]; cbn; [now rewrite Hc|].
  cbn in Hxs. apply andb_true_iff in Hxs as [Hx Hxs]. rewrite Hx. now rewrite IH.
Qed.

Lemma plain_rev (name : string) :
  plain name = true ->
  forallb (fun c => negb (Path.isSep c)) (rev (Path.chars name)) = true.
Proof.
  unfold plain. rewrite !forallb_forall. intros H c Hc. apply H. now apply in_rev.
Qed.

(** The last component of a path, reversed, as the scans meet it. *)
Lemma skip_trailing (name : string) (cs : list ascii) :
  name <> "" -> plain name = true ->
  Path.skipWhile Path.isSep (rev (Path.chars name) ++ cs) = rev (Path.chars name) ++ cs.
Proof.
  intros Hne Hplain. apply plain_rev in Hplain.
  destruct (rev (Path.chars name)) as [|c rn] eqn:E.
  - apply (f_equal (@rev ascii)) in E. rewrite rev_involutive in E. cbn in E.
    apply (f_equal Path.text) in E. rewrite text_chars in E. now destruct Hne.
  - cbn [app]. apply skipWhile_stops. cbn in Hplain.
    apply andb_true_iff in Hplain as [Hc _]. now apply negb_true_iff.
Qed.

Lemma basename_of_joined (dir name : string) :
  name <> "" -> plain name = true -> Path.basename (dir ++ "/" ++ name) = name.
Proof.
  intros Hne Hplain. unfold Path.basename.
  rewrite !chars_append. change (Path.chars "/") with ["/"%char]. cbn [app].
  rewrite rev_middle, (skip_trailing name _ Hne Hplain).
  rewrite readWhile_app; [| now apply plain_rev | reflexivity].
  rewrite rev_involutive. apply text_chars.
Qed.

Lemma basename_of_plain (name : string) :
  name <> "" -> plain name = true -> Path.basename name = name.
Proof.
  intros Hne Hplain. unfold Path.basename.
  rewrite <- (app_nil_r (rev (Path.chars name))), (skip_trailing name _ Hne Hplain).
  rewrite app_nil_r.
  assert (Hread : forall cs, forallb (fun c => negb (Path.isSep c)) cs = true ->
                             Path.readWhile (fun c => negb (Path.isSep c)) cs = cs).
  { induction cs as [|c cs IH]; [reflexivity|]. cbn. intros H.
    apply andb_true_iff in H as [Hc Hcs]. rewrite Hc. now rewrite IH. }
  rewrite Hread by now apply plain_rev.
  rewrite rev_involutive. apply text_chars.
Qed.

Lemma dirname_of_joined (dir name : string) :
  dir <> "" -> dir <> "/" -> name <> "" -> plain name = true ->
  Path.dirname (dir ++ "/" ++ name) = dir.
Proof.
  intros Hdir Hroot Hne Hplain. unfold Path.dirname.
  rewrite !chars_append. change (Path.chars "/") with ["/"%char]. cbn [app].
  destruct dir as [|c0 d]; [now destruct Hdir|].
  change (Path.chars (String c0 d)) with (c0 :: Path.chars d). cbn [app].
  rewrite rev_middle, (skip_trailing name _ Hne Hplain).
  rewrite skipWhile_app; [| now apply plain_rev | reflexivity].
  rewrite rev_involutive.
  destruct (Path.isSep c0 && (length (rev (Path.chars d)) =? 0)%nat) eqn:Hslash.
  - apply andb_true_iff in Hslash as [Hc0 Hlen].
    apply Ascii.eqb_eq in Hc0. apply Nat.eqb_eq in Hlen.
    rewrite length_rev in Hlen. destruct d; [subst; now destruct Hroot | discriminate].
  - change (c0 :: Path.chars d) with (Path.chars (String c0 d)). apply text_chars.
Qed.

Lemma dirname_of_plain (name : string) :
  name <> "" -> plain name = true -> Path.dirname name = ".".
Proof.
  intros Hne Hplain. unfold Path.dirname.
  destruct name as [|c0 rest]; [reflexivity|].
  change (Path.chars (String c0 rest)) with (c0 :: Path.chars rest).
  unfold plain in Hplain.
  change (Path.chars (String c0 rest)) with (c0 :: Path.chars rest) in Hplain.
  cbn [forallb] in Hplain. apply andb_true_iff in Hplain as [Hc0 Hrest].
  assert (Hskip : forall cs, forallb (fun c => negb (Path.isSep c)) cs = true ->
                    Path.skipWhile (fun c => negb (Path.isSep c))
                                   (Path.skipWhile Path.isSep cs)
                    = []).
  { intros [|c cs] H; [reflexivity|]. cbn [forallb] in H.
    apply andb_true_iff in H as [Hc Hcs].
    rewrite skipWhile_stops by now apply negb_true_iff.
    cbn. rewrite Hc. clear c Hc. induction cs as [|c cs IH]; [reflexivity|].
    cbn in *. apply andb_true_iff in Hcs as [Hc Hcs]. rewrite Hc. now apply IH. }
  rewrite Hskip.
  - apply negb_true_iff in Hc0. now rewrite Hc0.
  - rewrite forallb_forall in *. intros c Hc. apply Hrest. now apply in_rev.
Qed.

End VersionFiles.

(** X16.  The old or new version of a changed file is written below
    the temporary directory of the extension and the shortened hash of
    its commit at the path the file has in the repository: a file in a
    directory at that very path, a file at the top level behind a
    single dot. *)
Theorem versionFileLocation_keeps_the_path_of_the_file :
  forall (tmpdir : string) (shortenHash : string -> string) (hash name : string),
    name <> "" -> TempFiles.plain name = true ->
    (forall dir, dir <> "" -> dir <> "/" ->
       TempFiles.versionFileLocation tmpdir shortenHash hash (dir ++ "/" ++ name)
       = (tmpdir ++ "/radicle/" ++ shortenHash hash ++ "/" ++ dir ++ "/" ++ name)%string) /\
    TempFiles.versionFileLocation tmpdir shortenHash hash name
    = (tmpdir ++ "/radicle/" ++ shortenHash hash ++ "/./" ++ name)%string.
Proof.
  intros tmpdir shortenHash hash name Hne Hplain.
  unfold TempFiles.versionFileLocation, TempFiles.tempFileLocationPrefix, TempFiles.sep.
  split.
  - intros dir Hdir Hroot.
    rewrite dirname_of_joined, basename_of_joined by assumption.
    now rewrite !append_assoc.
  - rewrite dirname_of_plain, basename_of_plain by assumption.
    now rewrite !append_assoc.
Qed.

Lemma versionFileLocation_witness :
  TempFiles.versionFileLocation "/tmp" (fun hash => substring 0 7 hash)
    "c1c1c1c1c1c1" "src/ux/patches.ts"
  = "/tmp/radicle/c1c1c1c/src/ux/patches.ts".
Proof.
  apply (proj1 (versionFileLocation_keeps_the_path_of_the_file
                  "/tmp" (fun hash => substring 0 7 hash) "c1c1c1c1c1c1" "patches.ts"
                  ltac:(discriminate) eq_refl) "src/ux");
    discriminate.
Defined.
